(** * PokeGame: the battle rules of [test.py], embedded and verified

    The development follows the Python source top-down: the value classes
    ([PokemonType], [Move], [Pokemon]), the type chart, then the methods of
    [PokemonGUI] that make up the rules engine ([start_battle], [use_move],
    [ai_turn], [execute_move], [calculate_damage], [end_battle]).

    Python [int] is [Z].  Python [float] is IEEE-754 binary64, modelled
    bit-exactly by the Standard Library's [spec_float] with precision 53 and
    maximal exponent 1024 (round to nearest, ties to even).  Exceptions are an
    explicit result type.  The random source is injected: every value the
    code draws from [random] is an argument of the function that draws it. *)

From Stdlib Require Import ZArith Bool List Lia.
From Stdlib Require Import Floats.SpecFloat.
From Stdlib Require Import QArith Qround Qabs Qpower Lqa.
From stdpp Require Import gmap strings list pretty.

Local Open Scope Z_scope.

(** ** Exceptions *)

Inductive exn : Set :=
  | ZeroDivisionError
  | OverflowError
  | ValueError
  | IndexError
  | AttributeError.

Inductive result (A : Type) : Type :=
  | Ok (a : A)
  | Raise (e : exn).
Arguments Ok {A} a.
Arguments Raise {A} e.

Definition rbind {A B} (r : result A) (k : A -> result B) : result B :=
  match r with
  | Ok a => k a
  | Raise e => Raise e
  end.

Notation "x <~ r ;; k" := (rbind r (fun x => k))
  (at level 100, r at next level, right associativity).

(** ** Python floats *)

Module Float.

Definition prec : Z := 53.
Definition emax : Z := 1024.

Definition mul : spec_float -> spec_float -> spec_float := SFmul prec emax.
Definition add : spec_float -> spec_float -> spec_float := SFadd prec emax.
Definition div : spec_float -> spec_float -> spec_float := SFdiv prec emax.

(** [x < y], [x == y] on floats; both are [false] when an operand is NaN. *)
Definition ltb : spec_float -> spec_float -> bool := SFltb.
Definition eqb : spec_float -> spec_float -> bool := SFeqb.
(** [x > y] *)
Definition gtb (x y : spec_float) : bool := SFltb y x.

Definition is_finite (x : spec_float) : bool :=
  match x with
  | S754_zero _ | S754_finite _ _ _ => true
  | S754_infinity _ | S754_nan => false
  end.

(** An integer as an exact, unrounded operand [z * 2^0]. *)
Definition exact (z : Z) : spec_float :=
  match z with
  | Z0 => S754_zero false
  | Zpos p => S754_finite false p 0
  | Zneg p => S754_finite true p 0
  end.

(** The double nearest to an integer. *)
Definition of_Z (z : Z) : spec_float := binary_normalize prec emax z 0 false.

(** Rounding towards zero, and towards minus infinity, of a finite float. *)
Definition trunc (x : spec_float) : Z :=
  match x with
  | S754_finite s m e => cond_Zopp s (Z.shiftl (Zpos m) e)
  | _ => 0
  end.

Definition floor (x : spec_float) : Z :=
  match x with
  | S754_finite s m e => Z.shiftl (cond_Zopp s (Zpos m)) e
  | _ => 0
  end.

(** Float literals of the source, as the correctly rounded quotient of
    their decimal numerator and denominator. *)
Definition literal (num den : Z) : spec_float := div (exact num) (exact den).

End Float.

(** [a / b] on two ints: the correctly rounded quotient. *)
Definition int_truediv (a b : Z) : result spec_float :=
  if b =? 0 then Raise ZeroDivisionError
  else
    let q := Float.div (Float.exact a) (Float.exact b) in
    if Float.is_finite q then Ok q else Raise OverflowError.

(** The implicit conversion of the int operand of a mixed float/int
    operation. *)
Definition float_of_int (n : Z) : result spec_float :=
  let x := Float.of_Z n in
  if Float.is_finite x then Ok x else Raise OverflowError.

(** [int(x)] *)
Definition int_of_float (x : spec_float) : result Z :=
  match x with
  | S754_nan => Raise ValueError
  | S754_infinity _ => Raise OverflowError
  | _ => Ok (Float.trunc x)
  end.

(** ** PokemonType, Move, Pokemon *)

Inductive PokemonType : Set := FIRE | WATER | GRASS | ELECTRIC | NORMAL.

#[global] Instance PokemonType_eq_dec : EqDecision PokemonType.
Proof. solve_decision. Defined.

Record Move : Type := mkMove {
  move_name : string;
  power : Z;
  move_type : PokemonType;
  accuracy : spec_float
}.

(** [Move(name, power, move_type)] with the default [accuracy = 1.0]. *)
Definition f1_0 : spec_float := Eval vm_compute in Float.literal 10 10.
Definition Move_default (n : string) (p : Z) (t : PokemonType) : Move :=
  mkMove n p t f1_0.

Record Pokemon : Type := mkPokemon {
  name : string;
  pokemon_type : PokemonType;
  max_hp : Z;
  current_hp : Z;
  attack : Z;
  defense : Z;
  speed : Z;
  moves : list Move
}.

(** [Pokemon.__init__]: no argument is validated. *)
Definition Pokemon_init (n : string) (t : PokemonType) (hp atk dfn spd : Z)
    (ms : list Move) : Pokemon :=
  {| name := n; pokemon_type := t; max_hp := hp; current_hp := hp;
     attack := atk; defense := dfn; speed := spd; moves := ms |}.

Definition is_alive (p : Pokemon) : bool := 0 <? current_hp p.

Definition set_current_hp (p : Pokemon) (hp : Z) : Pokemon :=
  {| name := name p; pokemon_type := pokemon_type p; max_hp := max_hp p;
     current_hp := hp; attack := attack p; defense := defense p;
     speed := speed p; moves := moves p |}.

Definition take_damage (p : Pokemon) (damage : Z) : Pokemon :=
  set_current_hp p (Z.max 0 (current_hp p - damage)).

Definition heal (p : Pokemon) (amount : Z) : Pokemon :=
  set_current_hp p (Z.min (max_hp p) (current_hp p + amount)).

Definition f100 : spec_float := Eval vm_compute in Float.of_Z 100.

Definition get_hp_percentage (p : Pokemon) : result spec_float :=
  q <~ int_truediv (current_hp p) (max_hp p) ;;
  h <~ float_of_int 100 ;;
  Ok (Float.mul q h).

(** ** TypeEffectiveness *)

Definition f0_5 : spec_float := Eval vm_compute in Float.literal 5 10.
Definition f2_0 : spec_float := Eval vm_compute in Float.literal 20 10.
Definition f1_5 : spec_float := Eval vm_compute in Float.literal 15 10.

Definition CHART (attacking_type defending_type : PokemonType) : spec_float :=
  match attacking_type, defending_type with
  | FIRE, GRASS => f2_0
  | FIRE, WATER => f0_5
  | FIRE, FIRE => f0_5
  | FIRE, ELECTRIC => f1_0
  | FIRE, NORMAL => f1_0
  | WATER, FIRE => f2_0
  | WATER, GRASS => f0_5
  | WATER, WATER => f0_5
  | WATER, ELECTRIC => f1_0
  | WATER, NORMAL => f1_0
  | GRASS, WATER => f2_0
  | GRASS, FIRE => f0_5
  | GRASS, GRASS => f0_5
  | GRASS, ELECTRIC => f1_0
  | GRASS, NORMAL => f1_0
  | ELECTRIC, WATER => f2_0
  | ELECTRIC, GRASS => f0_5
  | ELECTRIC, FIRE => f1_0
  | ELECTRIC, ELECTRIC => f0_5
  | ELECTRIC, NORMAL => f1_0
  | NORMAL, _ => f1_0
  end.

Definition get_multiplier (attacking_type defending_type : PokemonType)
    : spec_float :=
  CHART attacking_type defending_type.

(** ** PokemonGUI.calculate_damage

    [roll] is the value of [random.random()], [variance] the value of
    [random.uniform(0.85, 1.0)]. *)

Definition calculate_damage (attacker defender : Pokemon) (move : Move)
    (roll variance : spec_float) : result Z :=
  if power move =? 0 then Ok 0
  else if Float.gtb roll (accuracy move) then Ok 0
  else
    c <~ int_truediv (2 * 50 + 10) 250 ;;
    r <~ int_truediv (attack attacker) (defense defender) ;;
    p <~ float_of_int (power move) ;;
    two <~ float_of_int 2 ;;
    let base_damage := Float.add (Float.mul (Float.mul c r) p) two in
    let type_multiplier :=
      get_multiplier (move_type move) (pokemon_type defender) in
    let random_factor := variance in
    let stab :=
      if decide (move_type move = pokemon_type attacker) then f1_5 else f1_0 in
    final_damage <~
      int_of_float
        (Float.mul
           (Float.mul (Float.mul base_damage type_multiplier) random_factor)
           stab) ;;
    Ok (Z.max 1 final_damage).

(** ** PokemonGUI: the game state

    [Pokemon] objects are mutable and passed by reference, so they live in a
    store; [player_pokemon] and [enemy_pokemon] hold references ([None] is
    Python's [None]).  Widgets are left out; what the rules read or write is
    kept: the two references, the two flags, the battle log and the callbacks
    registered with [root.after]. *)

Abbreviation loc := nat.

Inductive callback : Set := cb_ai_turn.

Record PokemonGUI : Type := mkGUI {
  heap : gmap nat Pokemon;
  player_pokemon : option loc;
  enemy_pokemon : option loc;
  battle_active : bool;
  player_turn : bool;
  battle_log : list string;
  scheduled : list (Z * callback)
}.

Definition set_heap (w : PokemonGUI) (h : gmap nat Pokemon) : PokemonGUI :=
  mkGUI h (player_pokemon w) (enemy_pokemon w) (battle_active w)
        (player_turn w) (battle_log w) (scheduled w).
Definition set_player_pokemon (w : PokemonGUI) (r : option loc) : PokemonGUI :=
  mkGUI (heap w) r (enemy_pokemon w) (battle_active w)
        (player_turn w) (battle_log w) (scheduled w).
Definition set_enemy_pokemon (w : PokemonGUI) (r : option loc) : PokemonGUI :=
  mkGUI (heap w) (player_pokemon w) r (battle_active w)
        (player_turn w) (battle_log w) (scheduled w).
Definition set_battle_active (w : PokemonGUI) (b : bool) : PokemonGUI :=
  mkGUI (heap w) (player_pokemon w) (enemy_pokemon w) b
        (player_turn w) (battle_log w) (scheduled w).
Definition set_player_turn (w : PokemonGUI) (b : bool) : PokemonGUI :=
  mkGUI (heap w) (player_pokemon w) (enemy_pokemon w) (battle_active w)
        b (battle_log w) (scheduled w).
Definition set_battle_log (w : PokemonGUI) (l : list string) : PokemonGUI :=
  mkGUI (heap w) (player_pokemon w) (enemy_pokemon w) (battle_active w)
        (player_turn w) l (scheduled w).
Definition set_scheduled (w : PokemonGUI) (l : list (Z * callback))
    : PokemonGUI :=
  mkGUI (heap w) (player_pokemon w) (enemy_pokemon w) (battle_active w)
        (player_turn w) (battle_log w) l.

(** A method of [PokemonGUI]: it returns or raises, and leaves a state behind
    in both cases. *)
Definition GUI (A : Type) : Type := PokemonGUI -> result A * PokemonGUI.

Definition ret {A} (a : A) : GUI A := fun w => (Ok a, w).
Definition raise {A} (e : exn) : GUI A := fun w => (Raise e, w).
Definition lift {A} (r : result A) : GUI A := fun w => (r, w).
Definition bind {A B} (m : GUI A) (k : A -> GUI B) : GUI B :=
  fun w =>
    match m w with
    | (Ok a, w') => k a w'
    | (Raise e, w') => (Raise e, w')
    end.
Definition get : GUI PokemonGUI := fun w => (Ok w, w).
Definition modify (f : PokemonGUI -> PokemonGUI) : GUI unit :=
  fun w => (Ok tt, f w).

Notation "x <- m ; k" := (bind m (fun x => k))
  (at level 100, m at next level, right associativity).
Notation "m ;; k" := (bind m (fun _ => k))
  (at level 100, right associativity).

(** Reading an object through a reference; an unbound location behaves like
    [None]. *)
Definition deref (l : loc) : GUI Pokemon :=
  fun w =>
    match heap w !! l with
    | Some p => (Ok p, w)
    | None => (Raise AttributeError, w)
    end.

Definition deref_opt (r : option loc) : GUI (loc * Pokemon) :=
  match r with
  | Some l => p <- deref l ; ret (l, p)
  | None => raise AttributeError
  end.

(** [Pokemon(...)]: a new object at a location not yet in use. *)
Definition alloc (p : Pokemon) : GUI loc :=
  fun w =>
    let l := fresh (dom (heap w)) in
    (Ok l, set_heap w (<[l := p]> (heap w))).

Definition store (l : loc) (p : Pokemon) : GUI unit :=
  modify (fun w => set_heap w (<[l := p]> (heap w))).

Definition log_message (message : string) : GUI unit :=
  modify (fun w => set_battle_log w (battle_log w ++ [message])).

Definition root_after (ms : Z) (cb : callback) : GUI unit :=
  modify (fun w => set_scheduled w (scheduled w ++ [(ms, cb)])).

(** [random.choice(seq)] is [seq[i]] for the index [i] the random source
    returns for [len(seq)]; an empty sequence raises [IndexError]. *)
Definition random_choice {A} (seq : list A) (i : nat) : result A :=
  match seq !! i with
  | Some x => Ok x
  | None => Raise IndexError
  end.

Definition f0_9 : spec_float := Eval vm_compute in Float.literal 9 10.
Definition f0_8 : spec_float := Eval vm_compute in Float.literal 8 10.
Definition f0_85 : spec_float := Eval vm_compute in Float.literal 85 100.
Definition f0_75 : spec_float := Eval vm_compute in Float.literal 75 100.

Definition moves_fire : list Move :=
  [ Move_default "Ember" 40 FIRE;
    mkMove "Flamethrower" 90 FIRE f0_9;
    Move_default "Tackle" 40 NORMAL;
    Move_default "Quick Attack" 30 NORMAL ].

Definition moves_water : list Move :=
  [ Move_default "Water Gun" 40 WATER;
    mkMove "Hydro Pump" 110 WATER f0_8;
    Move_default "Tackle" 40 NORMAL;
    Move_default "Bite" 60 NORMAL ].

Definition moves_grass : list Move :=
  [ Move_default "Vine Whip" 45 GRASS;
    mkMove "Solar Beam" 120 GRASS f0_85;
    Move_default "Tackle" 40 NORMAL;
    mkMove "Sleep Powder" 0 GRASS f0_75 ].

Definition moves_electric : list Move :=
  [ Move_default "Thunder Shock" 40 ELECTRIC;
    mkMove "Thunderbolt" 90 ELECTRIC f0_9;
    Move_default "Quick Attack" 30 NORMAL;
    mkMove "Thunder Wave" 0 ELECTRIC f0_9 ].

Definition moves_normal : list Move :=
  [ Move_default "Tackle" 40 NORMAL;
    mkMove "Hyper Beam" 150 NORMAL f0_9;
    Move_default "Quick Attack" 30 NORMAL;
    mkMove "Body Slam" 85 NORMAL f0_85 ].

Definition Charmander : Pokemon :=
  Pokemon_init "Charmander" FIRE 100 85 70 90 moves_fire.
Definition Squirtle : Pokemon :=
  Pokemon_init "Squirtle" WATER 110 75 85 70 moves_water.
Definition Bulbasaur : Pokemon :=
  Pokemon_init "Bulbasaur" GRASS 105 80 80 75 moves_grass.
Definition Pikachu : Pokemon :=
  Pokemon_init "Pikachu" ELECTRIC 90 90 60 110 moves_electric.
Definition Eevee : Pokemon :=
  Pokemon_init "Eevee" NORMAL 95 75 75 85 moves_normal.

Definition pokemon_roster : list Pokemon :=
  [Charmander; Squirtle; Bulbasaur; Pikachu; Eevee].

(** The initial state built by [PokemonGUI.__init__]. *)
Definition PokemonGUI_init : PokemonGUI :=
  mkGUI ∅ None None false true [] [].

(** [update_hp_display] only writes widgets, but computing the bar values
    divides by [max_hp] and may raise. *)
Definition update_hp_display : GUI unit :=
  w <- get ;
  (match player_pokemon w with
   | Some l => p <- deref l ; _ <- lift (get_hp_percentage p) ; ret tt
   | None => ret tt
   end) ;;
  match enemy_pokemon w with
  | Some l => p <- deref l ; _ <- lift (get_hp_percentage p) ; ret tt
  | None => ret tt
  end.

(** [update_move_buttons] writes the four move buttons; a fifth move indexes
    past them. *)
Definition update_move_buttons : GUI unit :=
  w <- get ;
  if negb (battle_active w) || negb (player_turn w) then ret tt
  else
    match player_pokemon w with
    | None => ret tt
    | Some l =>
        p <- deref l ;
        if (4 <? length (moves p))%nat then raise IndexError else ret tt
    end.

Definition select_pokemon (pokemon : Pokemon) : GUI unit :=
  l <- alloc (Pokemon_init (name pokemon) (pokemon_type pokemon)
                (max_hp pokemon) (attack pokemon) (defense pokemon)
                (speed pokemon) (moves pokemon)) ;
  modify (fun w => set_player_pokemon w (Some l)) ;;
  update_hp_display ;;
  p <- deref l ;
  log_message ("You selected " +:+ name p +:+ "!").

(** [enemy_pick] is the index drawn by [random.choice(self.pokemon_roster)]. *)
Definition start_battle (enemy_pick : nat) : GUI unit :=
  w <- get ;
  match player_pokemon w with
  | None => ret tt
  | Some lp =>
      enemy_template <- lift (random_choice pokemon_roster enemy_pick) ;
      le <- alloc (Pokemon_init (name enemy_template)
                     (pokemon_type enemy_template) (max_hp enemy_template)
                     (attack enemy_template) (defense enemy_template)
                     (speed enemy_template) (moves enemy_template)) ;
      modify (fun w => set_enemy_pokemon w (Some le)) ;;
      modify (fun w => set_battle_active w true) ;;
      p <- deref lp ;
      e <- deref le ;
      modify (fun w => set_player_turn w (speed e <=? speed p)) ;;
      update_hp_display ;;
      update_move_buttons ;;
      log_message ("Battle begins! " +:+ name p +:+ " vs " +:+ name e +:+ "!") ;;
      log_message ("Speed check: " +:+ name p +:+ " (" +:+ pretty (speed p)
                   +:+ ") vs " +:+ name e +:+ " (" +:+ pretty (speed e)
                   +:+ ")") ;;
      w <- get ;
      if player_turn w then log_message "You go first!"
      else (log_message "Enemy goes first!" ;; root_after 1500 cb_ai_turn)
  end.

(** [self.calculate_damage(attacker, defender, move)] on two references, each
    an object or [None]: the method reads no attribute of a combatant before
    its two early returns; past them it reads the attacker's attack, then the
    defender's defense. *)
Definition calculate_damage_of (attacker defender : option loc) (move : Move)
    (roll variance : spec_float) : GUI Z :=
  if power move =? 0 then ret 0
  else if Float.gtb roll (accuracy move) then ret 0
  else
    a <- deref_opt attacker ;
    d <- deref_opt defender ;
    lift (calculate_damage (snd a) (snd d) move roll variance).

(** [attacker] and [defender] are the values of [self.player_pokemon] and
    [self.enemy_pokemon] the callers pass: an attribute of [None] is read
    only where the source reads it, so a missing defender goes unnoticed when
    the move has no power or misses. *)
Definition execute_move (attacker defender : option loc) (move : Move)
    (is_player : bool) (roll variance : spec_float) : GUI unit :=
  damage <- calculate_damage_of attacker defender move roll variance ;
  a <- deref_opt attacker ;
  let attacker_name :=
    if is_player then name (snd a) else "Enemy " +:+ name (snd a) in
  if (damage =? 0) && (0 <? power move) then
    log_message (attacker_name +:+ " uses " +:+ move_name move +:+ "!") ;;
    log_message (move_name move +:+ " missed!")
  else if damage =? 0 then
    log_message (attacker_name +:+ " uses " +:+ move_name move +:+ "!") ;;
    log_message (move_name move +:+ " had no effect!")
  else
    d <- deref_opt defender ;
    store (fst d) (take_damage (snd d) damage) ;;
    d <- deref (fst d) ;
    let effectiveness := get_multiplier (move_type move) (pokemon_type d) in
    log_message (attacker_name +:+ " uses " +:+ move_name move +:+ "!") ;;
    log_message (name d +:+ " takes " +:+ pretty damage +:+ " damage!") ;;
    (if Float.gtb effectiveness f1_0 then log_message "It's super effective!"
     else if Float.ltb effectiveness f1_0
          then log_message "It's not very effective..."
          else ret tt) ;;
    update_hp_display.

(** [end_battle] logs the name after the four characters and the space the
    source's f-strings start with (strings are kept in their UTF-8
    encoding); the message box it then opens is not modelled. *)
Definition end_battle (player_won : bool) : GUI unit :=
  modify (fun w => set_battle_active w false) ;;
  w <- get ;
  lp <- deref_opt (player_pokemon w) ;
  if player_won
  then log_message ("ðŸŽ‰ " +:+ name (snd lp) +:+ " wins!")
  else log_message ("ðŸ’€ " +:+ name (snd lp) +:+ " fainted!").

Definition use_move (move : Move) (roll variance : spec_float) : GUI unit :=
  w <- get ;
  if negb (battle_active w) || negb (player_turn w) then ret tt
  else
    execute_move (player_pokemon w) (enemy_pokemon w) move true roll variance ;;
    w <- get ;
    e <- deref_opt (enemy_pokemon w) ;
    if negb (is_alive (snd e)) then end_battle true
    else
      modify (fun w => set_player_turn w false) ;;
      root_after 1500 cb_ai_turn.

(** The move-selection loop of [ai_turn]: one iteration, on the pair
    [(best_moves, best_effectiveness)]. *)
Definition ai_scan (player_type : PokemonType)
    (st : list Move * spec_float) (move : Move) : list Move * spec_float :=
  let '(best_moves, best_effectiveness) := st in
  if 0 <? power move then
    let effectiveness := get_multiplier (move_type move) player_type in
    if Float.gtb effectiveness best_effectiveness then ([move], effectiveness)
    else if Float.eqb effectiveness best_effectiveness
         then (best_moves ++ [move], best_effectiveness)
         else st
  else st.

Definition ai_best_moves (enemy_moves : list Move) (player_type : PokemonType)
    : list Move :=
  let best_moves :=
    fst (fold_left (ai_scan player_type) enemy_moves ([], Float.exact 0)) in
  match best_moves with
  | [] => filter (fun move => 0 < power move) enemy_moves
  | _ => best_moves
  end.

(** [pick] is the index drawn by the one [random.choice] that runs. *)
Definition ai_select_move (enemy_moves : list Move) (player_type : PokemonType)
    (pick : nat) : result Move :=
  match ai_best_moves enemy_moves player_type with
  | [] => random_choice enemy_moves pick
  | best_moves => random_choice best_moves pick
  end.

(** The loop reads [self.enemy_pokemon.moves] first, and
    [self.player_pokemon.type] at a move with power > 0 only: an enemy
    without such a move never reads the player, and selects among all its
    moves. *)
Definition ai_turn (pick : nat) (roll variance : spec_float) : GUI unit :=
  w <- get ;
  if negb (battle_active w) || player_turn w then ret tt
  else
    le <- deref_opt (enemy_pokemon w) ;
    selected_move <-
      (if existsb (fun move => 0 <? power move) (moves (snd le)) then
         lp <- deref_opt (player_pokemon w) ;
         lift (ai_select_move (moves (snd le)) (pokemon_type (snd lp)) pick)
       else lift (random_choice (moves (snd le)) pick)) ;
    execute_move (enemy_pokemon w) (player_pokemon w) selected_move false
      roll variance ;;
    w <- get ;
    p <- deref_opt (player_pokemon w) ;
    if negb (is_alive (snd p)) then end_battle false
    else
      modify (fun w => set_player_turn w true) ;;
      update_move_buttons.

Definition new_battle : GUI unit :=
  modify (fun w => set_player_pokemon w None) ;;
  modify (fun w => set_enemy_pokemon w None) ;;
  modify (fun w => set_battle_active w false) ;;
  modify (fun w => set_player_turn w true) ;;
  modify (fun w => set_battle_log w []) ;;
  log_message "Ready for a new battle!".

(** ** Definitions used in the statements *)

(** The float the code hands to [int()], written with the plain float
    operations: an overflow anywhere in it shows as a non-finite value. *)
Definition base_damage_of (attacker defender : Pokemon) (move : Move)
    : spec_float :=
  Float.add
    (Float.mul
       (Float.mul (Float.div (Float.exact (2 * 50 + 10)) (Float.exact 250))
          (Float.div (Float.exact (attack attacker))
             (Float.exact (defense defender))))
       (Float.of_Z (power move)))
    (Float.of_Z 2).

Definition stab_of (attacker : Pokemon) (move : Move) : spec_float :=
  if decide (move_type move = pokemon_type attacker) then f1_5 else f1_0.

Definition damage_product (attacker defender : Pokemon) (move : Move)
    (variance : spec_float) : spec_float :=
  Float.mul
    (Float.mul
       (Float.mul (base_damage_of attacker defender move)
          (get_multiplier (move_type move) (pokemon_type defender)))
       variance)
    (stab_of attacker move).


(** The health invariant of one combatant, and of every object in the
    store. *)
Definition hp_invariant (p : Pokemon) : Prop :=
  0 <= current_hp p /\ current_hp p <= max_hp p.

Definition heap_invariant (w : PokemonGUI) : Prop :=
  map_Forall (fun _ p => hp_invariant p) (heap w).

(** Two states of a battle between Charmander (the player, object 0) and
    Bulbasaur (the enemy, object 1): on the player's turn and on the
    enemy's. *)
Definition battle_world : PokemonGUI :=
  mkGUI (<[1%nat := Bulbasaur]> (<[0%nat := Charmander]> ∅))
        (Some 0%nat) (Some 1%nat) true true [] [].

Definition enemy_turn_world : PokemonGUI :=
  mkGUI (<[1%nat := Bulbasaur]> (<[0%nat := Charmander]> ∅))
        (Some 0%nat) (Some 1%nat) true false [] [].

(** ** Rounding to nearest: the relations used in the proofs *)

(** [q] is [x / N] rounded to the nearest integer, ties to even. *)
Definition rne_rel (N x q : Z) : Prop :=
  (2 * q * N - N <= 2 * x /\ 2 * x <= 2 * q * N + N) /\
  (2 * x = 2 * q * N + N -> Z.even q = true) /\
  (2 * x = 2 * q * N - N -> Z.even q = true).

(** What [n] steps of [shr_1] keep of [x]: the quotient, the next bit and
    whether anything is left below it. *)
Definition shr_inv (x n : Z) (mrs : shr_record) : Prop :=
  0 <= shr_m mrs /\
  exists t, 0 <= t < 2 ^ (n - 1) /\
    x = shr_m mrs * 2 ^ n + Z.b2z (shr_r mrs) * 2 ^ (n - 1) + t /\
    (shr_s mrs = true <-> t <> 0).

(** The number of bits a product mantissa [x] at exponent [e] loses. *)
Definition shift_of (x : positive) (e : Z) : Z :=
  Z.max 0 (fexp Float.prec Float.emax (Zpos (digits2_pos x) + e) - e).

(** ** The move-selection policy, as specified *)

(** The policy in the spec's words: among the moves with power > 0, those
    tied for the maximum multiplier against the opponent's type; all the
    known moves when no move has power > 0. *)
Definition damaging_moves (ms : list Move) : list Move :=
  filter (fun m => 0 < power m) ms.

Definition effectiveness_against (t : PokemonType) (m : Move) : spec_float :=
  get_multiplier (move_type m) t.

Definition tied_for_maximum (t : PokemonType) (ms : list Move) : list Move :=
  filter
    (fun m =>
       Forall (fun m' => Float.gtb (effectiveness_against t m')
                           (effectiveness_against t m) = false) ms)
    ms.

Definition spec_ai_candidates (ms : list Move) (t : PokemonType) : list Move :=
  match damaging_moves ms with
  | [] => ms
  | dm => tied_for_maximum t dm
  end.

(** Twice a chart multiplier, as an integer: 1, 2 or 4. *)
Definition mult_rank (x : spec_float) : Z := Float.trunc (Float.mul x f2_0).

Definition rank_of (t : PokemonType) (m : Move) : Z :=
  mult_rank (effectiveness_against t m).

(** The invariant of the selection loop after the moves [pre]. *)
Definition scan_good (t : PokemonType) (pre : list Move)
    (st : list Move * spec_float) : Prop :=
  (damaging_moves pre = [] /\ st = ([], Float.exact 0)) \/
  exists m0, m0 ∈ damaging_moves pre /\
    snd st = effectiveness_against t m0 /\
    fst st = filter (fun m => rank_of t m = rank_of t m0) (damaging_moves pre) /\
    forall m, m ∈ damaging_moves pre -> rank_of t m <= rank_of t m0.


(** ** Definitions used in the further properties *)

(** The object that [select_pokemon] and [start_battle] build from a
    template: [Pokemon(t.name, t.type, t.max_hp, t.attack, ...)]. *)
Definition copy_of (p : Pokemon) : Pokemon :=
  Pokemon_init (name p) (pokemon_type p) (max_hp p) (attack p) (defense p)
    (speed p) (moves p).

(** The references of a state are bound, the player and the enemy are two
    objects, and an active battle has both. *)
Definition well_formed (w : PokemonGUI) : Prop :=
  (forall l, player_pokemon w = Some l -> is_Some (heap w !! l)) /\
  (forall l, enemy_pokemon w = Some l -> is_Some (heap w !! l)) /\
  (forall l1 l2, player_pokemon w = Some l1 -> enemy_pokemon w = Some l2 ->
                 l1 <> l2) /\
  (battle_active w = true ->
   is_Some (player_pokemon w) /\ is_Some (enemy_pokemon w)).

(** [w'] has the references and the objects of [w], and no battle that [w]
    had not. *)
Definition same_objects (w w' : PokemonGUI) : Prop :=
  player_pokemon w' = player_pokemon w /\
  enemy_pokemon w' = enemy_pokemon w /\
  dom (heap w') = dom (heap w) /\
  (battle_active w' = true -> battle_active w = true).

(** A float that is zero or finite with a mantissa below [2^53] and an
    exponent of at most [B]: its magnitude is below [2^(53+B)]. *)
Definition small (B : Z) (x : spec_float) : Prop :=
  match x with
  | S754_zero _ => True
  | S754_finite _ m e => Zpos m < 2 ^ 53 /\ e <= B
  | _ => False
  end.

(** [random.uniform(0.85, 1.0)] returns a double between its bounds. *)
Definition uniform_range (v : spec_float) : Prop :=
  valid_binary Float.prec Float.emax v = true /\
  SFleb f0_85 v = true /\ SFleb v f1_0 = true.

(** An object made from a roster entry, at some health between 0 and the
    entry's maximum. *)
Definition roster_object (p : Pokemon) : Prop :=
  exists t, t ∈ pokemon_roster /\ p = set_current_hp t (current_hp p) /\
            0 <= current_hp p <= max_hp t.

Definition roster_stats (t : Pokemon) : Prop :=
  current_hp t = max_hp t /\ 0 < max_hp t /\ defense t <> 0 /\
  Z.abs (attack t) < 2 ^ 400 /\ length (moves t) = 4%nat /\
  Forall (fun m => Z.abs (power m) < 2 ^ 400) (moves t) /\
  forall ty, ai_best_moves (moves t) ty <> [].

Definition sane (w : PokemonGUI) : Prop :=
  well_formed w /\ map_Forall (fun _ p => roster_object p) (heap w).

(** What [update_hp_display] needs of the two combatants it shows. *)
Definition displayable (w : PokemonGUI) : Prop :=
  forall l, player_pokemon w = Some l \/ enemy_pokemon w = Some l ->
            exists p, heap w !! l = Some p /\ hp_invariant p /\ max_hp p <> 0.

(** The states of the window: the initial one, and the state any callback
    leaves behind, whether it returned or raised (Tk reports an exception of
    a callback and goes on).  The roster buttons call [select_pokemon] on the
    roster entries ([setup_control_area]), the start and the new-battle
    buttons call [start_battle] and [new_battle], a move button calls
    [use_move], the timer calls [ai_turn].  Which buttons are enabled is not
    modelled: every callback may come in every state, with any draw. *)
Inductive reachable : PokemonGUI -> Prop :=
| reach_init : reachable PokemonGUI_init
| reach_select w p :
    reachable w -> p ∈ pokemon_roster ->
    reachable (snd (select_pokemon p w))
| reach_start w enemy_pick :
    reachable w -> reachable (snd (start_battle enemy_pick w))
| reach_use_move w move roll variance :
    reachable w -> reachable (snd (use_move move roll variance w))
| reach_ai_turn w pick roll variance :
    reachable w -> reachable (snd (ai_turn pick roll variance w))
| reach_new_battle w :
    reachable w -> reachable (snd (new_battle w)).

(** The battle the player reaches by choosing Charmander and drawing
    Bulbasaur as the enemy. *)
Definition started_battle : PokemonGUI :=
  snd (start_battle 2 (snd (select_pokemon Charmander PokemonGUI_init))).

(** The battle of a player who chose Bulbasaur against Charmander, which is
    faster and moves first. *)
Definition enemy_first_battle : PokemonGUI :=
  snd (start_battle 0 (snd (select_pokemon Bulbasaur PokemonGUI_init))).


(** ** The damage formula, as specified *)

(** The rational number a float stands for (0 for an infinity or NaN). *)
Definition float_value (x : spec_float) : Q :=
  match x with
  | S754_finite s m e => (inject_Z (cond_Zopp s (Zpos m)) * 2 ^ e)%Q
  | _ => 0%Q
  end.

(** One unit in the last place of a double, relative to its value, and the
    spacing of the subnormal doubles. *)
Definition ulp_rel : Q := (2 ^ (-52))%Q.
Definition eta : Q := (2 ^ (-1074))%Q.

(** [y] is [x] up to one rounding. *)
Definition approx (y x : Q) : Prop :=
  (Qabs (y - x) <= ulp_rel * Qabs x + eta)%Q.

(** [y] is within [d] of [x], and [x] is at most [B] in absolute value. *)
Definition near (d B y x : Q) : Prop :=
  (Qabs (y - x) <= d /\ Qabs x <= B)%Q.

(** The damage formula as the specification states it, in exact arithmetic:
    the floor of base * stab * effectiveness * variance, clamped below at 1,
    with the variance the value of the double drawn. *)
Definition claimed_base (attacker defender : Pokemon) (move : Move) : Q :=
  (inject_Z (2 * 50 + 10) / inject_Z 250
   * (inject_Z (attack attacker) / inject_Z (defense defender))
   * inject_Z (power move) + 2)%Q.

Definition claimed_stab (attacker : Pokemon) (move : Move) : Q :=
  if decide (move_type move = pokemon_type attacker) then 3 # 2 else 1.

Definition claimed_product (attacker defender : Pokemon) (move : Move)
    (variance : spec_float) : Q :=
  (claimed_base attacker defender move * claimed_stab attacker move
   * float_value (get_multiplier (move_type move) (pokemon_type defender))
   * float_value variance)%Q.

Definition claimed_damage (attacker defender : Pokemon) (move : Move)
    (variance : spec_float) : Z :=
  Z.max 1 (Qfloor (claimed_product attacker defender move variance)).

(** The same formula with the code's float operations taken in the stated
    order: base * stab * effectiveness * variance. *)
Definition claimed_product_binary64 (attacker defender : Pokemon)
    (move : Move) (variance : spec_float) : spec_float :=
  Float.mul
    (Float.mul
       (Float.mul (base_damage_of attacker defender move)
          (stab_of attacker move))
       (get_multiplier (move_type move) (pokemon_type defender)))
    variance.

Definition claimed_damage_binary64 (attacker defender : Pokemon)
    (move : Move) (variance : spec_float) : Z :=
  Z.max 1 (Float.floor (claimed_product_binary64 attacker defender move
                          variance)).

(** A closed inequality between rationals, by computation. *)
Ltac qle := apply Qle_bool_imp_le; vm_compute; reflexivity.
(** * Properties *)

(** ** Floats: classification, truncation and floor *)

Lemma mul_finite_inv (x y : spec_float) :
  Float.is_finite (Float.mul x y) = true ->
  Float.is_finite x = true /\ Float.is_finite y = true.
Proof. destruct x as [| | |sx mx ex], y as [| | |sy my ey]; simpl; auto. Qed.

Lemma add_finite_inv (x y : spec_float) :
  Float.is_finite (Float.add x y) = true ->
  Float.is_finite x = true /\ Float.is_finite y = true.
Proof.
  destruct x as [sx|sx| |sx mx ex], y as [sy|sy| |sy my ey]; simpl; auto;
    destruct sx, sy; simpl; auto.
Qed.

Lemma int_of_float_finite (x : spec_float) :
  Float.is_finite x = true -> int_of_float x = Ok (Float.trunc x).
Proof. destruct x; simpl; congruence. Qed.

Lemma int_of_float_Ok (x : spec_float) (n : Z) :
  int_of_float x = Ok n -> Float.is_finite x = true /\ n = Float.trunc x.
Proof. destruct x; simpl; intros H; inversion H; auto. Qed.

(** [floor] is the integer part of [m * 2^e] rounded down. *)
Lemma floor_spec (s : bool) (m : positive) (e : Z) :
  Float.floor (S754_finite s m e) =
  if 0 <=? e then cond_Zopp s (Zpos m) * 2 ^ e
  else cond_Zopp s (Zpos m) / 2 ^ (- e).
Proof.
  unfold Float.floor. destruct (Z.leb_spec 0 e) as [He|He].
  - now rewrite Z.shiftl_mul_pow2.
  - rewrite <- Z.shiftr_opp_r. now rewrite Z.shiftr_div_pow2 by lia.
Qed.

Lemma trunc_pos_nonneg (m : positive) (e : Z) : 0 <= Z.shiftl (Zpos m) e.
Proof. apply Z.shiftl_nonneg. lia. Qed.

Lemma floor_neg_nonpos (m : positive) (e : Z) : Z.shiftl (Zneg m) e <= 0.
Proof.
  destruct (Z.le_gt_cases 0 (Z.shiftl (Zneg m) e)) as [H|H]; [|lia].
  apply Z.shiftl_nonneg in H. lia.
Qed.

(** Below the clamp, rounding towards zero and rounding down agree. *)
Lemma max_trunc_floor (x : spec_float) :
  Z.max 1 (Float.trunc x) = Z.max 1 (Float.floor x).
Proof.
  destruct x as [| | |[] m e]; try reflexivity.
  unfold Float.trunc, Float.floor, cond_Zopp.
  change (- Z.pos m) with (Z.neg m).
  pose proof (trunc_pos_nonneg m e). pose proof (floor_neg_nonpos m e). lia.
Qed.

(** ** calculate_damage *)

Lemma const_110_250 :
  int_truediv (2 * 50 + 10) 250 = Ok (Float.literal 110 250).
Proof. vm_compute. reflexivity. Qed.

Lemma float_of_int_2 : float_of_int 2 = Ok (Float.of_Z 2).
Proof. vm_compute. reflexivity. Qed.

(** Every way [calculate_damage] can end, one case per line of the source. *)
Lemma calculate_damage_cases (a d : Pokemon) (m : Move)
    (roll v : spec_float) :
  calculate_damage a d m roll v =
  if power m =? 0 then Ok 0
  else if Float.gtb roll (accuracy m) then Ok 0
  else if defense d =? 0 then Raise ZeroDivisionError
  else if negb (Float.is_finite
                  (Float.div (Float.exact (attack a))
                     (Float.exact (defense d))))
       then Raise OverflowError
  else if negb (Float.is_finite (Float.of_Z (power m)))
       then Raise OverflowError
  else
    final_damage <~ int_of_float (damage_product a d m v) ;;
    Ok (Z.max 1 final_damage).
Proof.
  unfold calculate_damage.
  destruct (power m =? 0); [reflexivity|].
  destruct (Float.gtb roll (accuracy m)); [reflexivity|].
  rewrite const_110_250. cbn [rbind].
  unfold int_truediv at 1.
  destruct (defense d =? 0); [reflexivity|].
  destruct (Float.is_finite (Float.div _ _)); cbn [negb rbind]; [|reflexivity].
  unfold float_of_int at 1.
  destruct (Float.is_finite (Float.of_Z (power m))); cbn [negb rbind];
    [|reflexivity].
  rewrite float_of_int_2. cbn [rbind]. reflexivity.
Qed.

(** A returned damage is either 0 (no hit) or at least 1. *)
Lemma calculate_damage_range (a d : Pokemon) (m : Move)
    (roll v : spec_float) (damage : Z) :
  calculate_damage a d m roll v = Ok damage -> damage = 0 \/ 1 <= damage.
Proof.
  rewrite calculate_damage_cases.
  destruct (power m =? 0); [intros [= <-]; auto|].
  destruct (Float.gtb roll (accuracy m)); [intros [= <-]; auto|].
  destruct (defense d =? 0); [discriminate|].
  destruct (negb (Float.is_finite (Float.div _ _))); [discriminate|].
  destruct (negb (Float.is_finite (Float.of_Z _))); [discriminate|].
  destruct (int_of_float _); cbn [rbind]; [|discriminate].
  intros [= <-]. lia.
Qed.

(** On a hit of a move with power, the result is the float product the
    code forms, in the order of the code, rounded down and clamped
    below at 1; it is returned whenever the defense is not 0 and the product
    is a finite float. *)
Lemma calculate_damage_as_product (a d : Pokemon) (m : Move)
    (roll v : spec_float) :
  0 < power m ->
  Float.gtb roll (accuracy m) = false ->
  defense d <> 0 ->
  Float.is_finite (damage_product a d m v) = true ->
  calculate_damage a d m roll v =
  Ok (Z.max 1 (Float.floor (damage_product a d m v))).
Proof.
  intros Hp Hroll Hd Hfin. rewrite calculate_damage_cases.
  assert ((power m =? 0) = false) as -> by lia.
  rewrite Hroll.
  assert ((defense d =? 0) = false) as -> by lia.
  pose proof Hfin as Hfin'. unfold damage_product in Hfin'.
  apply mul_finite_inv in Hfin' as [Hfin' _].
  apply mul_finite_inv in Hfin' as [Hfin' _].
  apply mul_finite_inv in Hfin' as [Hfin' _].
  unfold base_damage_of in Hfin'.
  apply add_finite_inv in Hfin' as [Hfin' _].
  apply mul_finite_inv in Hfin' as [Hfin' Hpow].
  apply mul_finite_inv in Hfin' as [_ Hquot].
  rewrite Hquot, Hpow. cbn [negb].
  rewrite (int_of_float_finite _ Hfin). cbn [rbind].
  now rewrite max_trunc_floor.
Qed.

(** The same product on the roster: Flamethrower from Charmander on
    Bulbasaur at the lowest variance. *)
Example flamethrower_on_bulbasaur :
  calculate_damage Charmander Bulbasaur (mkMove "Flamethrower" 90 FIRE f0_9)
    (Float.exact 0) f0_85 = Ok 112.
Proof. vm_compute. reflexivity. Qed.

(** C4 (as stated, refuted): with the variance fixed at 1.0 the Fire move of
    power 90, attack 85 against defense 70, does not deal 168 to a Grass
    defender nor 42 to a Water defender: the code returns 150 and 37
    (2*50 + 10 is 110, not 120). *)
Lemma fire_on_grass_is_not_168 :
  calculate_damage
    (Pokemon_init "Charmander" FIRE 100 85 70 90 moves_fire)
    (Pokemon_init "Defender" GRASS 100 80 70 75 moves_grass)
    (mkMove "Flamethrower" 90 FIRE f0_9) (Float.exact 0) f1_0 = Ok 150
  /\ calculate_damage
    (Pokemon_init "Charmander" FIRE 100 85 70 90 moves_fire)
    (Pokemon_init "Defender" GRASS 100 80 70 75 moves_grass)
    (mkMove "Flamethrower" 90 FIRE f0_9) (Float.exact 0) f1_0 <> Ok 168
  /\ calculate_damage
    (Pokemon_init "Charmander" FIRE 100 85 70 90 moves_fire)
    (Pokemon_init "Defender" WATER 100 80 70 75 moves_water)
    (mkMove "Flamethrower" 90 FIRE f0_9) (Float.exact 0) f1_0 <> Ok 42.
Proof. repeat split; vm_compute; try reflexivity; discriminate. Qed.

(** C4 (amended). With the variance fixed at 1.0 and the accuracy roll
    succeeding, a Fire move of power 90 from a Fire attacker with attack 85
    on a defender with defense 70 deals exactly 150 to a Grass defender and
    exactly 37 to a Water defender. *)
Theorem fire_move_examples (a d : Pokemon) (m : Move) (roll : spec_float) :
  pokemon_type a = FIRE -> attack a = 85 -> defense d = 70 ->
  move_type m = FIRE -> power m = 90 ->
  Float.gtb roll (accuracy m) = false ->
  pokemon_type d = GRASS \/ pokemon_type d = WATER ->
  calculate_damage a d m roll f1_0 =
  Ok (if decide (pokemon_type d = GRASS) then 150 else 37).
Proof.
  intros Hta Ha Hd Htm Hp Hroll Htd.
  rewrite calculate_damage_cases.
  unfold damage_product, base_damage_of, stab_of.
  rewrite Hta, Ha, Hd, Htm, Hp, Hroll.
  destruct Htd as [-> | ->]; vm_compute; reflexivity.
Qed.

Lemma fire_move_examples_witness :
  calculate_damage Charmander
    (Pokemon_init "Squirtle" WATER 110 75 70 70 moves_water)
    (mkMove "Flamethrower" 90 FIRE f0_9) (Float.exact 0) f1_0 = Ok 37.
Proof.
  apply (fire_move_examples Charmander
           (Pokemon_init "Squirtle" WATER 110 75 70 70 moves_water)
           (mkMove "Flamethrower" 90 FIRE f0_9) (Float.exact 0));
    try reflexivity.
  right. reflexivity.
Defined.

(** C5 (as stated, refuted): a defender with defense 0 is accepted by the
    constructor and the division in the damage formula raises. *)
Lemma defense_zero_divides_by_zero :
  defense (Pokemon_init "Target" NORMAL 100 50 0 50 moves_normal) = 0
  /\ calculate_damage Charmander
       (Pokemon_init "Target" NORMAL 100 50 0 50 moves_normal)
       (Move_default "Tackle" 40 NORMAL) (Float.exact 0) f1_0
     = Raise ZeroDivisionError.
Proof. split; vm_compute; reflexivity. Qed.

(** C5 (amended). The constructor keeps the defense it is given, 0 included,
    and damage resolution fails with a division by zero exactly when the move
    has non-zero power, the accuracy roll succeeds and the defender's defense
    is 0; with any other defense it never does. *)
Theorem division_by_zero_iff (a d : Pokemon) (m : Move)
    (roll v : spec_float) (n : string) (t : PokemonType)
    (hp atk dfn spd : Z) (ms : list Move) :
  defense (Pokemon_init n t hp atk dfn spd ms) = dfn /\
  (calculate_damage a d m roll v = Raise ZeroDivisionError <->
   power m <> 0 /\ Float.gtb roll (accuracy m) = false /\ defense d = 0).
Proof.
  split; [reflexivity|].
  rewrite calculate_damage_cases.
  destruct (Z.eqb_spec (power m) 0) as [Hp|Hp].
  { split; [discriminate | tauto]. }
  destruct (Float.gtb roll (accuracy m)).
  { split; [discriminate | intros (_ & ? & _); discriminate]. }
  destruct (Z.eqb_spec (defense d) 0) as [Hd|Hd].
  { split; auto. }
  split; [|tauto].
  repeat (case_match; try discriminate).
  destruct (int_of_float _) as [?|[]] eqn:E; cbn [rbind]; try discriminate.
  destruct (damage_product a d m v); discriminate.
Qed.

(** ** The methods of PokemonGUI: what they leave behind *)

(** The two display methods never change the state, whether they return or
    raise. *)
Lemma update_hp_display_state (w : PokemonGUI) :
  snd (update_hp_display w) = w.
Proof.
  unfold update_hp_display, bind, get, deref, lift, ret.
  repeat (case_match; simplify_eq/=; try done).
Qed.

Lemma update_move_buttons_state (w : PokemonGUI) :
  snd (update_move_buttons w) = w.
Proof.
  unfold update_move_buttons, bind, get, deref, lift, ret, raise.
  repeat (case_match; simplify_eq/=; try done).
Qed.

(** [execute_move] on two objects: both are there to be read, and the call
    is the resolution of the damage followed by its report. *)
Lemma execute_move_bound (att def : loc) (m : Move) (isp : bool)
    (roll v : spec_float) (w : PokemonGUI) (a d : Pokemon) :
  heap w !! att = Some a -> heap w !! def = Some d ->
  execute_move (Some att) (Some def) m isp roll v w =
  (damage <- lift (calculate_damage a d m roll v) ;
   let attacker_name := if isp then name a else "Enemy " +:+ name a in
   if (damage =? 0) && (0 <? power m) then
     log_message (attacker_name +:+ " uses " +:+ move_name m +:+ "!") ;;
     log_message (move_name m +:+ " missed!")
   else if damage =? 0 then
     log_message (attacker_name +:+ " uses " +:+ move_name m +:+ "!") ;;
     log_message (move_name m +:+ " had no effect!")
   else
     store def (take_damage d damage) ;;
     d <- deref def ;
     let effectiveness := get_multiplier (move_type m) (pokemon_type d) in
     log_message (attacker_name +:+ " uses " +:+ move_name m +:+ "!") ;;
     log_message (name d +:+ " takes " +:+ pretty damage +:+ " damage!") ;;
     (if Float.gtb effectiveness f1_0 then log_message "It's super effective!"
      else if Float.ltb effectiveness f1_0
           then log_message "It's not very effective..."
           else ret tt) ;;
     update_hp_display) w.
Proof.
  intros Ha Hd.
  unfold execute_move, calculate_damage_of.
  assert (forall k : Z -> GUI unit,
            bind (if power m =? 0 then ret 0
                  else if Float.gtb roll (accuracy m) then ret 0
                  else a0 <- deref_opt (Some att) ;
                       d0 <- deref_opt (Some def) ;
                       lift (calculate_damage (snd a0) (snd d0) m roll v)) k w
            = bind (lift (calculate_damage a d m roll v)) k w) as ->.
  { intros k. destruct (power m =? 0) eqn:Hp0.
    { unfold calculate_damage. rewrite Hp0. reflexivity. }
    destruct (Float.gtb roll (accuracy m)) eqn:Hr.
    { unfold calculate_damage. rewrite Hp0, Hr. reflexivity. }
    unfold deref_opt, bind, deref, ret, lift. rewrite Ha. cbn beta iota.
    rewrite Hd. reflexivity. }
  cbv beta iota delta [bind lift deref_opt ret fst snd].
  destruct (calculate_damage a d m roll v) as [damage|e]; [|reflexivity].
  unfold deref at 1. rewrite Ha. cbv beta iota.
  destruct ((damage =? 0) && (0 <? power m)); [reflexivity|].
  destruct (damage =? 0); [reflexivity|].
  unfold deref at 1. rewrite Hd. reflexivity.
Qed.

(** A call that reads [None], or a reference to no object, where it needs a
    combatant raises AttributeError; whatever it logged before, it changed no
    object. *)
Lemma execute_move_unbound (attacker defender : option loc) (m : Move)
    (isp : bool) (roll v : spec_float) (w : PokemonGUI) :
  (forall att def a d,
     attacker = Some att -> defender = Some def ->
     heap w !! att = Some a -> heap w !! def = Some d -> False) ->
  let w' := snd (execute_move attacker defender m isp roll v w) in
  player_pokemon w' = player_pokemon w /\ enemy_pokemon w' = enemy_pokemon w /\
  battle_active w' = battle_active w /\ player_turn w' = player_turn w /\
  scheduled w' = scheduled w /\ heap w' = heap w.
Proof.
  intros Hno. cbv zeta. unfold execute_move, calculate_damage_of.
  cbv beta iota delta [bind lift deref_opt deref ret fst snd].
  destruct attacker as [att|], defender as [def|];
    try (destruct (heap w !! att) as [a|] eqn:Ha);
    try (destruct (heap w !! def) as [d|] eqn:Hd);
    try (exfalso; eapply Hno; eauto; fail);
    (destruct (power m =? 0); [|destruct (Float.gtb roll (accuracy m))]);
    cbn [Z.eqb andb]; try (destruct (0 <? power m));
    cbn; rewrite ?Ha, ?Hd; cbn; auto 10.
Qed.

(** The whole effect of [execute_move] on the state: the references, the
    flags and the callbacks stay; the store is either untouched or the
    defender took a damage of at least 1.  This holds when the call raises,
    too. *)
Lemma execute_move_effect (attacker defender : option loc) (m : Move)
    (isp : bool) (roll v : spec_float) (w : PokemonGUI) :
  let w' := snd (execute_move attacker defender m isp roll v w) in
  (player_pokemon w' = player_pokemon w /\ enemy_pokemon w' = enemy_pokemon w /\
   battle_active w' = battle_active w /\ player_turn w' = player_turn w /\
   scheduled w' = scheduled w) /\
  (heap w' = heap w \/
   exists att def a d damage,
     attacker = Some att /\ defender = Some def /\
     heap w !! att = Some a /\ heap w !! def = Some d /\
     calculate_damage a d m roll v = Ok damage /\ 1 <= damage /\
     heap w' = <[def := take_damage d damage]> (heap w)).
Proof.
  assert ((forall att def a d,
             attacker = Some att -> defender = Some def ->
             heap w !! att = Some a -> heap w !! def = Some d -> False) ->
          let w' := snd (execute_move attacker defender m isp roll v w) in
          (player_pokemon w' = player_pokemon w /\
           enemy_pokemon w' = enemy_pokemon w /\
           battle_active w' = battle_active w /\
           player_turn w' = player_turn w /\ scheduled w' = scheduled w) /\
          (heap w' = heap w \/
           exists att def a d damage,
             attacker = Some att /\ defender = Some def /\
             heap w !! att = Some a /\ heap w !! def = Some d /\
             calculate_damage a d m roll v = Ok damage /\ 1 <= damage /\
             heap w' = <[def := take_damage d damage]> (heap w))) as Hnone.
  { intros Hno.
    destruct (execute_move_unbound attacker defender m isp roll v w Hno)
      as (? & ? & ? & ? & ? & ?).
    cbv zeta. auto 10. }
  destruct attacker as [att|]; [|apply Hnone; intros; discriminate].
  destruct defender as [def|]; [|apply Hnone; intros; discriminate].
  destruct (heap w !! att) as [a|] eqn:Ha;
    [|apply Hnone; intros ? ? ? ? [= <-] [= <-]; congruence].
  destruct (heap w !! def) as [d|] eqn:Hd;
    [|apply Hnone; intros ? ? ? ? [= <-] [= <-]; congruence].
  clear Hnone. cbv zeta.
  rewrite (execute_move_bound att def m isp roll v w a d Ha Hd).
  unfold bind, lift.
  destruct (calculate_damage a d m roll v) as [damage|e] eqn:Hc; [|simpl; auto 10].
  destruct (calculate_damage_range _ _ _ _ _ _ Hc) as [->|Hpos].
  { simpl. destruct (0 <? power m); simpl; auto 10. }
  assert ((damage =? 0) = false) as Hz by lia. rewrite Hz. cbn [andb].
  unfold store, modify. cbn [heap set_heap].
  unfold deref. cbn [heap set_heap].
  rewrite lookup_insert_eq.
  unfold log_message, modify, ret.
  destruct (Float.gtb _ _); [|destruct (Float.ltb _ _)]; cbn beta iota;
    match goal with
    | |- context [update_hp_display ?w0] =>
        pose proof (update_hp_display_state w0) as Hu;
        destruct (update_hp_display w0) as [r w3]; cbn in Hu |- *; subst w3
    end;
    (split; [auto 10|right; exists att, def, a, d, damage; auto 10]).
Qed.

Lemma take_damage_invariant (p : Pokemon) (damage : Z) :
  0 <= damage -> hp_invariant p -> hp_invariant (take_damage p damage).
Proof. unfold hp_invariant, take_damage. simpl. lia. Qed.

Lemma heal_invariant (p : Pokemon) (amount : Z) :
  0 <= amount -> hp_invariant p -> hp_invariant (heal p amount).
Proof. unfold hp_invariant, heal. simpl. lia. Qed.

(** C2. [take_damage] never leaves the health below 0, [heal] never leaves it
    above the maximum, and [execute_move] keeps 0 <= current_hp <= max_hp for
    every combatant for which it held before the call, whether the call
    returns or raises. *)
Theorem health_invariant (attacker defender : option loc) (m : Move)
    (isp : bool) (roll v : spec_float) (w : PokemonGUI) (p : Pokemon)
    (damage amount : Z) :
  heap_invariant w ->
  0 <= current_hp (take_damage p damage) /\
  current_hp (heal p amount) <= max_hp (heal p amount) /\
  heap_invariant (snd (execute_move attacker defender m isp roll v w)).
Proof.
  intros Hw. split; [simpl; lia|]. split; [simpl; lia|].
  unfold heap_invariant in *.
  destruct (execute_move_effect attacker defender m isp roll v w)
    as [_ [->|H]]; [exact Hw|].
  destruct H as (att & def & a & d & dmg & _ & _ & _ & Hd & _ & Hpos & ->).
  apply map_Forall_insert_2; [|exact Hw].
  apply take_damage_invariant; [lia|]. exact (Hw _ _ Hd).
Qed.

Lemma battle_world_invariant : heap_invariant battle_world.
Proof.
  unfold heap_invariant, battle_world. cbn [heap].
  apply map_Forall_insert_2; [vm_compute; split; discriminate|].
  apply map_Forall_insert_2; [vm_compute; split; discriminate|].
  apply map_Forall_empty.
Qed.

Lemma health_invariant_witness :
  heap_invariant
    (snd (execute_move (Some 0%nat) (Some 1%nat)
            (mkMove "Flamethrower" 90 FIRE f0_9) true (Float.exact 0) f1_0
            battle_world)).
Proof.
  apply (health_invariant (Some 0%nat) (Some 1%nat)
           (mkMove "Flamethrower" 90 FIRE f0_9) true (Float.exact 0) f1_0
           battle_world Charmander 0 0).
  apply battle_world_invariant.
Defined.

(** C3. When the move has power 0 (whatever the roll and the accuracy), or
    the accuracy roll fails (the draw is greater than the accuracy), the
    damage is 0, [execute_move] returns normally and no combatant is
    changed: the store is the same, the defender's health included. *)
Theorem no_damage_no_mutation (att def : loc) (m : Move) (isp : bool)
    (roll v : spec_float) (w : PokemonGUI) (a d : Pokemon) :
  heap w !! att = Some a -> heap w !! def = Some d ->
  power m = 0 \/ Float.gtb roll (accuracy m) = true ->
  calculate_damage a d m roll v = Ok 0 /\
  fst (execute_move (Some att) (Some def) m isp roll v w) = Ok tt /\
  heap (snd (execute_move (Some att) (Some def) m isp roll v w)) = heap w /\
  heap (snd (execute_move (Some att) (Some def) m isp roll v w)) !! def
  = Some d.
Proof.
  intros Ha Hd Hno.
  assert (calculate_damage a d m roll v = Ok 0) as Hc.
  { unfold calculate_damage. destruct Hno as [-> | ->]; [reflexivity|].
    destruct (power m =? 0); reflexivity. }
  split; [exact Hc|].
  rewrite (execute_move_bound att def m isp roll v w a d Ha Hd).
  unfold bind, lift. rewrite Hc. cbn [Z.eqb andb].
  destruct (0 <? power m); cbn; auto.
Qed.

Lemma no_damage_no_mutation_witness :
  heap (snd (execute_move (Some 1%nat) (Some 0%nat)
               (mkMove "Sleep Powder" 0 GRASS f0_75) false f1_0 f1_0
               battle_world)) = heap battle_world.
Proof.
  apply (no_damage_no_mutation 1%nat 0%nat
           (mkMove "Sleep Powder" 0 GRASS f0_75) false f1_0 f1_0 battle_world
           Bulbasaur Charmander); [reflexivity | reflexivity |].
  left. reflexivity.
Defined.

(** C10 (as stated, refuted): nothing keeps the two arguments apart, and when
    they are the same object the attacker is the one hit: its current health
    changes. *)
Lemma execute_move_on_itself :
  heap battle_world !! 0%nat = Some Charmander /\
  current_hp Charmander = 100 /\
  current_hp <$>
    heap (snd (execute_move (Some 0%nat) (Some 0%nat)
                 (Move_default "Tackle" 40 NORMAL) true (Float.exact 0) f1_0
                 battle_world)) !! 0%nat = Some 77 /\
  ~ (forall (att def : loc) (m : Move) (isp : bool) (roll v : spec_float)
            (w : PokemonGUI) (a : Pokemon),
       heap w !! att = Some a ->
       heap (snd (execute_move (Some att) (Some def) m isp roll v w)) !! att
       = Some a).
Proof.
  split; [reflexivity|]. split; [reflexivity|].
  assert (current_hp <$>
            heap (snd (execute_move (Some 0%nat) (Some 0%nat)
                         (Move_default "Tackle" 40 NORMAL) true (Float.exact 0)
                         f1_0 battle_world)) !! 0%nat = Some 77) as Hhit
    by (vm_compute; reflexivity).
  split; [exact Hhit|].
  intros H.
  rewrite (H 0%nat 0%nat (Move_default "Tackle" 40 NORMAL) true (Float.exact 0)
             f1_0 battle_world Charmander eq_refl) in Hhit.
  discriminate Hhit.
Qed.

(** C10 (amended). [execute_move] on two distinct combatants leaves the
    attacker as it was, changes nothing of the defender but possibly its
    current_hp, and leaves every other object alone. *)
Theorem execute_move_frame (att def : loc) (m : Move) (isp : bool)
    (roll v : spec_float) (w : PokemonGUI) (a d : Pokemon) :
  att <> def -> heap w !! att = Some a -> heap w !! def = Some d ->
  heap (snd (execute_move (Some att) (Some def) m isp roll v w)) !! att
  = Some a /\
  (exists d',
     heap (snd (execute_move (Some att) (Some def) m isp roll v w)) !! def
     = Some d'
     /\ name d' = name d /\ pokemon_type d' = pokemon_type d
     /\ max_hp d' = max_hp d /\ attack d' = attack d
     /\ defense d' = defense d /\ speed d' = speed d /\ moves d' = moves d) /\
  (forall l, l <> def ->
     heap (snd (execute_move (Some att) (Some def) m isp roll v w)) !! l
     = heap w !! l).
Proof.
  intros Hne Ha Hd.
  destruct (execute_move_effect (Some att) (Some def) m isp roll v w)
    as [_ [->|H]].
  { split; [exact Ha|]. split; [exists d; auto 10|]. auto. }
  destruct H as (att' & def' & a' & d0 & dmg & [= <-] & [= <-] & _ & Hd' & _
                 & _ & ->).
  assert (d0 = d) as -> by congruence.
  split; [rewrite lookup_insert_ne by congruence; exact Ha|].
  split.
  - exists (take_damage d dmg). rewrite lookup_insert_eq. auto 10.
  - intros l Hl. apply lookup_insert_ne. congruence.
Qed.

Lemma execute_move_frame_witness :
  heap (snd (execute_move (Some 0%nat) (Some 1%nat)
               (mkMove "Flamethrower" 90 FIRE f0_9) true (Float.exact 0) f1_0
               battle_world)) !! 0%nat = Some Charmander.
Proof.
  assert (0%nat <> 1%nat) as Hne by discriminate.
  exact (proj1 (execute_move_frame 0%nat 1%nat
                  (mkMove "Flamethrower" 90 FIRE f0_9) true (Float.exact 0)
                  f1_0 battle_world Charmander Bulbasaur Hne eq_refl eq_refl)).
Defined.

(** C6 (as stated, refuted): a move used out of turn, or with no battle
    running, is not signaled: the call returns normally, with the same
    state, like any other call. *)
Lemma use_move_out_of_turn_is_silent :
  player_turn enemy_turn_world = false /\
  use_move (Move_default "Tackle" 40 NORMAL) (Float.exact 0) f1_0
    enemy_turn_world = (Ok tt, enemy_turn_world) /\
  battle_active PokemonGUI_init = false /\
  ai_turn 0 (Float.exact 0) f1_0 PokemonGUI_init = (Ok tt, PokemonGUI_init) /\
  ~ (forall (w : PokemonGUI) (m : Move) (roll v : spec_float),
       battle_active w = false \/ player_turn w = false ->
       exists e, fst (use_move m roll v w) = Raise e).
Proof.
  repeat split; try reflexivity.
  intros H.
  destruct (H enemy_turn_world (Move_default "Tackle" 40 NORMAL)
              (Float.exact 0) f1_0 (or_intror eq_refl)) as [e He].
  discriminate He.
Qed.

(** C6 (amended). A move attempted when no battle is active, or when it is
    the other side's turn, is ignored without any error: the call returns
    normally, no move is resolved and the state is unchanged. *)
Theorem out_of_turn_is_ignored (player_side : bool) (m : Move) (pick : nat)
    (roll v : spec_float) (w : PokemonGUI) :
  battle_active w = false \/ player_turn w = negb player_side ->
  (if player_side then use_move m roll v else ai_turn pick roll v) w
  = (Ok tt, w).
Proof.
  intros H. destruct player_side; unfold use_move, ai_turn, bind, get, ret;
    destruct H as [-> | ->]; cbn; try reflexivity;
    destruct (battle_active w); reflexivity.
Qed.

Lemma out_of_turn_is_ignored_witness :
  use_move (Move_default "Tackle" 40 NORMAL) (Float.exact 0) f1_0
    enemy_turn_world = (Ok tt, enemy_turn_world).
Proof.
  apply (out_of_turn_is_ignored true (Move_default "Tackle" 40 NORMAL) 0%nat
           (Float.exact 0) f1_0 enemy_turn_world).
  right. reflexivity.
Defined.

(** ** start_battle *)

Lemma alloc_fresh (w : PokemonGUI) (l : loc) (q : Pokemon) :
  heap w !! l = Some q ->
  fresh (dom (heap w)) <> l.
Proof.
  intros H E. pose proof (is_fresh (dom (heap w))) as F.
  rewrite E in F. apply F, elem_of_dom. eauto.
Qed.

(** C8. When a battle starts the player moves first exactly when its speed is
    greater than or equal to the enemy's: the faster side first, the player
    on a tie.  The decision is a function of the two speeds alone; no draw of
    the damage computation enters [start_battle]. *)
Theorem first_mover (w : PokemonGUI) (lp : loc) (p e : Pokemon)
    (enemy_pick : nat) :
  player_pokemon w = Some lp -> heap w !! lp = Some p ->
  pokemon_roster !! enemy_pick = Some e ->
  let w' := snd (start_battle enemy_pick w) in
  battle_active w' = true /\
  player_turn w' = (speed e <=? speed p) /\
  (speed e < speed p -> player_turn w' = true) /\
  (speed p < speed e -> player_turn w' = false) /\
  (speed p = speed e -> player_turn w' = true).
Proof.
  intros Hlp Hp He w'.
  assert (battle_active w' = true /\ player_turn w' = (speed e <=? speed p))
    as [H1 H2].
  { subst w'. unfold start_battle, bind, get. rewrite Hlp.
    unfold lift, random_choice. rewrite He.
    unfold alloc, modify, deref.
    unfold set_battle_active, set_enemy_pokemon, set_player_turn, set_heap.
    cbn [heap player_pokemon enemy_pokemon battle_active player_turn
         battle_log scheduled].
    rewrite lookup_insert_ne by (eapply alloc_fresh; eauto).
    rewrite Hp. cbn beta iota.
    unfold set_battle_active, set_enemy_pokemon, set_player_turn, set_heap.
    cbn [heap player_pokemon enemy_pokemon battle_active player_turn
         battle_log scheduled].
    rewrite lookup_insert_eq.
    cbn [speed Pokemon_init].
    match goal with
    | |- context [update_hp_display ?w0] =>
        pose proof (update_hp_display_state w0) as Hu;
        destruct (update_hp_display w0) as [r w3]; cbn in Hu; subst w3
    end.
    destruct r; [|split; reflexivity].
    match goal with
    | |- context [update_move_buttons ?w0] =>
        pose proof (update_move_buttons_state w0) as Hu;
        destruct (update_move_buttons w0) as [r w3]; cbn in Hu; subst w3
    end.
    destruct r; [|split; reflexivity].
    unfold log_message, root_after, modify, bind. cbn.
    destruct (speed e <=? speed p); cbn; split; reflexivity. }
  rewrite H2. repeat split; auto; lia.
Qed.

Lemma first_mover_witness :
  player_turn
    (snd (start_battle 4
            (snd (select_pokemon Eevee PokemonGUI_init)))) = true.
Proof.
  assert (player_pokemon (snd (select_pokemon Eevee PokemonGUI_init))
          = Some 0%nat) as H1 by reflexivity.
  assert (heap (snd (select_pokemon Eevee PokemonGUI_init)) !! 0%nat
          = Some Eevee) as H2 by reflexivity.
  assert (pokemon_roster !! 4%nat = Some Eevee) as H3 by reflexivity.
  destruct (first_mover _ _ _ _ _ H1 H2 H3) as (_ & _ & _ & _ & H).
  apply H. reflexivity.
Defined.

(** ** Rounding of float products *)

Lemma rne_rel_mono (N x1 x2 q1 q2 : Z) :
  0 < N -> rne_rel N x1 q1 -> rne_rel N x2 q2 -> x1 <= x2 -> q1 <= q2.
Proof.
  intros HN ((L1 & U1) & _ & E1) ((L2 & U2) & E2 & _) Hx.
  destruct (Z.le_gt_cases q1 q2) as [|Hgt]; [assumption|exfalso].
  assert (q1 = q2 + 1) as -> by nia.
  assert (2 * x2 = 2 * q2 * N + N) as H2 by nia.
  assert (2 * x1 = 2 * (q2 + 1) * N - N) as H1 by nia.
  specialize (E1 H1). specialize (E2 H2).
  rewrite Z.even_add in E1. rewrite E2 in E1. discriminate.
Qed.

Lemma rne_rel_grid (N g : Z) : 0 < N -> rne_rel N (g * N) g.
Proof. intros HN. unfold rne_rel. repeat split; intros; nia. Qed.

Lemma rne_rel_nonneg (N x q : Z) : 0 < N -> 0 <= x -> rne_rel N x q -> 0 <= q.
Proof.
  intros HN Hx H.
  apply (rne_rel_mono N 0 x 0 q HN); [|assumption|assumption].
  apply (rne_rel_grid N 0 HN).
Qed.

Lemma digits2_size (p : positive) : digits2_pos p = Pos.size p.
Proof. induction p; simpl; congruence. Qed.

Lemma digits2_bounds (p : positive) :
  2 ^ (Zpos (digits2_pos p) - 1) <= Zpos p < 2 ^ Zpos (digits2_pos p).
Proof.
  rewrite digits2_size.
  pose proof (Pos.size_gt p) as Hgt. pose proof (Pos.size_le p) as Hle.
  apply Pos2Z.pos_lt_pos in Hgt. apply Pos2Z.pos_le_pos in Hle.
  rewrite Pos2Z.inj_pow in Hgt, Hle.
  assert (2 ^ Z.pos (Pos.size p) = 2 * 2 ^ (Z.pos (Pos.size p) - 1)) as E.
  { rewrite <- Z.pow_succ_r by lia. f_equal. lia. }
  lia.
Qed.

Lemma shr_1_nonneg (m : Z) (r s : bool) :
  0 <= m ->
  shr_1 (Build_shr_record m r s) = Build_shr_record (m / 2) (Z.odd m) (r || s).
Proof.
  intros Hm. rewrite <- Z.div2_div.
  destruct m as [|[p|p|]|p]; try reflexivity. lia.
Qed.

Lemma pow2_succ (n : Z) : 1 <= n -> 2 ^ n = 2 * 2 ^ (n - 1).
Proof. intros H. rewrite <- Z.pow_succ_r by lia. f_equal. lia. Qed.

Lemma shr_inv_step (x n : Z) (mrs : shr_record) :
  1 <= n -> shr_inv x n mrs -> shr_inv x (n + 1) (shr_1 mrs).
Proof.
  intros Hn [Hm (t & Ht & Hx & Hs)]. destruct mrs as [m r s].
  cbn [shr_m shr_r shr_s] in *.
  rewrite shr_1_nonneg by assumption. unfold shr_inv.
  cbn [shr_m shr_r shr_s].
  split; [apply Z.div_pos; lia|].
  exists (Z.b2z r * 2 ^ (n - 1) + t).
  replace (n + 1 - 1) with n by lia.
  pose proof (pow2_succ n Hn) as E.
  pose proof (pow2_succ (n + 1) ltac:(lia)) as E'.
  replace (n + 1 - 1) with n in E' by lia.
  assert (0 < 2 ^ (n - 1)) by (apply Z.pow_pos_nonneg; lia).
  pose proof (Z.div_mod m 2 ltac:(lia)) as Hdm.
  rewrite Zmod_odd in Hdm.
  split; [destruct r; simpl; lia|].
  split.
  - rewrite E'. destruct (Z.odd m); simpl Z.b2z; nia.
  - destruct r, s; simpl; split; intros; try lia; try discriminate;
      try (exfalso; intuition lia); auto.
Qed.

Lemma shr_inv_first (x : Z) :
  0 <= x -> shr_inv x 1 (shr_1 (Build_shr_record x false false)).
Proof.
  intros Hx. rewrite shr_1_nonneg by assumption. unfold shr_inv.
  cbn [shr_m shr_r shr_s].
  split; [apply Z.div_pos; lia|].
  exists 0. pose proof (Z.div_mod x 2 ltac:(lia)) as Hdm.
  rewrite Zmod_odd in Hdm.
  split; [simpl; lia|]. split.
  - destruct (Z.odd x); simpl Z.b2z; change (2 ^ (1 - 1)) with 1; lia.
  - simpl. split; [discriminate | congruence].
Qed.

Lemma iter_pos_nat {A} (f : A -> A) (p : positive) (a : A) :
  @SpecFloat.iter_pos A f p a = Nat.iter (Pos.to_nat p) f a.
Proof.
  revert a. induction p as [p IH|p IH|]; intros a; cbn [SpecFloat.iter_pos].
  - rewrite !IH, Pos2Nat.inj_xI.
    replace (S (2 * Pos.to_nat p))%nat
      with (Pos.to_nat p + (Pos.to_nat p + 1))%nat by lia.
    rewrite !Nat.iter_add. reflexivity.
  - rewrite !IH, Pos2Nat.inj_xO.
    replace (2 * Pos.to_nat p)%nat with (Pos.to_nat p + Pos.to_nat p)%nat
      by lia.
    rewrite Nat.iter_add. reflexivity.
  - reflexivity.
Qed.

Lemma shr_inv_iter (x : Z) (n : nat) :
  0 <= x ->
  shr_inv x (Z.of_nat (S n)) (Nat.iter (S n) shr_1 (Build_shr_record x false false)).
Proof.
  intros Hx. induction n as [|n IH].
  - apply shr_inv_first. assumption.
  - replace (Z.of_nat (S (S n))) with (Z.of_nat (S n) + 1) by lia.
    change (Nat.iter (S (S n)) shr_1 ?a) with (shr_1 (Nat.iter (S n) shr_1 a)).
    apply shr_inv_step; [lia | exact IH].
Qed.

Lemma shr_inv_pos (x : Z) (p : positive) :
  0 <= x ->
  shr_inv x (Zpos p) (@SpecFloat.iter_pos _ shr_1 p (Build_shr_record x false false)).
Proof.
  intros Hx. rewrite iter_pos_nat.
  destruct (Pos2Nat.is_succ p) as [n Hn]. rewrite Hn.
  replace (Zpos p) with (Z.of_nat (S n)) by lia.
  apply shr_inv_iter. assumption.
Qed.

Lemma round_of_shr_inv (x n : Z) (mrs : shr_record) :
  1 <= n -> shr_inv x n mrs ->
  rne_rel (2 ^ n) x (round_nearest_even (shr_m mrs) (loc_of_shr_record mrs)).
Proof.
  intros Hn [Hm (t & Ht & Hx & Hs)]. destruct mrs as [m r s].
  cbn [shr_m shr_r shr_s] in *.
  pose proof (pow2_succ n Hn) as E.
  assert (0 < 2 ^ (n - 1)) as Hh by (apply Z.pow_pos_nonneg; lia).
  set (h := 2 ^ (n - 1)) in *. rewrite E. clearbody h.
  unfold rne_rel.
  destruct r, s; cbn [loc_of_shr_record round_nearest_even Z.b2z] in *.
  - assert (t <> 0) by (apply Hs; reflexivity).
    repeat split; intros; nia.
  - assert (t = 0) as -> by (destruct (Z.eq_dec t 0); [assumption|];
                             apply Hs in n0; discriminate).
    destruct (Z.even m) eqn:Ev.
    + repeat split; intros; try nia; assumption.
    + repeat split; intros; try nia.
      rewrite Z.even_add, Ev. reflexivity.
  - assert (t <> 0) by (apply Hs; reflexivity).
    repeat split; intros; nia.
  - assert (t = 0) as -> by (destruct (Z.eq_dec t 0); [assumption|];
                             apply Hs in n0; discriminate).
    repeat split; intros; nia.
Qed.

Lemma shift_of_nonneg (x : positive) (e : Z) : 0 <= shift_of x e.
Proof. unfold shift_of. lia. Qed.

Lemma first_stage (x : positive) (e : Z) :
  let mrs := fst (shr_fexp Float.prec Float.emax (Zpos x) e loc_Exact) in
  snd (shr_fexp Float.prec Float.emax (Zpos x) e loc_Exact) = e + shift_of x e /\
  rne_rel (2 ^ shift_of x e) (Zpos x)
    (round_nearest_even (shr_m mrs) (loc_of_shr_record mrs)).
Proof.
  unfold shr_fexp, shr, shift_of. cbn [Zdigits2 shr_record_of_loc].
  destruct (fexp Float.prec Float.emax (Z.pos (digits2_pos x) + e) - e) as [|p|p] eqn:E;
    cbn [fst snd].
  - split; [lia|]. change (Z.max 0 0) with 0. cbn [shr_m loc_of_shr_record
      round_nearest_even].
    replace (Zpos x) with (Zpos x * 2 ^ 0) at 1 by (simpl; lia).
    apply rne_rel_grid. reflexivity.
  - replace (Z.max 0 (Z.pos p)) with (Z.pos p) by lia. split; [lia|].
    apply round_of_shr_inv; [lia|]. apply shr_inv_pos. lia.
  - replace (Z.max 0 (Z.neg p)) with 0 by lia. split; [lia|].
    cbn [shr_m loc_of_shr_record round_nearest_even].
    replace (Zpos x) with (Zpos x * 2 ^ 0) at 1 by (simpl; lia).
    apply rne_rel_grid. reflexivity.
Qed.

Lemma fexp_ge_emin (k : Z) : -1074 <= fexp Float.prec Float.emax k.
Proof. unfold fexp, emin, Float.prec, Float.emax. lia. Qed.

Lemma rounded_le_pow (x : positive) (e q : Z) :
  rne_rel (2 ^ shift_of x e) (Zpos x) q -> q <= 2 ^ 53.
Proof.
  intros Hq. pose proof (digits2_bounds x) as [_ Hx].
  pose proof (shift_of_nonneg x e) as Hk.
  set (d := Zpos (digits2_pos x)) in *. set (k := shift_of x e) in *.
  assert (d - 53 <= k) as Hdk by (unfold k, shift_of, fexp, emin, Float.prec, Float.emax; fold d; lia).
  assert (0 < 2 ^ k) as HN by (apply Z.pow_pos_nonneg; lia).
  destruct (Z.le_gt_cases k d) as [Hkd|Hkd].
  - assert (q <= 2 ^ (d - k)) as Hle.
    { apply (rne_rel_mono (2 ^ k) (Zpos x) (2 ^ (d - k) * 2 ^ k) _ _ HN Hq).
      - apply rne_rel_grid. assumption.
      - rewrite <- Z.pow_add_r by lia. replace (d - k + k) with d by lia. lia. }
    etransitivity; [exact Hle|]. apply Z.pow_le_mono_r; lia.
  - assert (q <= 1) as Hle.
    { apply (rne_rel_mono (2 ^ k) (Zpos x) (1 * 2 ^ k) _ _ HN Hq).
      - apply rne_rel_grid. assumption.
      - assert (2 ^ d <= 2 ^ k) by (apply Z.pow_le_mono_r; lia). lia. }
    assert (1 <= 2 ^ 53) by (vm_compute; discriminate). lia.
Qed.

Lemma Zdigits2_le_53 (q : Z) : 0 <= q < 2 ^ 53 -> Zdigits2 q <= 53.
Proof.
  intros [H0 H]. destruct q as [|p|p]; [simpl; lia| |lia].
  cbn [Zdigits2]. pose proof (digits2_bounds p) as [Hl _].
  destruct (Z.le_gt_cases (Zpos (digits2_pos p)) 53) as [|Hgt]; [assumption|].
  exfalso. assert (2 ^ 53 <= 2 ^ (Zpos (digits2_pos p) - 1))
    by (apply Z.pow_le_mono_r; lia). lia.
Qed.

Lemma second_stage (q e' : Z) :
  0 <= q <= 2 ^ 53 -> -1074 <= e' ->
  let r := shr_fexp Float.prec Float.emax q e' loc_Exact in
  0 <= shr_m (fst r) /\ e' <= snd r /\ shr_m (fst r) * 2 ^ (snd r - e') = q.
Proof.
  intros [H0 Hq] He.
  destruct (Z.eq_dec q (2 ^ 53)) as [->|Hne].
  - unfold shr_fexp. change (Zdigits2 (2 ^ 53)) with 54.
    replace (fexp Float.prec Float.emax (54 + e') - e') with 1
      by (unfold fexp, emin, Float.prec, Float.emax; lia).
    unfold shr. cbn [SpecFloat.iter_pos shr_record_of_loc fst snd].
    rewrite shr_1_nonneg by lia. cbn [shr_m].
    replace (e' + 1 - e') with 1 by lia.
    split; [apply Z.div_pos; lia|]. split; [lia|]. reflexivity.
  - pose proof (Zdigits2_le_53 q ltac:(lia)) as Hd.
    unfold shr_fexp, shr.
    assert (fexp Float.prec Float.emax (Zdigits2 q + e') - e' <= 0) as Hs
      by (unfold fexp, emin, Float.prec, Float.emax; lia).
    destruct (fexp Float.prec Float.emax (Zdigits2 q + e') - e') as [|p|p]; [| lia |];
      cbn [fst snd shr_record_of_loc shr_m];
      (split; [lia|]; split; [lia|]);
      replace (e' - e') with 0 by lia; simpl; lia.
Qed.

(** The value of [binary_round_aux] on an exact positive mantissa. *)
Lemma binary_round_aux_value (s : bool) (x : positive) (e : Z) :
  exists q, rne_rel (2 ^ shift_of x e) (Zpos x) q /\
    match binary_round_aux Float.prec Float.emax s (Zpos x) e loc_Exact with
    | S754_zero s' => s' = s /\ q = 0
    | S754_finite s' m' e' =>
        s' = s /\ e <= e' /\ Zpos m' * 2 ^ (e' - e) = q * 2 ^ shift_of x e
    | S754_infinity s' => s' = s
    | S754_nan => False
    end.
Proof.
  pose proof (first_stage x e) as [He' Hq]. cbv zeta in Hq.
  unfold binary_round_aux.
  destruct (shr_fexp Float.prec Float.emax (Zpos x) e loc_Exact) as [mrs' e'].
  cbn [fst snd] in He', Hq.
  set (q := round_nearest_even (shr_m mrs') (loc_of_shr_record mrs')) in *.
  exists q. split; [exact Hq|].
  pose proof (shift_of_nonneg x e) as Hk.
  assert (0 < 2 ^ shift_of x e) as HN by (apply Z.pow_pos_nonneg; lia).
  pose proof (rne_rel_nonneg _ (Zpos x) q HN (Pos2Z.is_nonneg x) Hq) as Hq0.
  pose proof (rounded_le_pow x e q Hq) as Hq1.
  assert (-1074 <= e') as Hmin.
  { subst e'. unfold shift_of. pose proof (fexp_ge_emin (Zpos (digits2_pos x) + e)). lia. }
  pose proof (second_stage q e' (conj Hq0 Hq1) Hmin) as (Hm & Hee & Hval).
  cbv zeta in *.
  destruct (shr_fexp Float.prec Float.emax q e' loc_Exact) as [mrs'' e''].
  cbn [fst snd] in *.
  destruct (shr_m mrs'') as [|m|m] eqn:Em.
  - split; [reflexivity|]. lia.
  - destruct (e'' <=? _); [|reflexivity].
    split; [reflexivity|]. split; [lia|].
    rewrite <- Hval. subst e'.
    replace (e'' - e) with ((e'' - (e + shift_of x e)) + shift_of x e) by lia.
    rewrite Z.pow_add_r by lia. lia.
  - lia.
Qed.

Lemma digits2_mono (x1 x2 : positive) :
  (x1 <= x2)%positive -> Zpos (digits2_pos x1) <= Zpos (digits2_pos x2).
Proof.
  intros H. pose proof (digits2_bounds x1) as [L1 _].
  pose proof (digits2_bounds x2) as [_ U2].
  destruct (Z.le_gt_cases (Zpos (digits2_pos x1)) (Zpos (digits2_pos x2)))
    as [|Hgt]; [assumption|exfalso].
  assert (2 ^ Zpos (digits2_pos x2) <= 2 ^ (Zpos (digits2_pos x1) - 1))
    by (apply Z.pow_le_mono_r; lia).
  lia.
Qed.

(** Rounding to nearest is monotone, also across binades. *)
Lemma rne_cross (x1 x2 : positive) (e q1 q2 : Z) :
  (x1 <= x2)%positive ->
  rne_rel (2 ^ shift_of x1 e) (Zpos x1) q1 ->
  rne_rel (2 ^ shift_of x2 e) (Zpos x2) q2 ->
  q1 * 2 ^ shift_of x1 e <= q2 * 2 ^ shift_of x2 e.
Proof.
  intros Hx H1 H2.
  pose proof (digits2_mono x1 x2 Hx) as Hd.
  pose proof (digits2_bounds x1) as [_ U1].
  pose proof (digits2_bounds x2) as [L2 _].
  pose proof (shift_of_nonneg x1 e) as K1.
  pose proof (shift_of_nonneg x2 e) as K2.
  set (d1 := Zpos (digits2_pos x1)) in *. set (d2 := Zpos (digits2_pos x2)) in *.
  assert (shift_of x1 e = Z.max 0 (Z.max (d1 + e - 53) (-1074) - e)) as E1
    by reflexivity.
  assert (shift_of x2 e = Z.max 0 (Z.max (d2 + e - 53) (-1074) - e)) as E2
    by reflexivity.
  set (k1 := shift_of x1 e) in *. set (k2 := shift_of x2 e) in *.
  assert (0 < 2 ^ k1) as N1 by (apply Z.pow_pos_nonneg; lia).
  assert (0 < 2 ^ k2) as N2 by (apply Z.pow_pos_nonneg; lia).
  destruct (Z.eq_dec k1 k2) as [Ek|Nk].
  - rewrite <- Ek in *.
    assert (q1 <= q2) by (apply (rne_rel_mono (2 ^ k1) (Zpos x1) (Zpos x2));
                          auto; lia).
    nia.
  - assert (k1 < k2) as Hlt by lia.
    assert (k2 = d2 - 53) as Hk2 by lia.
    assert (d1 < d2) as Hdd by lia.
    (* the power of two between the two arguments is on both grids *)
    assert (2 ^ d1 <= 2 ^ (d2 - 1)) as Hpow by (apply Z.pow_le_mono_r; lia).
    assert (q1 * 2 ^ k1 <= 2 ^ (d2 - 1)) as A.
    { replace (2 ^ (d2 - 1)) with (2 ^ (d2 - 1 - k1) * 2 ^ k1)
        by (rewrite <- Z.pow_add_r by lia; f_equal; lia).
      apply Z.mul_le_mono_nonneg_r; [lia|].
      apply (rne_rel_mono (2 ^ k1) (Zpos x1) (2 ^ (d2 - 1 - k1) * 2 ^ k1) _ _
               N1 H1).
      - apply rne_rel_grid. assumption.
      - rewrite <- Z.pow_add_r by lia.
        replace (d2 - 1 - k1 + k1) with (d2 - 1) by lia. lia. }
    assert (2 ^ (d2 - 1) <= q2 * 2 ^ k2) as B.
    { replace (2 ^ (d2 - 1)) with (2 ^ (d2 - 1 - k2) * 2 ^ k2)
        by (rewrite <- Z.pow_add_r by lia; f_equal; lia).
      apply Z.mul_le_mono_nonneg_r; [lia|].
      apply (rne_rel_mono (2 ^ k2) (2 ^ (d2 - 1 - k2) * 2 ^ k2) (Zpos x2) _ _
               N2); [|exact H2|].
      - apply rne_rel_grid. assumption.
      - rewrite <- Z.pow_add_r by lia.
        replace (d2 - 1 - k2 + k2) with (d2 - 1) by lia. lia. }
    lia.
Qed.

Lemma shiftl_mono (a b n : Z) : a <= b -> Z.shiftl a n <= Z.shiftl b n.
Proof.
  intros H. destruct (Z.le_gt_cases 0 n) as [Hn|Hn].
  - rewrite !Z.shiftl_mul_pow2 by assumption.
    apply Z.mul_le_mono_nonneg_r; [|assumption]. apply Z.pow_nonneg. lia.
  - rewrite <- !Z.shiftr_opp_r. rewrite !Z.shiftr_div_pow2 by lia.
    apply Z.div_le_mono; [|assumption]. apply Z.pow_pos_nonneg; lia.
Qed.

Lemma shiftl_scaled (m e e' : Z) :
  e <= e' -> Z.shiftl m e' = Z.shiftl (m * 2 ^ (e' - e)) e.
Proof.
  intros H. rewrite <- (Z.shiftl_mul_pow2 m (e' - e)) by lia.
  rewrite Z.shiftl_shiftl by lia. f_equal. lia.
Qed.

(** The clamped truncation of a rounded value grows with the exact
    mantissa. *)
Lemma round_trunc_le (s : bool) (x1 x2 : positive) (e : Z) :
  (x1 <= x2)%positive ->
  let r1 := binary_round_aux Float.prec Float.emax s (Zpos x1) e loc_Exact in
  let r2 := binary_round_aux Float.prec Float.emax s (Zpos x2) e loc_Exact in
  Float.is_finite r1 = true -> Float.is_finite r2 = true ->
  Z.max 1 (Float.trunc r1) <= Z.max 1 (Float.trunc r2).
Proof.
  intros Hx r1 r2 F1 F2.
  destruct (binary_round_aux_value s x1 e) as (q1 & Hq1 & V1).
  destruct (binary_round_aux_value s x2 e) as (q2 & Hq2 & V2).
  pose proof (rne_cross x1 x2 e q1 q2 Hx Hq1 Hq2) as Hle.
  fold r1 in V1. fold r2 in V2. clearbody r1 r2.
  assert (forall m' e', 0 <= Z.shiftl (Zpos m') e')
    as Hnn by (intros; apply Z.shiftl_nonneg; lia).
  destruct r1 as [s1|s1| |s1 m1 e1]; cbn [Float.is_finite] in F1;
    try discriminate;
    (destruct r2 as [s2|s2| |s2 m2 e2]; cbn [Float.is_finite] in F2;
     try discriminate); cbn [Float.trunc]; try lia.
  destruct V1 as (-> & He1 & W1), V2 as (-> & He2 & W2).
  destruct s; cbn [cond_Zopp].
  - pose proof (Hnn m1 e1). pose proof (Hnn m2 e2). lia.
  - rewrite (shiftl_scaled _ e e1 He1), (shiftl_scaled _ e e2 He2).
    rewrite W1, W2. apply Z.max_le_compat_l. apply shiftl_mono. exact Hle.
Qed.

(** Multiplying by 1.5 instead of 1.0 never lowers the clamped damage. *)
Lemma mul_stab_trunc_le (y : spec_float) :
  Float.is_finite (Float.mul y f1_0) = true ->
  Float.is_finite (Float.mul y f1_5) = true ->
  Z.max 1 (Float.trunc (Float.mul y f1_0))
  <= Z.max 1 (Float.trunc (Float.mul y f1_5)).
Proof.
  destruct y as [sy|sy| |sy my ey]; try discriminate.
  intros F1 F2.
  apply (round_trunc_le (xorb sy false) (my * 4503599627370496)
           (my * 6755399441055744) (ey + -52)); [|exact F1|exact F2].
  apply Pos.mul_le_mono_l. vm_compute. discriminate.
Qed.

(** C9 (as stated, refuted): against a Fire defender, Charmander's Fire move
    Ember deals less than its Normal move Tackle of the same power and
    accuracy, at the same roll and variance: the chart halves Fire on Fire. *)
Lemma same_type_move_can_deal_less :
  move_type (Move_default "Ember" 40 FIRE) = pokemon_type Charmander /\
  move_type (Move_default "Tackle" 40 NORMAL) <> pokemon_type Charmander /\
  calculate_damage Charmander Charmander (Move_default "Ember" 40 FIRE)
    (Float.exact 0) f1_0 = Ok 17 /\
  calculate_damage Charmander Charmander (Move_default "Tackle" 40 NORMAL)
    (Float.exact 0) f1_0 = Ok 23.
Proof. repeat split; try discriminate; vm_compute; reflexivity. Qed.

(** C9 (amended). With the same attacker, defender, power, accuracy outcome
    and variance, and the same type-effectiveness multiplier against the
    defender, a move of the attacker's type deals at least the damage of a
    move of another type, whenever both resolutions return a damage. *)
Theorem stab_monotone (a d : Pokemon) (m_same m_other : Move)
    (roll v : spec_float) (dmg_same dmg_other : Z) :
  move_type m_same = pokemon_type a ->
  move_type m_other <> pokemon_type a ->
  power m_other = power m_same ->
  Float.gtb roll (accuracy m_other) = Float.gtb roll (accuracy m_same) ->
  get_multiplier (move_type m_other) (pokemon_type d)
  = get_multiplier (move_type m_same) (pokemon_type d) ->
  calculate_damage a d m_same roll v = Ok dmg_same ->
  calculate_damage a d m_other roll v = Ok dmg_other ->
  dmg_other <= dmg_same.
Proof.
  intros Hsame Hother Hpow Hroll Hmult.
  rewrite !calculate_damage_cases. rewrite Hpow, Hroll.
  destruct (power m_same =? 0); [intros; simplify_eq; lia|].
  destruct (Float.gtb roll (accuracy m_same)); [intros; simplify_eq; lia|].
  destruct (defense d =? 0); [discriminate|].
  destruct (negb _); [discriminate|].
  destruct (negb _); [discriminate|].
  unfold damage_product, stab_of.
  assert (base_damage_of a d m_other = base_damage_of a d m_same) as ->
    by (unfold base_damage_of; rewrite Hpow; reflexivity).
  rewrite Hmult.
  destruct (decide (move_type m_same = pokemon_type a)); [|contradiction].
  destruct (decide (move_type m_other = pokemon_type a)); [contradiction|].
  set (y := Float.mul (Float.mul (base_damage_of a d m_same) _) v).
  destruct (int_of_float (Float.mul y f1_5)) as [t1|] eqn:E1; [|discriminate].
  destruct (int_of_float (Float.mul y f1_0)) as [t0|] eqn:E0; [|discriminate].
  cbn [rbind]. intros H1 H0. simplify_eq.
  apply int_of_float_Ok in E1 as [F1 ->]. apply int_of_float_Ok in E0 as [F0 ->].
  apply mul_stab_trunc_le; assumption.
Qed.

Lemma stab_monotone_witness : 21 <= 32.
Proof.
  apply (stab_monotone Charmander Eevee (Move_default "Ember" 40 FIRE)
           (Move_default "Tackle" 40 NORMAL) (Float.exact 0) f1_0 32 21);
    try reflexivity.
  discriminate.
Defined.

(** ** ai_turn: the choice of the move *)

Lemma multiplier_positive (a b : PokemonType) :
  Float.gtb (get_multiplier a b) (Float.exact 0) = true.
Proof. destruct a, b; reflexivity. Qed.

Lemma multiplier_gtb (a b c d : PokemonType) :
  Float.gtb (get_multiplier a b) (get_multiplier c d)
  = (mult_rank (get_multiplier c d) <? mult_rank (get_multiplier a b)).
Proof. destruct a, b, c, d; vm_compute; reflexivity. Qed.

Lemma multiplier_eqb (a b c d : PokemonType) :
  Float.eqb (get_multiplier a b) (get_multiplier c d)
  = (mult_rank (get_multiplier a b) =? mult_rank (get_multiplier c d)).
Proof. destruct a, b, c, d; vm_compute; reflexivity. Qed.

Lemma filter_ext_in {A} (P Q : A -> Prop) `{!forall x, Decision (P x)}
    `{!forall x, Decision (Q x)} (l : list A) :
  (forall x, x ∈ l -> P x <-> Q x) -> filter P l = filter Q l.
Proof.
  induction l as [|x l IH]; intros Hext; [reflexivity|].
  rewrite !filter_cons.
  assert (filter P l = filter Q l) as ->.
  { apply IH. intros y Hy. apply Hext. right. exact Hy. }
  pose proof (Hext x ltac:(left)) as Hx.
  destruct (decide (P x)), (decide (Q x)); tauto.
Qed.

Lemma filter_none {A} (P : A -> Prop) `{!forall x, Decision (P x)}
    (l : list A) :
  (forall x, x ∈ l -> ~ P x) -> filter P l = [].
Proof.
  induction l as [|x l IH]; intros Hno; [reflexivity|].
  rewrite filter_cons_False by (apply Hno; left).
  apply IH. intros y Hy. apply Hno. right. exact Hy.
Qed.

Lemma damaging_moves_snoc (pre : list Move) (m : Move) :
  damaging_moves (pre ++ [m]) =
  if 0 <? power m then damaging_moves pre ++ [m] else damaging_moves pre.
Proof.
  unfold damaging_moves. rewrite filter_app.
  destruct (Z.ltb_spec 0 (power m)) as [Hp|Hp].
  - rewrite (filter_cons_True _ m []) by assumption. reflexivity.
  - rewrite (filter_cons_False _ m []) by lia. apply app_nil_r.
Qed.

Lemma ai_scan_good (t : PokemonType) (pre : list Move)
    (st : list Move * spec_float) (m : Move) :
  scan_good t pre st -> scan_good t (pre ++ [m]) (ai_scan t st m).
Proof.
  intros Hgood. unfold ai_scan. destruct st as [bm be].
  unfold scan_good. rewrite damaging_moves_snoc.
  destruct (0 <? power m); [|exact Hgood].
  destruct Hgood as [[Hnil [= -> ->]]|(m0 & Hin & Hbe & Hbm & Hmax)].
  - rewrite multiplier_positive. right. exists m. rewrite Hnil.
    cbn [app fst snd].
    split; [left|]. split; [reflexivity|]. split.
    + rewrite filter_cons_True by reflexivity. reflexivity.
    + intros m' Hm'. apply list_elem_of_singleton in Hm'. subst. lia.
  - cbn [fst snd] in Hbe, Hbm. subst be bm.
    change (get_multiplier (move_type m) t) with (effectiveness_against t m).
    assert (Float.gtb (effectiveness_against t m) (effectiveness_against t m0)
            = (rank_of t m0 <? rank_of t m)) as -> by apply multiplier_gtb.
    assert (Float.eqb (effectiveness_against t m) (effectiveness_against t m0)
            = (rank_of t m =? rank_of t m0)) as -> by apply multiplier_eqb.
    right.
    destruct (Z.ltb_spec (rank_of t m0) (rank_of t m)) as [Hlt|Hge].
    + exists m. cbn [fst snd].
      split; [apply elem_of_app; right; left|].
      split; [reflexivity|]. split.
      * rewrite filter_app, (filter_cons_True _ m []) by reflexivity.
        rewrite filter_nil.
        rewrite (filter_none _ (damaging_moves pre)); [reflexivity|].
        intros m' Hm' E. specialize (Hmax m' Hm'). lia.
      * intros m' Hm'. apply elem_of_app in Hm' as [Hm'|Hm'].
        -- specialize (Hmax m' Hm'). lia.
        -- apply list_elem_of_singleton in Hm'. subst. lia.
    + destruct (Z.eqb_spec (rank_of t m) (rank_of t m0)) as [Heq|Hneq].
      * exists m0. cbn [fst snd].
        split; [apply elem_of_app; left; exact Hin|].
        split; [reflexivity|]. split.
        -- rewrite filter_app, (filter_cons_True _ m []) by exact Heq.
           reflexivity.
        -- intros m' Hm'. apply elem_of_app in Hm' as [Hm'|Hm'].
           ++ exact (Hmax m' Hm').
           ++ apply list_elem_of_singleton in Hm'. subst. lia.
      * exists m0. cbn [fst snd].
        split; [apply elem_of_app; left; exact Hin|].
        split; [reflexivity|]. split.
        -- rewrite filter_app, (filter_cons_False _ m []) by exact Hneq.
           rewrite filter_nil. symmetry. apply app_nil_r.
        -- intros m' Hm'. apply elem_of_app in Hm' as [Hm'|Hm'].
           ++ exact (Hmax m' Hm').
           ++ apply list_elem_of_singleton in Hm'. subst. lia.
Qed.

Lemma ai_scan_fold_good (t : PokemonType) (ms pre : list Move)
    (st : list Move * spec_float) :
  scan_good t pre st ->
  scan_good t (pre ++ ms) (fold_left (ai_scan t) ms st).
Proof.
  revert pre st. induction ms as [|m ms IH]; intros pre st Hgood.
  - rewrite app_nil_r. exact Hgood.
  - cbn [fold_left]. replace (pre ++ m :: ms) with ((pre ++ [m]) ++ ms)
      by (rewrite <- app_assoc; reflexivity).
    apply IH. apply ai_scan_good. exact Hgood.
Qed.

(** The loop computes the ties for the maximum, and they are not empty when
    some move has power > 0. *)
Lemma ai_best_moves_spec (ms : list Move) (t : PokemonType) :
  match damaging_moves ms with
  | [] => ai_best_moves ms t = []
  | dm => ai_best_moves ms t = tied_for_maximum t dm /\ ai_best_moves ms t <> []
  end.
Proof.
  pose proof (ai_scan_fold_good t ms [] ([], Float.exact 0)) as Hgood.
  cbn [app] in Hgood. unfold ai_best_moves.
  destruct Hgood as [[Hnil ->]|(m0 & Hin & Hbe & Hbm & Hmax)].
  { left. split; reflexivity. }
  - rewrite Hnil. cbn [fst]. exact Hnil.
  - assert (fst (fold_left (ai_scan t) ms ([], Float.exact 0)) =
            tied_for_maximum t (damaging_moves ms)) as E.
    { rewrite Hbm. unfold tied_for_maximum. apply filter_ext_in.
      intros m Hm. rewrite Forall_forall. split.
      - intros Heq m' Hm'.
        assert (Float.gtb (effectiveness_against t m')
                  (effectiveness_against t m)
                = (rank_of t m <? rank_of t m')) as -> by apply multiplier_gtb.
        specialize (Hmax m' Hm'). lia.
      - intros Hall. specialize (Hall m0 Hin).
        assert (Float.gtb (effectiveness_against t m0)
                  (effectiveness_against t m)
                = (rank_of t m <? rank_of t m0)) as Eg by apply multiplier_gtb.
        rewrite Eg in Hall.
        specialize (Hmax m Hm). lia. }
    assert (m0 ∈ fst (fold_left (ai_scan t) ms ([], Float.exact 0))) as Hm0.
    { rewrite Hbm. apply list_elem_of_filter. split; [reflexivity|exact Hin]. }
    destruct (damaging_moves ms) as [|d dm] eqn:Ed.
    { apply elem_of_nil in Hin. contradiction. }
    destruct (fst (fold_left (ai_scan t) ms ([], Float.exact 0))) as [|b bs] eqn:Eb.
    { apply elem_of_nil in Hm0. contradiction. }
    split; [exact E | discriminate].
Qed.

(** C7. The move [ai_turn] selects depends only on the enemy's move list, the
    player's type and the drawn index: it is the element at that index of
    the moves with power > 0 tied for the maximum chart multiplier against
    the player's type, or of all the enemy's moves when none has
    power > 0. *)
Theorem ai_select_move_spec (ms : list Move) (t : PokemonType) (pick : nat) :
  ai_select_move ms t pick = random_choice (spec_ai_candidates ms t) pick.
Proof.
  unfold ai_select_move, spec_ai_candidates.
  pose proof (ai_best_moves_spec ms t) as H.
  destruct (damaging_moves ms) as [|d dm].
  - rewrite H. reflexivity.
  - destruct H as [E Hne]. rewrite <- E.
    destruct (ai_best_moves ms t); [contradiction|reflexivity].
Qed.

(** On the roster: Pikachu against a Water player keeps its two Electric
    attacks; a move list with no attack falls back to the whole list. *)
Example pikachu_against_water :
  move_name <$> spec_ai_candidates moves_electric WATER
  = ["Thunder Shock"; "Thunderbolt"].
Proof. vm_compute. reflexivity. Qed.

Example status_moves_only :
  ai_select_move [mkMove "Thunder Wave" 0 ELECTRIC f0_9] WATER 0
  = Ok (mkMove "Thunder Wave" 0 ELECTRIC f0_9).
Proof. vm_compute. reflexivity. Qed.

(** * Further properties of the code *)

(** ** Pokemon: take_damage, heal, is_alive *)

(** X1. Healing by the amount just lost gives back the same object: for a
    damage between 0 and the current health of a combatant within its
    maximum, [heal] after [take_damage] is the identity. *)
Theorem heal_take_damage_round_trip (p : Pokemon) (n : Z) :
  0 <= n <= current_hp p -> current_hp p <= max_hp p ->
  heal (take_damage p n) n = p.
Proof.
  intros Hn Hmax. destruct p. unfold heal, take_damage, set_current_hp.
  cbn in *. f_equal. lia.
Qed.

Lemma heal_take_damage_round_trip_witness :
  heal (take_damage Charmander 30) 30 = Charmander.
Proof.
  apply (heal_take_damage_round_trip Charmander 30).
  - simpl. lia.
  - simpl. lia.
Defined.

(** X2. Damages add up: two hits of [a] then [b >= 0] leave the combatant as
    one hit of [a + b] does, and a combatant survives a hit exactly when the
    damage is below its current health. *)
Theorem take_damage_accumulates (p : Pokemon) (a b : Z) :
  0 <= b ->
  take_damage (take_damage p a) b = take_damage p (a + b) /\
  (is_alive (take_damage p b) = true <-> b < current_hp p).
Proof.
  intros Hb. unfold take_damage, is_alive, set_current_hp. cbn. split.
  - f_equal. lia.
  - rewrite Z.ltb_lt. lia.
Qed.

Lemma take_damage_accumulates_witness :
  take_damage (take_damage Charmander 60) 50 = take_damage Charmander (60 + 50)
  /\ (is_alive (take_damage Charmander 50) = true <-> 50 < current_hp Charmander).
Proof. apply (take_damage_accumulates Charmander 60 50). lia. Defined.

(** ** Floats: bounds on the exponent of a rounded result *)

Lemma small_finite (B : Z) (x : spec_float) :
  small B x -> Float.is_finite x = true.
Proof. destruct x; simpl; tauto. Qed.

Lemma small_le (B B' : Z) (x : spec_float) :
  B <= B' -> small B x -> small B' x.
Proof. destruct x; simpl; intuition lia. Qed.

Lemma Zdigits2_nonneg (m : Z) : 0 <= Zdigits2 m.
Proof. destruct m; simpl; lia. Qed.

Lemma Zdigits2_lt_pow (m : Z) : 0 <= m -> m < 2 ^ Zdigits2 m.
Proof.
  intros H. destruct m as [|p|p]; [simpl; lia| |lia].
  apply digits2_bounds.
Qed.

Lemma Zdigits2_le (m n : Z) : 0 <= m < 2 ^ n -> 0 <= n -> Zdigits2 m <= n.
Proof.
  intros [H0 H] Hn. destruct m as [|p|p]; [simpl; lia| |lia].
  cbn [Zdigits2]. pose proof (digits2_bounds p) as [Hl _].
  destruct (Z.le_gt_cases (Zpos (digits2_pos p)) n) as [|Hgt]; [assumption|].
  exfalso. assert (2 ^ n <= 2 ^ (Zpos (digits2_pos p) - 1))
    by (apply Z.pow_le_mono_r; lia). lia.
Qed.

Lemma shr_m_iter (n : nat) (mrs : shr_record) :
  0 <= shr_m mrs ->
  shr_m (Nat.iter n shr_1 mrs) = shr_m mrs / 2 ^ Z.of_nat n.
Proof.
  intros H0. induction n as [|n IH].
  - simpl. now rewrite Z.div_1_r.
  - change (Nat.iter (S n) shr_1 mrs) with (shr_1 (Nat.iter n shr_1 mrs)).
    assert (0 <= shr_m (Nat.iter n shr_1 mrs)) as Hn.
    { rewrite IH. apply Z.div_pos; [assumption|]. apply Z.pow_pos_nonneg; lia. }
    destruct (Nat.iter n shr_1 mrs) as [m r s]. cbn [shr_m] in IH, Hn.
    rewrite shr_1_nonneg by assumption. cbn [shr_m]. rewrite IH.
    rewrite Nat2Z.inj_succ, Z.pow_succ_r by lia.
    rewrite Z.div_div by (try apply Z.pow_pos_nonneg; lia).
    f_equal. lia.
Qed.

Lemma round_nearest_even_bounds (m : Z) (l : location) :
  m <= round_nearest_even m l <= m + 1.
Proof.
  destruct l as [|[]]; cbn [round_nearest_even]; try lia.
  destruct (Z.even m); lia.
Qed.

Lemma shr_m_record_of_loc (m : Z) (l : location) :
  shr_m (shr_record_of_loc m l) = m.
Proof. destruct l as [|[]]; reflexivity. Qed.

Lemma first_stage_bounds (mx ex : Z) (lx : location) :
  0 <= mx ->
  let r := shr_fexp Float.prec Float.emax mx ex lx in
  snd r = Z.max ex (fexp Float.prec Float.emax (Zdigits2 mx + ex)) /\
  0 <= shr_m (fst r) < 2 ^ 53.
Proof.
  intros H0. unfold shr_fexp, shr.
  pose proof (Zdigits2_lt_pow mx H0) as Hlt.
  pose proof (Zdigits2_nonneg mx) as Hd.
  set (d := Zdigits2 mx) in *.
  assert (fexp Float.prec Float.emax (d + ex) = Z.max (d + ex - 53) (-1074))
    as Ef by reflexivity.
  destruct (fexp Float.prec Float.emax (d + ex) - ex) as [|p|p] eqn:E;
    cbn [fst snd]; rewrite ?shr_m_record_of_loc.
  - split; [lia|]. split; [lia|].
    assert (2 ^ d <= 2 ^ 53) by (apply Z.pow_le_mono_r; lia). lia.
  - split; [lia|]. rewrite iter_pos_nat, shr_m_iter
      by (rewrite shr_m_record_of_loc; lia).
    rewrite shr_m_record_of_loc, positive_nat_Z.
    assert (0 < 2 ^ Zpos p) by (apply Z.pow_pos_nonneg; lia).
    split; [apply Z.div_pos; lia|].
    apply Z.div_lt_upper_bound; [lia|].
    rewrite <- Z.pow_add_r by lia.
    assert (2 ^ d <= 2 ^ (Z.pos p + 53)) by (apply Z.pow_le_mono_r; lia). lia.
  - split; [lia|]. split; [lia|].
    assert (2 ^ d <= 2 ^ 53) by (apply Z.pow_le_mono_r; lia). lia.
Qed.

Lemma second_stage_bounds (q e' : Z) :
  0 <= q <= 2 ^ 53 -> -1074 <= e' ->
  let r := shr_fexp Float.prec Float.emax q e' loc_Exact in
  0 <= shr_m (fst r) < 2 ^ 53 /\ e' <= snd r <= e' + 1.
Proof.
  intros [H0 Hq] He.
  destruct (Z.eq_dec q (2 ^ 53)) as [->|Hne].
  - unfold shr_fexp. change (Zdigits2 (2 ^ 53)) with 54.
    replace (fexp Float.prec Float.emax (54 + e') - e') with 1
      by (unfold fexp, emin, Float.prec, Float.emax; lia).
    unfold shr. cbn [SpecFloat.iter_pos shr_record_of_loc fst snd].
    rewrite shr_1_nonneg by lia. cbn [shr_m].
    split; [|lia]. vm_compute. split; [discriminate|reflexivity].
  - pose proof (Zdigits2_le_53 q ltac:(lia)) as Hd.
    unfold shr_fexp, shr.
    assert (fexp Float.prec Float.emax (Zdigits2 q + e') - e' <= 0) as Hs
      by (unfold fexp, emin, Float.prec, Float.emax; lia).
    destruct (fexp Float.prec Float.emax (Zdigits2 q + e') - e') as [|p|p];
      [| lia |]; cbn [fst snd shr_record_of_loc shr_m]; lia.
Qed.

Lemma binary_round_aux_small (s : bool) (mx ex : Z) (lx : location) (B : Z) :
  0 <= mx ->
  Z.max (Z.max ex (Zdigits2 mx + ex - 53)) (-1074) + 1 <= B -> B <= 971 ->
  small B (binary_round_aux Float.prec Float.emax s mx ex lx).
Proof.
  intros H0 HB HB'.
  pose proof (first_stage_bounds mx ex lx H0) as [He' Hq0]. cbv zeta in *.
  unfold binary_round_aux.
  destruct (shr_fexp Float.prec Float.emax mx ex lx) as [mrs' e'].
  cbn [fst snd] in *.
  pose proof (round_nearest_even_bounds (shr_m mrs') (loc_of_shr_record mrs'))
    as Hq1.
  set (q := round_nearest_even (shr_m mrs') (loc_of_shr_record mrs')) in *.
  assert (fexp Float.prec Float.emax (Zdigits2 mx + ex)
          = Z.max (Zdigits2 mx + ex - 53) (-1074)) as Ef by reflexivity.
  pose proof (second_stage_bounds q e' ltac:(lia) ltac:(lia)) as [Hm He''].
  cbv zeta in *.
  destruct (shr_fexp Float.prec Float.emax q e' loc_Exact) as [mrs'' e''].
  cbn [fst snd] in *.
  destruct (shr_m mrs'') as [|m|m] eqn:Em; [exact I| |lia].
  assert ((e'' <=? Float.emax - Float.prec) = true) as ->
    by (apply Z.leb_le; unfold Float.emax, Float.prec; lia).
  cbn [small]. lia.
Qed.

Lemma mul_small (Bx By B : Z) (x y : spec_float) :
  small Bx x -> small By y ->
  Z.max (Bx + By + 53) (-1074) + 1 <= B -> B <= 971 ->
  small B (Float.mul x y).
Proof.
  destruct x as [sx|sx| |sx mx ex], y as [sy|sy| |sy my ey];
    cbn [small]; try tauto; try (intros; exact I).
  intros [Hmx Hex] [Hmy Hey] HB HB'.
  apply binary_round_aux_small; [lia| |exact HB'].
  assert (Zdigits2 (Zpos (mx * my)) <= 106) as Hd.
  { apply Zdigits2_le; [|lia]. split; [lia|].
    rewrite Pos2Z.inj_mul.
    replace (2 ^ 106) with (2 ^ 53 * 2 ^ 53) by (rewrite <- Z.pow_add_r; lia).
    apply Z.mul_lt_mono_nonneg; lia. }
  lia.
Qed.

Lemma iter_xO_value (m d : positive) :
  Zpos (Pos.iter xO m d) = Zpos m * 2 ^ Zpos d /\
  digits2_pos (Pos.iter xO m d) = (digits2_pos m + d)%positive.
Proof.
  induction d as [|d IH] using Pos.peano_ind.
  - cbn. split; lia.
  - rewrite Pos.iter_succ. destruct IH as [IH1 IH2].
    rewrite Pos2Z.inj_xO, IH1. cbn [digits2_pos]. rewrite IH2.
    rewrite Pos2Z.inj_succ, Z.pow_succ_r by lia. split; lia.
Qed.

Lemma shl_align_spec (mx : positive) (ex ex' : Z) :
  let r := shl_align mx ex ex' in
  snd r <= ex /\
  Zpos (digits2_pos (fst r)) + snd r = Zpos (digits2_pos mx) + ex /\
  Zpos (fst r) = Zpos mx * 2 ^ (ex - snd r).
Proof.
  unfold shl_align. destruct (ex' - ex) as [|d|d] eqn:E; cbn [fst snd].
  - rewrite Z.sub_diag. cbn. lia.
  - rewrite Z.sub_diag. cbn. lia.
  - destruct (iter_xO_value mx d) as [V D]. rewrite V, D.
    replace (ex - ex') with (Zpos d) by lia. lia.
Qed.

Lemma binary_round_small (s : bool) (m : positive) (e B : Z) :
  Z.max (Z.max e (Zpos (digits2_pos m) + e - 53)) (-1074) + 1 <= B ->
  B <= 971 ->
  small B (binary_round Float.prec Float.emax s m e).
Proof.
  intros HB HB'. unfold binary_round.
  pose proof (shl_align_spec m e
                (fexp Float.prec Float.emax (Zpos (digits2_pos m) + e)))
    as (H1 & H2 & _). cbv zeta in *.
  destruct (shl_align m e _) as [mz ez]. cbn [fst snd] in *.
  apply binary_round_aux_small; [lia| |exact HB'].
  cbn [Zdigits2]. lia.
Qed.

Lemma binary_normalize_small (z e B : Z) :
  Z.max (Z.max e (Zdigits2 z + e - 53)) (-1074) + 1 <= B -> B <= 971 ->
  small B (binary_normalize Float.prec Float.emax z e false).
Proof.
  intros HB HB'. destruct z as [|m|m]; cbn [binary_normalize];
    [exact I| |]; apply binary_round_small; assumption.
Qed.

Lemma Zdigits2_abs_le (z n : Z) : Z.abs z < 2 ^ n -> 0 <= n -> Zdigits2 z <= n.
Proof.
  intros H Hn. destruct z as [|p|p]; [simpl; lia| |];
    apply (Zdigits2_le (Zpos p)); lia.
Qed.

Lemma of_Z_small (n N : Z) :
  Z.abs n < 2 ^ N -> 53 <= N <= 1000 -> small (N - 52) (Float.of_Z n).
Proof.
  intros Hn HN. apply binary_normalize_small; [|lia].
  pose proof (Zdigits2_abs_le n N Hn ltac:(lia)). lia.
Qed.

Lemma add_small (Bx By B : Z) (x y : spec_float) :
  small Bx x -> small By y ->
  Z.max (Z.max Bx By + 1) (-1074) + 1 <= B -> B <= 971 ->
  small B (Float.add x y).
Proof.
  destruct x as [sx|sx| |sx mx ex], y as [sy|sy| |sy my ey];
    cbn [small]; try tauto.
  - intros _ _ _ _. destruct sx, sy; exact I.
  - intros _ [? ?] ? ?. cbn. lia.
  - intros [? ?] _ ? ?. cbn. lia.
  - intros [Hmx Hex] [Hmy Hey] HB HB'.
    unfold Float.add, SFadd.
    pose proof (shl_align_spec mx ex (Z.min ex ey)) as (_ & _ & Vx).
    pose proof (shl_align_spec my ey (Z.min ex ey)) as (_ & _ & Vy).
    cbv zeta in Vx, Vy.
    assert (snd (shl_align mx ex (Z.min ex ey)) = Z.min ex (Z.min ex ey)) as Sx.
    { unfold shl_align. destruct (Z.min ex ey - ex) eqn:E; cbn; lia. }
    assert (snd (shl_align my ey (Z.min ex ey)) = Z.min ey (Z.min ex ey)) as Sy.
    { unfold shl_align. destruct (Z.min ex ey - ey) eqn:E; cbn; lia. }
    rewrite Sx in Vx. rewrite Sy in Vy.
    set (ax := Zpos (fst (shl_align mx ex (Z.min ex ey)))) in *.
    set (ay := Zpos (fst (shl_align my ey (Z.min ex ey)))) in *.
    set (ez := Z.min ex ey) in *.
    set (M := Z.max ex ey).
    assert (0 < ax < 2 ^ (53 + M - ez)) as Hax.
    { split; [unfold ax; lia|]. rewrite Vx.
      replace (ex - Z.min ex ez) with (ex - ez) by lia.
      replace (53 + M - ez) with (53 + (M - ez)) by lia.
      rewrite Z.pow_add_r by lia.
      assert (2 ^ (ex - ez) <= 2 ^ (M - ez)) by (apply Z.pow_le_mono_r; lia).
      assert (0 < 2 ^ (ex - ez)) by (apply Z.pow_pos_nonneg; lia).
      nia. }
    assert (0 < ay < 2 ^ (53 + M - ez)) as Hay.
    { split; [unfold ay; lia|]. rewrite Vy.
      replace (ey - Z.min ey ez) with (ey - ez) by lia.
      replace (53 + M - ez) with (53 + (M - ez)) by lia.
      rewrite Z.pow_add_r by lia.
      assert (2 ^ (ey - ez) <= 2 ^ (M - ez)) by (apply Z.pow_le_mono_r; lia).
      assert (0 < 2 ^ (ey - ez)) by (apply Z.pow_pos_nonneg; lia).
      nia. }
    apply binary_normalize_small; [|exact HB'].
    assert (Zdigits2 (cond_Zopp sx ax + cond_Zopp sy ay) <= 54 + M - ez) as Hd.
    { apply Zdigits2_abs_le; [|lia].
      replace (54 + M - ez) with (Z.succ (53 + M - ez)) by lia.
      rewrite Z.pow_succ_r by lia.
      destruct sx, sy; cbn [cond_Zopp]; lia. }
    lia.
Qed.

Lemma div_core_bounds (m1 m2 : positive) :
  let '(q, e', _) :=
    SFdiv_core_binary Float.prec Float.emax (Zpos m1) 0 (Zpos m2) 0 in
  0 <= q /\ e' <= 0 /\
  Zdigits2 q + e' <=
  Z.max e' (Zpos (digits2_pos m1) - Zpos (digits2_pos m2) + 1).
Proof.
  unfold SFdiv_core_binary.
  set (d1 := Zdigits2 (Zpos m1)). set (d2 := Zdigits2 (Zpos m2)).
  set (e' := Z.min (fexp Float.prec Float.emax (d1 + 0 - (d2 + 0))) (0 - 0)).
  assert (e' <= 0) as He by (unfold e'; lia).
  set (s := 0 - 0 - e').
  set (m' := match s with Zpos _ => Z.shiftl (Zpos m1) s | Z0 => Zpos m1
             | Zneg _ => 0 end).
  assert (m' = Zpos m1 * 2 ^ s) as Hm'.
  { unfold m'. destruct s eqn:Es; [lia| |lia].
    rewrite Z.shiftl_mul_pow2 by lia. reflexivity. }
  pose proof (Z.div_eucl_eq m' (Zpos m2) ltac:(lia)) as Heq.
  pose proof (Z.mod_pos_bound m' (Zpos m2) ltac:(lia)) as Hr.
  unfold Z.modulo in Hr.
  destruct (Z.div_eucl m' (Zpos m2)) as [q r].
  assert (0 <= s) as Hs by (unfold s; lia).
  assert (0 < 2 ^ s) as Hp by (apply Z.pow_pos_nonneg; lia).
  assert (0 <= q) as Hq by nia.
  split; [exact Hq|]. split; [exact He|].
  pose proof (digits2_bounds m1) as [_ Hu1].
  pose proof (digits2_bounds m2) as [Hl2 _].
  assert (m' < 2 ^ (Zpos (digits2_pos m1) + s)) as Hmu.
  { rewrite Hm', Z.pow_add_r by lia. nia. }
  destruct q as [|p|p]; [cbn [Zdigits2]; lia| |lia].
  cbn [Zdigits2]. pose proof (digits2_bounds p) as [Hlp _].
  assert (2 ^ (Zpos (digits2_pos p) - 1 + (Zpos (digits2_pos m2) - 1))
          < 2 ^ (Zpos (digits2_pos m1) + s)) as Hlt.
  { rewrite Z.pow_add_r by lia.
    assert (0 < 2 ^ (Zpos (digits2_pos p) - 1))
      by (apply Z.pow_pos_nonneg; lia).
    assert (0 < 2 ^ (Zpos (digits2_pos m2) - 1))
      by (apply Z.pow_pos_nonneg; lia).
    nia. }
  apply Z.pow_lt_mono_r_iff in Hlt; [|lia|lia].
  unfold s in Hlt. lia.
Qed.

Lemma truediv_small (a d : Z) (B : Z) :
  d <> 0 ->
  Z.max 0 (Zdigits2 a - Zdigits2 d - 52) + 1 <= B -> B <= 971 ->
  small B (Float.div (Float.exact a) (Float.exact d)).
Proof.
  intros Hd HB HB'.
  destruct a as [|ma|ma], d as [|md|md]; try contradiction;
    try exact I; cbn [Float.exact]; unfold Float.div, SFdiv;
    pose proof (div_core_bounds ma md) as Hc;
    destruct (SFdiv_core_binary Float.prec Float.emax (Zpos ma) 0 (Zpos md) 0)
      as [[q e'] l]; destruct Hc as (Hq & He & Hdq);
    cbn [Zdigits2] in HB;
    (apply binary_round_aux_small; [exact Hq|lia|lia]).
Qed.

Lemma int_truediv_small (a d N : Z) :
  d <> 0 -> Z.abs a < 2 ^ N -> 53 <= N <= 1000 ->
  exists q, int_truediv a d = Ok q /\ small (N - 52) q.
Proof.
  intros Hd Ha HN. unfold int_truediv.
  destruct (Z.eqb_spec d 0) as [|_]; [contradiction|].
  cbv zeta.
  assert (small (N - 52) (Float.div (Float.exact a) (Float.exact d))) as Hs.
  { apply truediv_small; [assumption| |lia].
    pose proof (Zdigits2_abs_le a N Ha ltac:(lia)).
    assert (1 <= Zdigits2 d)
      by (destruct d as [|p|p]; [contradiction| |]; cbn [Zdigits2]; lia).
    lia. }
  rewrite (small_finite _ _ Hs). eauto.
Qed.

Lemma Zdigits2_mono_nonneg (a b : Z) : 0 <= a <= b -> Zdigits2 a <= Zdigits2 b.
Proof.
  intros [Ha Hab]. destruct a as [|p|p]; [apply Zdigits2_nonneg| |lia].
  destruct b as [|q|q]; [lia| |lia].
  cbn [Zdigits2]. pose proof (digits2_bounds p) as [Hl _].
  pose proof (digits2_bounds q) as [_ Hu].
  assert (2 ^ (Zpos (digits2_pos p) - 1) < 2 ^ Zpos (digits2_pos q)) as Hlt by lia.
  apply Z.pow_lt_mono_r_iff in Hlt; lia.
Qed.

Ltac small_const := vm_compute; split; [reflexivity|discriminate].

Lemma multiplier_small (a b : PokemonType) : small (-51) (get_multiplier a b).
Proof. destruct a, b; small_const. Qed.

Lemma stab_small (a : Pokemon) (m : Move) : small (-52) (stab_of a m).
Proof. unfold stab_of. destruct (decide _); small_const. Qed.

Lemma uniform_range_small (v : spec_float) : uniform_range v -> small (-52) v.
Proof.
  intros (Hv & Hlo & Hhi).
  destruct v as [s|s| |s m e]; try discriminate.
  - destruct s; discriminate.
  - destruct s; [discriminate|].
    cbn [small]. cbn [valid_binary] in Hv. unfold bounded in Hv.
    apply andb_prop in Hv as [Hc _]. unfold canonical_mantissa in Hc.
    apply Z.eqb_eq in Hc. unfold fexp, Float.prec, Float.emax, emin in Hc.
    pose proof (digits2_bounds m) as [_ Hu].
    assert (Zpos (digits2_pos m) <= 53) as Hd by lia.
    assert (2 ^ Zpos (digits2_pos m) <= 2 ^ 53)
      by (apply Z.pow_le_mono_r; lia).
    split; [lia|].
    unfold SFleb, SFcompare, f1_0 in Hhi.
    destruct (Z.compare_spec e (-52)); [lia|lia|discriminate].
Qed.

Lemma damage_product_small (a d : Pokemon) (m : Move) (v : spec_float) :
  defense d <> 0 ->
  Z.abs (attack a) < 2 ^ 400 -> Z.abs (power m) < 2 ^ 400 ->
  uniform_range v ->
  Float.is_finite (Float.div (Float.exact (attack a)) (Float.exact (defense d)))
    = true /\
  Float.is_finite (Float.of_Z (power m)) = true /\
  small 759 (damage_product a d m v).
Proof.
  intros Hd Ha Hp Hv.
  destruct (int_truediv_small (attack a) (defense d) 400 Hd Ha ltac:(lia))
    as (q & Hq & Sq).
  unfold int_truediv in Hq.
  destruct (Z.eqb_spec (defense d) 0) as [|_]; [contradiction|].
  cbv zeta in Hq.
  destruct (Float.is_finite (Float.div _ _)) eqn:Fq; [|discriminate].
  injection Hq as <-.
  pose proof (of_Z_small (power m) 400 Hp ltac:(lia)) as Sp.
  split; [reflexivity|]. split; [exact (small_finite _ _ Sp)|].
  assert (small (-54) (Float.div (Float.exact (2 * 50 + 10)) (Float.exact 250)))
    as Sc by small_const.
  assert (small 1 (Float.of_Z 2)) as S2 by small_const.
  unfold damage_product, base_damage_of.
  set (c := Float.div (Float.exact (2 * 50 + 10)) (Float.exact 250)) in *.
  set (r := Float.div (Float.exact (attack a)) (Float.exact (defense d))) in *.
  assert (small 348 (Float.mul c r)) as S1
    by (apply (mul_small (-54) 348); [exact Sc|exact Sq|lia|lia]).
  assert (small 750 (Float.mul (Float.mul c r) (Float.of_Z (power m)))) as S3
    by (apply (mul_small 348 348); [exact S1|exact Sp|lia|lia]).
  assert (small 752 (Float.add (Float.mul (Float.mul c r)
                                  (Float.of_Z (power m))) (Float.of_Z 2))) as S4
    by (apply (add_small 750 1); [exact S3|exact S2|lia|lia]).
  apply (mul_small 757 (-52)); [|apply stab_small|lia|lia].
  apply (mul_small 755 (-52)); [|exact (uniform_range_small _ Hv)|lia|lia].
  apply (mul_small 752 (-51)); [exact S4|apply multiplier_small|lia|lia].
Qed.

(** ** calculate_damage: when it returns *)

Lemma calculate_damage_finite (a d : Pokemon) (m : Move)
    (roll v : spec_float) :
  defense d <> 0 ->
  Float.is_finite (Float.div (Float.exact (attack a)) (Float.exact (defense d)))
    = true ->
  Float.is_finite (Float.of_Z (power m)) = true ->
  Float.is_finite (damage_product a d m v) = true ->
  exists damage, calculate_damage a d m roll v = Ok damage.
Proof.
  intros Hd Fq Fp Sd.
  rewrite calculate_damage_cases.
  destruct (power m =? 0); [eauto|].
  destruct (Float.gtb roll (accuracy m)); [eauto|].
  destruct (Z.eqb_spec (defense d) 0) as [|_]; [contradiction|].
  rewrite Fq, Fp. cbn [negb].
  rewrite (int_of_float_finite _ Sd). cbn [rbind]. eauto.
Qed.

(** X3. [calculate_damage] returns a damage, with no exception, for every
    roll, whenever the defender's defense is not 0, the attack and the power
    are below 2^400 in magnitude and the variance is a double in
    [0.85, 1.0]: no division by zero, and no intermediate float of the
    formula overflows (the product handed to [int()] is finite). *)
Theorem calculate_damage_returns (a d : Pokemon) (m : Move)
    (roll v : spec_float) :
  defense d <> 0 ->
  Z.abs (attack a) < 2 ^ 400 -> Z.abs (power m) < 2 ^ 400 ->
  uniform_range v ->
  Float.is_finite (damage_product a d m v) = true /\
  exists damage, calculate_damage a d m roll v = Ok damage.
Proof.
  intros Hd Ha Hp Hv.
  destruct (damage_product_small a d m v Hd Ha Hp Hv) as (Fq & Fp & Sd).
  apply small_finite in Sd. split; [exact Sd|].
  apply calculate_damage_finite; assumption.
Qed.

Lemma calculate_damage_returns_witness :
  Float.is_finite
    (damage_product Charmander Bulbasaur (mkMove "Flamethrower" 90 FIRE f0_9)
       f0_85) = true /\
  exists damage,
    calculate_damage Charmander Bulbasaur (mkMove "Flamethrower" 90 FIRE f0_9)
      (Float.exact 0) f0_85 = Ok damage.
Proof.
  apply (calculate_damage_returns Charmander Bulbasaur
           (mkMove "Flamethrower" 90 FIRE f0_9) (Float.exact 0) f0_85).
  - discriminate.
  - reflexivity.
  - reflexivity.
  - vm_compute. repeat split; reflexivity.
Defined.

(** X4. A returned damage of 0 means exactly "no hit": [calculate_damage]
    returns 0 if and only if the move has power 0 or the roll is greater than
    the accuracy; every hit deals at least 1. *)
Theorem zero_damage_iff (a d : Pokemon) (m : Move) (roll v : spec_float) :
  calculate_damage a d m roll v = Ok 0 <->
  power m = 0 \/ Float.gtb roll (accuracy m) = true.
Proof.
  rewrite calculate_damage_cases.
  destruct (Z.eqb_spec (power m) 0) as [Hp|Hp]; [tauto|].
  destruct (Float.gtb roll (accuracy m)); [tauto|].
  split; [|intros [?|?]; [contradiction|discriminate]].
  repeat (case_match; try discriminate).
  destruct (int_of_float _); cbn [rbind]; [|discriminate].
  intros [= Hz]. lia.
Qed.

(** ** get_hp_percentage *)

Lemma get_hp_percentage_small (p : Pokemon) :
  hp_invariant p -> max_hp p <> 0 ->
  exists x, get_hp_percentage p = Ok x /\ small 9 x.
Proof.
  intros [H0 Hle] Hmax. unfold get_hp_percentage, int_truediv.
  destruct (Z.eqb_spec (max_hp p) 0) as [|_]; [contradiction|].
  cbv zeta.
  assert (small 1 (Float.div (Float.exact (current_hp p))
                     (Float.exact (max_hp p)))) as Sq.
  { apply truediv_small; [assumption| |lia].
    pose proof (Zdigits2_mono_nonneg (current_hp p) (max_hp p) ltac:(lia)).
    lia. }
  rewrite (small_finite _ _ Sq). cbn [rbind].
  assert (small (-46) (Float.of_Z 100)) as Sh by small_const.
  unfold float_of_int. rewrite (small_finite _ _ Sh). cbn [rbind].
  eexists. split; [reflexivity|].
  apply (mul_small 1 (-46)); [exact Sq|exact Sh|lia|lia].
Qed.

(** X5. [get_hp_percentage] raises ZeroDivisionError exactly when max_hp
    is 0 (which the constructor accepts). *)
Theorem get_hp_percentage_error (p : Pokemon) :
  get_hp_percentage p = Raise ZeroDivisionError <-> max_hp p = 0.
Proof.
  unfold get_hp_percentage, int_truediv.
  destruct (Z.eqb_spec (max_hp p) 0) as [H|H]; [tauto|].
  split; [|contradiction].
  destruct (Float.is_finite _); cbn [rbind]; [|discriminate].
  vm_compute (float_of_int 100). cbn [rbind]. discriminate.
Qed.

(** X6. For a combatant with 0 <= current_hp <= max_hp and max_hp not 0,
    however large, [get_hp_percentage] returns a finite float: the quotient
    and its product by 100 never overflow. *)
Theorem get_hp_percentage_returns (p : Pokemon) :
  hp_invariant p -> max_hp p <> 0 ->
  exists x, get_hp_percentage p = Ok x /\ Float.is_finite x = true.
Proof.
  intros Hi Hm. destruct (get_hp_percentage_small p Hi Hm) as (x & Hx & Sx).
  exists x. split; [exact Hx|exact (small_finite _ _ Sx)].
Qed.

Lemma get_hp_percentage_returns_witness :
  exists x, get_hp_percentage (take_damage Charmander 30) = Ok x /\
            Float.is_finite x = true.
Proof.
  apply (get_hp_percentage_returns (take_damage Charmander 30)).
  - unfold hp_invariant. simpl. lia.
  - discriminate.
Defined.

Lemma div_eucl_pair (a b : Z) : Z.div_eucl a b = (a / b, a mod b).
Proof. unfold Z.div, Z.modulo. now destruct (Z.div_eucl a b). Qed.

Lemma div_core_self (m : positive) :
  SFdiv_core_binary Float.prec Float.emax (Zpos m) 0 (Zpos m) 0
  = (2 ^ 53, -53, loc_Exact).
Proof.
  unfold SFdiv_core_binary.
  replace (Zdigits2 (Zpos m) + 0 - (Zdigits2 (Zpos m) + 0)) with 0 by lia.
  change (Z.min (fexp Float.prec Float.emax 0) (0 - 0)) with (-53).
  change (0 - 0 - -53) with 53.
  cbv beta iota zeta.
  rewrite Z.shiftl_mul_pow2 by lia.
  rewrite div_eucl_pair.
  rewrite Z.mul_comm, Z.div_mul, Z.mod_mul by lia.
  unfold new_location, new_location_even, new_location_odd.
  destruct (Z.even (Zpos m)); reflexivity.
Qed.

Lemma int_truediv_self (x : Z) : x <> 0 -> int_truediv x x = Ok f1_0.
Proof.
  intros Hx. unfold int_truediv.
  destruct (Z.eqb_spec x 0) as [|_]; [contradiction|].
  destruct x as [|m|m]; [contradiction| |];
    cbn [Float.exact]; unfold Float.div, SFdiv; rewrite div_core_self;
    vm_compute; reflexivity.
Qed.

(** X7. The health bar at its ends: with max_hp > 0, a combatant at full
    health is shown at exactly 100.0 and a fainted one at exactly 0.0, for
    every max_hp (the float quotient x / x is exactly 1.0). *)
Theorem hp_bar_endpoints (p : Pokemon) :
  0 < max_hp p ->
  (current_hp p = max_hp p -> get_hp_percentage p = Ok f100) /\
  (current_hp p = 0 -> get_hp_percentage p = Ok (Float.exact 0)).
Proof.
  intros Hmax. unfold get_hp_percentage. split; intros ->.
  - rewrite int_truediv_self by lia. vm_compute. reflexivity.
  - unfold int_truediv. destruct (Z.eqb_spec (max_hp p) 0) as [|_]; [lia|].
    destruct (max_hp p) as [|m|m]; [lia| |lia]. vm_compute. reflexivity.
Qed.

Lemma hp_bar_endpoints_witness :
  (current_hp Pikachu = max_hp Pikachu -> get_hp_percentage Pikachu = Ok f100)
  /\ (current_hp Pikachu = 0 ->
      get_hp_percentage Pikachu = Ok (Float.exact 0)).
Proof. apply (hp_bar_endpoints Pikachu). reflexivity. Defined.

(** ** TypeEffectiveness: the chart *)

(** X8. The chart: every multiplier is 0.5, 1.0 or 2.0 (no immunity);
    Normal, attacking or defending, is always 1.0; a super-effective pair is
    never super effective the other way round, nor a type against itself;
    every type but Normal resists itself. *)
Theorem chart_properties (a d : PokemonType) :
  (get_multiplier a d = f0_5 \/ get_multiplier a d = f1_0 \/
   get_multiplier a d = f2_0) /\
  (a = NORMAL \/ d = NORMAL -> get_multiplier a d = f1_0) /\
  (get_multiplier a d = f2_0 -> a <> d /\ get_multiplier d a <> f2_0) /\
  (a <> NORMAL -> get_multiplier a a = f0_5).
Proof.
  destruct a, d; cbn; repeat split; auto; try discriminate;
    try (intros [?|?]; discriminate); try congruence;
    try (intros; discriminate).
Qed.

Lemma multiplier_message_cases (a d : PokemonType) :
  let e := get_multiplier a d in
  (Float.gtb e f1_0 = true /\ Float.eqb e f2_0 = true) \/
  (Float.gtb e f1_0 = false /\ Float.ltb e f1_0 = true /\
   Float.eqb e f2_0 = false /\ Float.eqb e f0_5 = true) \/
  (Float.gtb e f1_0 = false /\ Float.ltb e f1_0 = false /\
   Float.eqb e f2_0 = false /\ Float.eqb e f0_5 = false).
Proof. destruct a, d; vm_compute; auto 10. Qed.

(** ** execute_move: a hit, and the messages *)

Lemma execute_move_hit_state (att def : loc) (m : Move) (isp : bool)
    (roll v : spec_float) (w : PokemonGUI) (a d : Pokemon) (damage : Z) :
  heap w !! att = Some a -> heap w !! def = Some d ->
  calculate_damage a d m roll v = Ok damage -> 1 <= damage ->
  heap (snd (execute_move (Some att) (Some def) m isp roll v w))
  = <[def := take_damage d damage]> (heap w).
Proof.
  intros Ha Hd Hc Hpos.
  rewrite (execute_move_bound att def m isp roll v w a d Ha Hd).
  unfold bind, deref, lift. rewrite Hc.
  assert ((damage =? 0) = false) as -> by lia. cbn [andb].
  unfold store, modify. cbn [heap set_heap].
  rewrite lookup_insert_eq.
  unfold log_message, modify, ret.
  destruct (Float.gtb _ _); [|destruct (Float.ltb _ _)]; cbn beta iota;
    match goal with
    | |- context [update_hp_display ?w0] =>
        pose proof (update_hp_display_state w0) as Hu;
        destruct (update_hp_display w0) as [r w3]; cbn in Hu |- *; subst w3
    end; reflexivity.
Qed.

(** X9. A hit: when [calculate_damage] returns a damage of at least 1,
    [execute_move] leaves the defender with max(0, current_hp - damage),
    strictly less than before for a defender that had health left, and the
    defender is out exactly when the damage reaches its health.  This holds
    whether the display update that follows returns or raises. *)
Theorem execute_move_hit (att def : loc) (m : Move) (isp : bool)
    (roll v : spec_float) (w : PokemonGUI) (a d : Pokemon) (damage : Z) :
  heap w !! att = Some a -> heap w !! def = Some d ->
  calculate_damage a d m roll v = Ok damage -> 1 <= damage ->
  exists d',
    heap (snd (execute_move (Some att) (Some def) m isp roll v w)) !! def
    = Some d' /\
    current_hp d' = Z.max 0 (current_hp d - damage) /\
    (0 < current_hp d -> 0 <= current_hp d' < current_hp d) /\
    (is_alive d' = false <-> current_hp d <= damage).
Proof.
  intros Ha Hd Hc Hpos. exists (take_damage d damage).
  rewrite (execute_move_hit_state _ _ _ _ _ _ _ _ _ _ Ha Hd Hc Hpos).
  rewrite lookup_insert_eq. unfold is_alive, take_damage. cbn [current_hp set_current_hp].
  repeat split; lia.
Qed.

Lemma execute_move_hit_witness :
  exists d',
    heap (snd (execute_move (Some 0%nat) (Some 1%nat)
                 (mkMove "Flamethrower" 90 FIRE f0_9) true (Float.exact 0)
                 f1_0 battle_world)) !! 1%nat = Some d' /\
    current_hp d' = Z.max 0 (current_hp Bulbasaur - 132) /\
    (0 < current_hp Bulbasaur -> 0 <= current_hp d' < current_hp Bulbasaur) /\
    (is_alive d' = false <-> current_hp Bulbasaur <= 132).
Proof.
  apply (execute_move_hit 0%nat 1%nat (mkMove "Flamethrower" 90 FIRE f0_9)
           true (Float.exact 0) f1_0 battle_world Charmander Bulbasaur 132).
  - reflexivity.
  - reflexivity.
  - vm_compute. reflexivity.
  - lia.
Defined.

(** X10. The messages of [execute_move]: after the "uses" line, a damage
    of 0 is reported as "missed!" when the move has power > 0 and as "had no
    effect!" otherwise; a hit is reported with its damage, followed by "It's
    super effective!" exactly for a multiplier of 2.0, "It's not very
    effective..." exactly for 0.5, and nothing for 1.0.  Nothing else is
    logged, and earlier lines are kept. *)
Theorem execute_move_messages (att def : loc) (m : Move) (isp : bool)
    (roll v : spec_float) (w : PokemonGUI) (a d : Pokemon) (damage : Z) :
  heap w !! att = Some a -> heap w !! def = Some d ->
  calculate_damage a d m roll v = Ok damage ->
  let who := if isp then name a else "Enemy " +:+ name a in
  let effectiveness := get_multiplier (move_type m) (pokemon_type d) in
  battle_log (snd (execute_move (Some att) (Some def) m isp roll v w)) =
  battle_log w ++
  [who +:+ " uses " +:+ move_name m +:+ "!"] ++
  (if damage =? 0
   then [move_name m +:+
         (if 0 <? power m then " missed!" else " had no effect!")]
   else [name d +:+ " takes " +:+ pretty damage +:+ " damage!"] ++
        (if Float.eqb effectiveness f2_0 then ["It's super effective!"]
         else if Float.eqb effectiveness f0_5
              then ["It's not very effective..."]
              else [])).
Proof.
  intros Ha Hd Hc. cbv zeta.
  rewrite (execute_move_bound att def m isp roll v w a d Ha Hd).
  unfold bind, deref, lift. rewrite Hc.
  destruct (Z.eqb_spec damage 0) as [->|Hnz]; cbn [andb].
  - destruct (0 <? power m); unfold log_message, modify; cbn;
      now rewrite <- app_assoc.
  - unfold store, modify. cbn [heap set_heap].
    rewrite lookup_insert_eq.
    unfold log_message, modify, ret.
    assert (pokemon_type (take_damage d damage) = pokemon_type d) as ->
      by reflexivity.
    assert (name (take_damage d damage) = name d) as -> by reflexivity.
    destruct (multiplier_message_cases (move_type m) (pokemon_type d))
      as [[-> ->]|[(-> & -> & -> & ->)|(-> & -> & -> & ->)]]; cbn beta iota;
      match goal with
      | |- context [update_hp_display ?w0] =>
          pose proof (update_hp_display_state w0) as Hu;
          destruct (update_hp_display w0) as [r w3]; cbn in Hu |- *; subst w3
      end; destruct r; cbn; rewrite <- ?app_assoc; reflexivity.
Qed.

Lemma execute_move_messages_witness :
  battle_log
    (snd (execute_move (Some 0%nat) (Some 1%nat)
            (mkMove "Flamethrower" 90 FIRE f0_9) true (Float.exact 0) f1_0
            battle_world)) =
  ["Charmander uses Flamethrower!"; "Bulbasaur takes 132 damage!";
   "It's super effective!"].
Proof.
  apply (execute_move_messages 0%nat 1%nat (mkMove "Flamethrower" 90 FIRE f0_9)
           true (Float.exact 0) f1_0 battle_world Charmander Bulbasaur 132).
  - reflexivity.
  - reflexivity.
  - vm_compute. reflexivity.
Defined.

Lemma execute_move_returned (att def : loc) (m : Move) (isp : bool)
    (roll v : spec_float) (w : PokemonGUI) (a d : Pokemon) :
  heap w !! att = Some a -> heap w !! def = Some d ->
  fst (execute_move (Some att) (Some def) m isp roll v w) = Ok tt ->
  exists damage,
    calculate_damage a d m roll v = Ok damage /\
    heap (snd (execute_move (Some att) (Some def) m isp roll v w)) !! def
    = Some (if damage =? 0 then d else take_damage d damage).
Proof.
  intros Ha Hd Hok.
  destruct (calculate_damage a d m roll v) as [damage|x] eqn:Hc.
  2:{ revert Hok. rewrite (execute_move_bound att def m isp roll v w a d Ha Hd).
      unfold bind, lift. rewrite Hc. discriminate. }
  exists damage. split; [reflexivity|].
  destruct (calculate_damage_range a d m roll v damage Hc) as [->|Hpos].
  - destruct (execute_move_effect (Some att) (Some def) m isp roll v w)
      as [_ Hh].
    destruct Hh as [->|(att' & def' & a' & d' & dmg & [= <-] & [= <-] & Ha'
                        & Hd' & Hc' & Hpos & _)]; [exact Hd|].
    rewrite Ha in Ha'. rewrite Hd in Hd'. injection Ha' as <-.
    injection Hd' as <-. rewrite Hc in Hc'. injection Hc' as <-. lia.
  - rewrite (execute_move_hit_state _ _ _ _ _ _ _ _ _ _ Ha Hd Hc Hpos).
    rewrite lookup_insert_eq.
    assert ((damage =? 0) = false) as -> by lia. reflexivity.
Qed.

Lemma execute_move_keeps (attacker defender : option loc) (m : Move)
    (isp : bool) (roll v : spec_float) (w : PokemonGUI) (l : loc)
    (q : Pokemon) :
  heap w !! l = Some q ->
  exists q',
    heap (snd (execute_move attacker defender m isp roll v w)) !! l = Some q' /\
    (defender <> Some l -> q' = q) /\ name q' = name q.
Proof.
  intros Hq.
  destruct (execute_move_effect attacker defender m isp roll v w) as [_ Hh].
  destruct Hh as [->|(att & def & a & d & dmg & _ & -> & _ & Hd & _ & _ & ->)];
    [eauto|].
  destruct (decide (l = def)) as [->|Hne].
  - rewrite lookup_insert_eq. eexists. split; [reflexivity|].
    split; [contradiction|]. assert (d = q) as -> by congruence. reflexivity.
  - rewrite lookup_insert_ne by congruence. eauto.
Qed.

(** ** ai_turn: the selected move *)

Lemma ai_select_move_elem (ms : list Move) (t : PokemonType) (pick : nat)
    (sel : Move) :
  ai_select_move ms t pick = Ok sel ->
  sel ∈ ms /\
  (damaging_moves ms <> [] ->
   0 < power sel /\
   forall m, m ∈ ms -> 0 < power m ->
     Float.gtb (effectiveness_against t m) (effectiveness_against t sel)
     = false).
Proof.
  unfold ai_select_move. pose proof (ai_best_moves_spec ms t) as H.
  destruct (damaging_moves ms) as [|d dm] eqn:Hdm.
  - rewrite H. unfold random_choice.
    destruct (ms !! pick) eqn:E; [|discriminate]. intros [= ->].
    split; [eapply list_elem_of_lookup_2, E|]. intros Hne. now destruct Hne.
  - destruct H as [E Hne].
    destruct (ai_best_moves ms t) as [|b bs] eqn:Hb; [contradiction|].
    unfold random_choice.
    destruct ((b :: bs) !! pick) eqn:El; [|discriminate]. intros [= ->].
    apply list_elem_of_lookup_2 in El. rewrite E in El.
    unfold tied_for_maximum in El. apply list_elem_of_filter in El as [Hmax Hin].
    rewrite <- Hdm in Hin, Hmax. unfold damaging_moves in Hin.
    apply list_elem_of_filter in Hin as [Hpow Hin].
    split; [exact Hin|]. intros _. split; [exact Hpow|].
    intros m Hm Hpm. rewrite Forall_forall in Hmax. apply Hmax.
    unfold damaging_moves. apply list_elem_of_filter. auto.
Qed.

Lemma ai_select_move_valid (ms : list Move) (t : PokemonType) (pick : nat) :
  (pick < length (ai_best_moves ms t))%nat ->
  exists sel, ai_select_move ms t pick = Ok sel.
Proof.
  intros Hlt. unfold ai_select_move, random_choice.
  destruct (ai_best_moves ms t) as [|b bs] eqn:Hb; [cbn in Hlt; lia|].
  destruct (lookup_lt_is_Some_2 (b :: bs) pick Hlt) as [sel ->]. eauto.
Qed.

(** X11. The move [ai_turn] selects is one of the enemy's own moves; when
    the enemy has a move with power > 0 the selected move has power > 0 and
    no move with power > 0 is strictly more effective against the player;
    and an enemy without moves makes the selection raise IndexError. *)
Theorem ai_selected_move (ms : list Move) (t : PokemonType) (pick : nat) :
  (forall sel, ai_select_move ms t pick = Ok sel ->
     sel ∈ ms /\
     (damaging_moves ms <> [] ->
      0 < power sel /\
      forall m, m ∈ ms -> 0 < power m ->
        Float.gtb (effectiveness_against t m) (effectiveness_against t sel)
        = false)) /\
  (ms = [] -> ai_select_move ms t pick = Raise IndexError).
Proof.
  split; [intros sel; apply ai_select_move_elem|].
  intros ->. reflexivity.
Qed.

(** ** select_pokemon, start_battle, new_battle *)

Lemma select_pokemon_state (pokemon : Pokemon) (w : PokemonGUI) :
  let w' := snd (select_pokemon pokemon w) in
  exists l, heap w !! l = None /\
    player_pokemon w' = Some l /\
    heap w' = <[l := copy_of pokemon]> (heap w) /\
    current_hp (copy_of pokemon) = max_hp pokemon /\
    enemy_pokemon w' = enemy_pokemon w /\
    battle_active w' = battle_active w /\ player_turn w' = player_turn w.
Proof.
  exists (fresh (dom (heap w))).
  split. { apply not_elem_of_dom. apply is_fresh. }
  unfold select_pokemon, bind, alloc, modify.
  unfold set_player_pokemon, set_heap.
  cbn [heap player_pokemon enemy_pokemon battle_active player_turn
       battle_log scheduled].
  match goal with
  | |- context [update_hp_display ?w0] =>
      pose proof (update_hp_display_state w0) as Hu;
      destruct (update_hp_display w0) as [r w3]; cbn in Hu; subst w3
  end.
  destruct r; [|cbn; auto 10].
  unfold deref. cbn [heap]. rewrite lookup_insert_eq.
  cbn. auto 10.
Qed.

(** X12. [select_pokemon] makes the player a new object, a copy of the
    template at full health (current_hp = the template's max_hp), aliased
    with no object in use; every object in use, the template's own included,
    stays as it was, and neither the enemy nor the battle flags are
    touched.  This is the state left behind whether the display update
    returns or raises. *)
Theorem select_pokemon_copy (pokemon : Pokemon) (w : PokemonGUI) :
  let w' := snd (select_pokemon pokemon w) in
  exists l,
    heap w !! l = None /\ player_pokemon w' = Some l /\
    heap w' !! l = Some (copy_of pokemon) /\
    current_hp (copy_of pokemon) = max_hp pokemon /\
    (forall l' q, heap w !! l' = Some q -> heap w' !! l' = Some q) /\
    enemy_pokemon w' = enemy_pokemon w /\
    battle_active w' = battle_active w /\ player_turn w' = player_turn w.
Proof.
  destruct (select_pokemon_state pokemon w)
    as (l & Hfresh & Hp & Hh & Hc & He & Ha & Ht).
  exists l. cbv zeta. rewrite Hh.
  repeat split; try assumption.
  - apply lookup_insert_eq.
  - intros l' q Hq. rewrite lookup_insert_ne; [exact Hq|]. congruence.
Qed.

Lemma start_battle_state (enemy_pick : nat) (w : PokemonGUI) (lp : loc)
    (p e : Pokemon) :
  player_pokemon w = Some lp -> heap w !! lp = Some p ->
  pokemon_roster !! enemy_pick = Some e ->
  let w' := snd (start_battle enemy_pick w) in
  exists le, le <> lp /\ heap w !! le = None /\
    enemy_pokemon w' = Some le /\ player_pokemon w' = Some lp /\
    heap w' = <[le := copy_of e]> (heap w) /\
    heap w' !! lp = Some p /\ battle_active w' = true.
Proof.
  intros Hlp Hp He. exists (fresh (dom (heap w))).
  assert (fresh (dom (heap w)) <> lp) as Hne by (eapply alloc_fresh; eauto).
  split; [exact Hne|].
  split. { apply not_elem_of_dom. apply is_fresh. }
  unfold start_battle, bind, get. rewrite Hlp.
  unfold lift, random_choice. rewrite He.
  unfold alloc, modify, deref.
  unfold set_battle_active, set_enemy_pokemon, set_player_turn, set_heap.
  cbn [heap player_pokemon enemy_pokemon battle_active player_turn
       battle_log scheduled].
  rewrite lookup_insert_ne by exact Hne.
  rewrite Hp. cbn beta iota.
  unfold set_battle_active, set_enemy_pokemon, set_player_turn, set_heap.
  cbn [heap player_pokemon enemy_pokemon battle_active player_turn
       battle_log scheduled].
  rewrite lookup_insert_eq.
  assert (<[fresh (dom (heap w)) := copy_of e]> (heap w) !! lp = Some p) as Hp'
    by (rewrite lookup_insert_ne by exact Hne; exact Hp).
  match goal with
  | |- context [update_hp_display ?w0] =>
      pose proof (update_hp_display_state w0) as Hu;
      destruct (update_hp_display w0) as [r w3]; cbn in Hu; subst w3
  end.
  destruct r; [|cbn; auto 10].
  match goal with
  | |- context [update_move_buttons ?w0] =>
      pose proof (update_move_buttons_state w0) as Hu;
      destruct (update_move_buttons w0) as [r w3]; cbn in Hu; subst w3
  end.
  destruct r; [|cbn; auto 10].
  unfold log_message, root_after, modify, bind. cbn.
  destruct (speed e <=? speed p); cbn; auto 10.
Qed.

Lemma start_battle_without_player (enemy_pick : nat) (w : PokemonGUI) :
  player_pokemon w = None -> start_battle enemy_pick w = (Ok tt, w).
Proof. intros H. unfold start_battle, bind, get. rewrite H. reflexivity. Qed.

(** X13. [start_battle] with a player selected and a roster entry drawn:
    the enemy is a new object, a full-health copy of the drawn entry,
    different from the player's object (also when the same entry was drawn);
    the battle becomes active; the player's object is kept as it is, so its
    health is not restored when a battle is started again. *)
Theorem start_battle_enemy (enemy_pick : nat) (w : PokemonGUI) (lp : loc)
    (p e : Pokemon) :
  player_pokemon w = Some lp -> heap w !! lp = Some p ->
  pokemon_roster !! enemy_pick = Some e ->
  let w' := snd (start_battle enemy_pick w) in
  exists le,
    le <> lp /\ heap w !! le = None /\
    enemy_pokemon w' = Some le /\ heap w' !! le = Some (copy_of e) /\
    current_hp (copy_of e) = max_hp e /\
    player_pokemon w' = Some lp /\ heap w' !! lp = Some p /\
    battle_active w' = true.
Proof.
  intros Hlp Hp He.
  destruct (start_battle_state enemy_pick w lp p e Hlp Hp He)
    as (le & Hne & Hfresh & Hen & Hpl & Hh & Hp' & Ha).
  exists le. cbv zeta. rewrite Hh in *.
  repeat split; try assumption.
  apply lookup_insert_eq.
Qed.

Lemma start_battle_enemy_witness :
  let w' := snd (start_battle 0 battle_world) in
  exists le,
    le <> 0%nat /\ heap battle_world !! le = None /\
    enemy_pokemon w' = Some le /\ heap w' !! le = Some (copy_of Charmander) /\
    current_hp (copy_of Charmander) = max_hp Charmander /\
    player_pokemon w' = Some 0%nat /\ heap w' !! 0%nat = Some Charmander /\
    battle_active w' = true.
Proof.
  apply (start_battle_enemy 0 battle_world 0%nat Charmander Charmander);
    reflexivity.
Defined.

(** X14. [new_battle] drops both combatants, ends the battle, gives the
    turn to the player and leaves the one line "Ready for a new battle!" in
    the log; it does not cancel a pending [ai_turn] timer, and in the state
    it leaves a late [ai_turn], a [use_move] and a [start_battle] all return
    without any effect. *)
Theorem stale_calls_after_new_battle (w : PokemonGUI) (m : Move) (pick : nat)
    (roll v : spec_float) :
  let w' := snd (new_battle w) in
  player_pokemon w' = None /\ enemy_pokemon w' = None /\
  battle_active w' = false /\ player_turn w' = true /\
  heap w' = heap w /\ scheduled w' = scheduled w /\
  battle_log w' = ["Ready for a new battle!"] /\
  ai_turn pick roll v w' = (Ok tt, w') /\
  use_move m roll v w' = (Ok tt, w') /\
  start_battle pick w' = (Ok tt, w').
Proof. repeat split; reflexivity. Qed.

(** ** use_move and ai_turn: one turn *)

Lemma use_move_ignored (m : Move) (roll v : spec_float) (w : PokemonGUI) :
  battle_active w = false \/ player_turn w = false ->
  use_move m roll v w = (Ok tt, w).
Proof.
  intros H. unfold use_move, bind, get.
  destruct H as [-> | ->]; [reflexivity|].
  now rewrite orb_true_r.
Qed.

Lemma ai_turn_ignored (pick : nat) (roll v : spec_float) (w : PokemonGUI) :
  battle_active w = false \/ player_turn w = true ->
  ai_turn pick roll v w = (Ok tt, w).
Proof.
  intros H. unfold ai_turn, bind, get.
  destruct H as [-> | ->]; [reflexivity|].
  now rewrite orb_true_r.
Qed.

Lemma use_move_unfold (m : Move) (roll v : spec_float) (w : PokemonGUI)
    (lp le : loc) (p e : Pokemon) :
  battle_active w = true -> player_turn w = true ->
  player_pokemon w = Some lp -> enemy_pokemon w = Some le ->
  heap w !! lp = Some p -> heap w !! le = Some e ->
  use_move m roll v w =
  (let (r, w1) := execute_move (Some lp) (Some le) m true roll v w in
   match r with
   | Raise x => (Raise x, w1)
   | Ok _ =>
       match heap w1 !! le with
       | None => (Raise AttributeError, w1)
       | Some e1 =>
           if negb (is_alive e1) then end_battle true w1
           else (Ok tt, set_scheduled (set_player_turn w1 false)
                          (scheduled w1 ++ [(1500, cb_ai_turn)]))
       end
   end).
Proof.
  intros Ha Ht Hlp Hle Hp He.
  unfold use_move. unfold bind at 1, get at 1. rewrite Ha, Ht. cbn [negb orb].
  rewrite Hlp, Hle. unfold bind at 1.
  destruct (execute_move_effect (Some lp) (Some le) m true roll v w)
    as [(_ & He1 & _) _].
  destruct (execute_move (Some lp) (Some le) m true roll v w)
    as [[[]|x] w1]; [|reflexivity].
  cbn [snd] in He1.
  unfold bind at 1, get at 1. unfold bind at 1. rewrite He1, Hle.
  unfold deref_opt, bind, deref, ret.
  destruct (heap w1 !! le) as [e1|]; [|reflexivity]. cbn [snd].
  destruct (negb (is_alive e1)); reflexivity.
Qed.

(** An enemy without a move of power > 0 selects among all its moves,
    whatever the player's type. *)
Lemma ai_select_move_no_power (ms : list Move) (t : PokemonType) (pick : nat) :
  existsb (fun move => 0 <? power move) ms = false ->
  ai_select_move ms t pick = random_choice ms pick.
Proof.
  intros Hex.
  assert (damaging_moves ms = []) as Hnil.
  { unfold damaging_moves. induction ms as [|m ms IH]; [reflexivity|].
    cbn [existsb] in Hex. apply orb_false_iff in Hex as [Hm Hms].
    rewrite filter_cons. destruct (decide (0 < power m)); [lia|]. auto. }
  pose proof (ai_best_moves_spec ms t) as H. rewrite Hnil in H.
  unfold ai_select_move. rewrite H. reflexivity.
Qed.

Lemma ai_turn_unfold (pick : nat) (roll v : spec_float) (w : PokemonGUI)
    (lp le : loc) (p e : Pokemon) :
  battle_active w = true -> player_turn w = false ->
  player_pokemon w = Some lp -> enemy_pokemon w = Some le ->
  heap w !! lp = Some p -> heap w !! le = Some e ->
  ai_turn pick roll v w =
  match ai_select_move (moves e) (pokemon_type p) pick with
  | Raise x => (Raise x, w)
  | Ok selected_move =>
      let (r, w1) :=
        execute_move (Some le) (Some lp) selected_move false roll v w in
      match r with
      | Raise x => (Raise x, w1)
      | Ok _ =>
          match heap w1 !! lp with
          | None => (Raise AttributeError, w1)
          | Some p1 =>
              if negb (is_alive p1) then end_battle false w1
              else (fst (update_move_buttons (set_player_turn w1 true)),
                    set_player_turn w1 true)
          end
      end
  end.
Proof.
  intros Ha Ht Hlp Hle Hp He.
  unfold ai_turn. unfold bind at 1, get at 1. rewrite Ha, Ht. cbn [negb orb].
  rewrite Hlp, Hle. unfold bind at 1. unfold deref_opt at 1.
  unfold bind at 1, deref at 1, ret at 1. rewrite He. cbn [fst snd].
  assert (forall k : Move -> GUI unit,
            bind (if existsb (fun move => 0 <? power move) (moves e)
                  then lp0 <- deref_opt (Some lp) ;
                       lift (ai_select_move (moves e)
                               (pokemon_type (snd lp0)) pick)
                  else lift (random_choice (moves e) pick)) k w
            = bind (lift (ai_select_move (moves e) (pokemon_type p) pick)) k w)
    as ->.
  { intros k. destruct (existsb _ (moves e)) eqn:Hex.
    - unfold deref_opt, bind, deref, ret, lift. rewrite Hp. reflexivity.
    - rewrite (ai_select_move_no_power _ (pokemon_type p) _ Hex). reflexivity. }
  unfold bind at 1, lift at 1.
  destruct (ai_select_move (moves e) (pokemon_type p) pick) as [sel|x];
    [|reflexivity].
  unfold bind at 1.
  destruct (execute_move_effect (Some le) (Some lp) sel false roll v w)
    as [(Hp1 & _) _].
  destruct (execute_move (Some le) (Some lp) sel false roll v w)
    as [[[]|x] w1]; [|reflexivity].
  cbn [snd] in Hp1.
  unfold bind at 1, get at 1. unfold bind at 1. rewrite Hp1, Hlp.
  unfold deref_opt, bind, deref, ret.
  destruct (heap w1 !! lp) as [p1|]; [|reflexivity]. cbn [snd].
  destruct (negb (is_alive p1)); [reflexivity|].
  unfold modify. cbn beta iota.
  pose proof (update_move_buttons_state (set_player_turn w1 true)) as Hu.
  destruct (update_move_buttons (set_player_turn w1 true)) as [r w3].
  cbn in Hu. subst w3. reflexivity.
Qed.

Lemma end_battle_result (player_won : bool) (w : PokemonGUI) (lp : loc)
    (p : Pokemon) :
  player_pokemon w = Some lp -> heap w !! lp = Some p ->
  end_battle player_won w =
  (Ok tt,
   set_battle_log (set_battle_active w false)
     (battle_log w ++
      [if player_won then "ðŸŽ‰ " +:+ name p +:+ " wins!"
       else "ðŸ’€ " +:+ name p +:+ " fainted!"])).
Proof.
  intros Hlp Hp.
  unfold end_battle, bind, modify, get, deref_opt, set_battle_active.
  cbn [player_pokemon]. rewrite Hlp.
  unfold bind, deref, ret. cbn [heap]. rewrite Hp.
  cbn [snd]. destruct player_won; reflexivity.
Qed.

(** X15. One turn of the player.  In an active battle on the player's turn,
    between two distinct objects, a [use_move] that returns has resolved
    exactly one move against the enemy: the enemy lost the computed damage
    (nothing for a damage of 0), the player's object is untouched, and
    either the enemy still has health, the battle stays active, the turn
    passes to the enemy and one [ai_turn] is scheduled after 1500 ms; or the
    enemy has none, the battle ends at once, nothing is scheduled and the
    last log line is the one [end_battle] writes: the four characters and
    the space the source's f-string starts with, the name of the player's
    combatant and " wins!".  In both cases a further [use_move] does
    nothing: the player never moves twice in a row. *)
Theorem use_move_outcome (m : Move) (roll v : spec_float) (w : PokemonGUI)
    (lp le : loc) (p e : Pokemon) :
  battle_active w = true -> player_turn w = true ->
  player_pokemon w = Some lp -> enemy_pokemon w = Some le -> lp <> le ->
  heap w !! lp = Some p -> heap w !! le = Some e ->
  fst (use_move m roll v w) = Ok tt ->
  let w' := snd (use_move m roll v w) in
  exists damage,
    calculate_damage p e m roll v = Ok damage /\
    let e' := if damage =? 0 then e else take_damage e damage in
    heap w' !! le = Some e' /\ heap w' !! lp = Some p /\
    (if is_alive e'
     then battle_active w' = true /\ player_turn w' = false /\
          scheduled w' = scheduled w ++ [(1500, cb_ai_turn)]
     else battle_active w' = false /\ player_turn w' = true /\
          scheduled w' = scheduled w /\
          last (battle_log w') = Some ("ðŸŽ‰ " +:+ name p +:+ " wins!")) /\
    (forall m' roll' v', use_move m' roll' v' w' = (Ok tt, w')).
Proof.
  intros Ha Ht Hlp Hle Hne Hp He Hok.
  assert (fst (execute_move (Some lp) (Some le) m true roll v w) = Ok tt) as Hex.
  { revert Hok.
    rewrite (use_move_unfold m roll v w lp le p e Ha Ht Hlp Hle Hp He).
    destruct (execute_move (Some lp) (Some le) m true roll v w) as [[[]|x] w1];
      [reflexivity|discriminate]. }
  destruct (execute_move_returned lp le m true roll v w p e Hp He Hex)
    as (damage & Hc & He1').
  exists damage. split; [exact Hc|]. cbv zeta.
  set (e1 := if damage =? 0 then e else take_damage e damage) in *.
  clearbody e1. clear Hok.
  rewrite (use_move_unfold m roll v w lp le p e Ha Ht Hlp Hle Hp He).
  destruct (execute_move_effect (Some lp) (Some le) m true roll v w)
    as [(Hp1 & He1 & Ha1 & Ht1 & Hs1) _].
  destruct (execute_move_keeps (Some lp) (Some le) m true roll v w lp p Hp)
    as (p1 & Hp1' & Hsame & _).
  rewrite (Hsame ltac:(congruence)) in Hp1'. clear Hsame p1.
  destruct (execute_move (Some lp) (Some le) m true roll v w) as [r w1]. cbn [fst snd] in *.
  subst r. rewrite He1'.
  rewrite Hlp in Hp1.
  destruct (is_alive e1) eqn:Halive; cbn [negb].
  - cbn [snd heap battle_active player_turn scheduled battle_log set_scheduled
         set_player_turn set_battle_log set_battle_active].
    repeat split; try assumption; try congruence;
      intros; apply use_move_ignored; right; reflexivity.
  - rewrite (end_battle_result true w1 lp p Hp1 Hp1').
    cbn [snd heap battle_active player_turn scheduled battle_log set_scheduled
         set_player_turn set_battle_log set_battle_active].
    repeat split; try assumption; try congruence; try apply last_snoc;
      intros; apply use_move_ignored; left; reflexivity.
Qed.

Lemma use_move_outcome_witness :
  let w' := snd (use_move (mkMove "Flamethrower" 90 FIRE f0_9) (Float.exact 0) f1_0 battle_world) in
  exists damage,
    calculate_damage Charmander Bulbasaur (mkMove "Flamethrower" 90 FIRE f0_9) (Float.exact 0) f1_0 = Ok damage /\
    let e' := if damage =? 0 then Bulbasaur else take_damage Bulbasaur damage in
    heap w' !! 1%nat = Some e' /\ heap w' !! 0%nat = Some Charmander /\
    (if is_alive e'
     then battle_active w' = true /\ player_turn w' = false /\
          scheduled w' = scheduled battle_world ++ [(1500, cb_ai_turn)]
     else battle_active w' = false /\ player_turn w' = true /\
          scheduled w' = scheduled battle_world /\
          last (battle_log w')
          = Some ("ðŸŽ‰ " +:+ name Charmander +:+ " wins!")) /\
    (forall m' roll' v', use_move m' roll' v' w' = (Ok tt, w')).
Proof.
  apply (use_move_outcome (mkMove "Flamethrower" 90 FIRE f0_9) (Float.exact 0)
           f1_0 battle_world 0%nat 1%nat Charmander Bulbasaur);
    try reflexivity.
  discriminate.
Defined.

(** X16. One turn of the enemy.  In an active battle on the enemy's turn,
    an [ai_turn] that returns has resolved exactly one move, the selected
    one, against the player: the player lost the computed damage, the
    enemy's object is untouched, and either the player still has health, the
    battle stays active and the turn is the player's; or it has none, the
    battle ends at once and the last log line is the one [end_battle]
    writes: the four characters and the space the source's f-string starts
    with, the name of the player's combatant and " fainted!".  Nothing is
    scheduled, and a further [ai_turn] (a stale timer) does nothing: the
    enemy never moves twice in a row. *)
Theorem ai_turn_outcome (pick : nat) (roll v : spec_float) (w : PokemonGUI)
    (lp le : loc) (p e : Pokemon) :
  battle_active w = true -> player_turn w = false ->
  player_pokemon w = Some lp -> enemy_pokemon w = Some le -> lp <> le ->
  heap w !! lp = Some p -> heap w !! le = Some e ->
  fst (ai_turn pick roll v w) = Ok tt ->
  let w' := snd (ai_turn pick roll v w) in
  exists selected_move damage,
    ai_select_move (moves e) (pokemon_type p) pick = Ok selected_move /\
    calculate_damage e p selected_move roll v = Ok damage /\
    let p' := if damage =? 0 then p else take_damage p damage in
    heap w' !! lp = Some p' /\ heap w' !! le = Some e /\
    (if is_alive p'
     then battle_active w' = true /\ player_turn w' = true
     else battle_active w' = false /\ player_turn w' = false /\
          last (battle_log w') = Some ("ðŸ’€ " +:+ name p +:+ " fainted!")) /\
    scheduled w' = scheduled w /\
    (forall pick' roll' v', ai_turn pick' roll' v' w' = (Ok tt, w')).
Proof.
  intros Ha Ht Hlp Hle Hne Hp He Hok.
  pose proof (ai_turn_unfold pick roll v w lp le p e Ha Ht Hlp Hle Hp He) as U.
  destruct (ai_select_move (moves e) (pokemon_type p) pick) as [sel|x];
    [|rewrite U in Hok; discriminate].
  exists sel.
  assert (fst (execute_move (Some le) (Some lp) sel false roll v w) = Ok tt) as Hex.
  { revert Hok. rewrite U.
    destruct (execute_move (Some le) (Some lp) sel false roll v w) as [[[]|x] w1];
      [reflexivity|discriminate]. }
  destruct (execute_move_returned le lp sel false roll v w e p He Hp Hex)
    as (damage & Hc & Hp1').
  exists damage. split; [reflexivity|]. split; [exact Hc|]. cbv zeta.
  assert (name (if damage =? 0 then p else take_damage p damage) = name p)
    as Hname by (destruct (damage =? 0); reflexivity).
  set (p1 := if damage =? 0 then p else take_damage p damage) in *.
  clearbody p1. clear Hok. rewrite U. clear U.
  destruct (execute_move_effect (Some le) (Some lp) sel false roll v w)
    as [(Hp1 & He1 & Ha1 & Ht1 & Hs1) _].
  destruct (execute_move_keeps (Some le) (Some lp) sel false roll v w le e He)
    as (e1 & He1' & Hsame & _).
  rewrite (Hsame ltac:(congruence)) in He1'. clear Hsame e1.
  destruct (execute_move (Some le) (Some lp) sel false roll v w) as [r w1].
  cbn [fst snd] in *.
  subst r. rewrite Hp1'.
  rewrite Hlp in Hp1.
  destruct (is_alive p1) eqn:Halive; cbn [negb].
  - cbn [snd heap battle_active player_turn scheduled battle_log set_scheduled
         set_player_turn set_battle_log set_battle_active].
    repeat split; try assumption; try congruence;
      intros; apply ai_turn_ignored; right; reflexivity.
  - rewrite (end_battle_result false w1 lp p1 Hp1 Hp1').
    cbn [snd heap battle_active player_turn scheduled battle_log set_scheduled
         set_player_turn set_battle_log set_battle_active].
    repeat split; try assumption; try congruence;
      try (rewrite <- Hname; apply last_snoc);
      intros; apply ai_turn_ignored; left; reflexivity.
Qed.

Lemma ai_turn_outcome_witness :
  let w' := snd (ai_turn 0%nat (Float.exact 0) f1_0 enemy_turn_world) in
  exists selected_move damage,
    ai_select_move (moves Bulbasaur) (pokemon_type Charmander) 0%nat = Ok selected_move /\
    calculate_damage Bulbasaur Charmander selected_move (Float.exact 0) f1_0 = Ok damage /\
    let p' := if damage =? 0 then Charmander else take_damage Charmander damage in
    heap w' !! 0%nat = Some p' /\ heap w' !! 1%nat = Some Bulbasaur /\
    (if is_alive p'
     then battle_active w' = true /\ player_turn w' = true
     else battle_active w' = false /\ player_turn w' = false /\
          last (battle_log w')
          = Some ("ðŸ’€ " +:+ name Charmander +:+ " fainted!")) /\
    scheduled w' = scheduled enemy_turn_world /\
    (forall pick' roll' v', ai_turn pick' roll' v' w' = (Ok tt, w')).
Proof.
  apply (ai_turn_outcome 0%nat (Float.exact 0) f1_0 enemy_turn_world 0%nat
           1%nat Charmander Bulbasaur);
    try reflexivity.
  discriminate.
Defined.

(** ** The states of the window: what every callback keeps *)

Lemma same_objects_refl (w : PokemonGUI) : same_objects w w.
Proof. unfold same_objects. auto. Qed.

Lemma same_objects_trans (w1 w2 w3 : PokemonGUI) :
  same_objects w1 w2 -> same_objects w2 w3 -> same_objects w1 w3.
Proof.
  unfold same_objects. intros (A1 & B1 & C1 & D1) (A2 & B2 & C2 & D2).
  repeat split; try congruence. auto.
Qed.

Lemma well_formed_same_objects (w w' : PokemonGUI) :
  same_objects w w' -> well_formed w -> well_formed w'.
Proof.
  intros (Hp & He & Hd & Ha) (W1 & W2 & W3 & W4).
  unfold well_formed. rewrite Hp, He.
  repeat split.
  - intros l Hl. apply elem_of_dom. rewrite Hd. apply elem_of_dom. auto.
  - intros l Hl. apply elem_of_dom. rewrite Hd. apply elem_of_dom. auto.
  - exact W3.
  - apply W4; auto.
  - apply W4; auto.
Qed.

Lemma execute_move_same_objects (attacker defender : option loc) (m : Move)
    (isp : bool) (roll v : spec_float) (w : PokemonGUI) :
  same_objects w (snd (execute_move attacker defender m isp roll v w)).
Proof.
  destruct (execute_move_effect attacker defender m isp roll v w)
    as [(Hp & He & Ha & _ & _) Hh].
  unfold same_objects. repeat split; auto; try congruence.
  destruct Hh as [->|(att & def & a & d & dmg & _ & _ & _ & Hd & _ & _ & ->)];
    [reflexivity|].
  rewrite dom_insert_L. apply elem_of_dom_2 in Hd.
  apply subseteq_union_1_L, singleton_subseteq_l, Hd.
Qed.

Lemma end_battle_same_objects (player_won : bool) (w : PokemonGUI) :
  same_objects w (snd (end_battle player_won w)) /\
  battle_active (snd (end_battle player_won w)) = false.
Proof.
  unfold end_battle, bind, modify, get, deref_opt, raise.
  unfold set_battle_active. cbn [player_pokemon].
  destruct (player_pokemon w) as [l|] eqn:Hl; cbn.
  - unfold bind, deref. cbn [heap].
    destruct (heap w !! l); cbn; [destruct player_won; cbn|];
      unfold same_objects; cbn; repeat split; auto; discriminate.
  - unfold same_objects; cbn; repeat split; auto; discriminate.
Qed.

Lemma select_pokemon_well_formed (pokemon : Pokemon) (w : PokemonGUI) :
  well_formed w -> well_formed (snd (select_pokemon pokemon w)).
Proof.
  intros (W1 & W2 & W3 & W4).
  destruct (select_pokemon_state pokemon w)
    as (l & Hfresh & Hp & Hh & _ & He & Ha & _).
  unfold well_formed. rewrite Hp, He, Ha, Hh.
  repeat split.
  - intros l' [= <-]. rewrite lookup_insert_eq. eauto.
  - intros l' Hl'. destruct (W2 l' Hl') as [x Hx].
    rewrite lookup_insert_ne; [eauto|]. congruence.
  - intros l1 l2 [= <-] Hl2. destruct (W2 l2 Hl2) as [x Hx]. congruence.
  - eauto.
  - apply W4; auto.
Qed.

Lemma start_battle_well_formed (enemy_pick : nat) (w : PokemonGUI) :
  well_formed w -> well_formed (snd (start_battle enemy_pick w)).
Proof.
  intros W. pose proof W as (W1 & W2 & W3 & W4).
  destruct (player_pokemon w) as [lp|] eqn:Hlp.
  2:{ rewrite start_battle_without_player by exact Hlp. exact W. }
  destruct (W1 lp eq_refl) as [p Hp].
  destruct (pokemon_roster !! enemy_pick) as [e|] eqn:He.
  2:{ unfold start_battle, bind, get. rewrite Hlp.
      unfold lift, random_choice. rewrite He. exact W. }
  destruct (start_battle_state enemy_pick w lp p e Hlp Hp He)
    as (le & Hne & Hfresh & Hen & Hpl & Hh & Hp' & _).
  unfold well_formed. rewrite Hen, Hpl, Hh.
  repeat split.
  - intros l [= <-]. rewrite lookup_insert_ne by exact Hne. eauto.
  - intros l [= <-]. rewrite lookup_insert_eq. eauto.
  - intros l1 l2 [= <-] [= <-]. congruence.
  - eauto.
  - eauto.
Qed.

Lemma new_battle_well_formed (w : PokemonGUI) :
  well_formed w -> well_formed (snd (new_battle w)).
Proof.
  intros _. unfold well_formed. cbn. repeat split; intros; discriminate.
Qed.

Lemma init_well_formed : well_formed PokemonGUI_init.
Proof. unfold well_formed. cbn. repeat split; intros; discriminate. Qed.

Lemma roster_cases (P : Pokemon -> Prop) :
  P Charmander -> P Squirtle -> P Bulbasaur -> P Pikachu -> P Eevee ->
  forall t, t ∈ pokemon_roster -> P t.
Proof.
  intros H1 H2 H3 H4 H5 t Ht. unfold pokemon_roster in Ht.
  repeat (apply elem_of_cons in Ht as [->|Ht]; [assumption|]).
  now apply elem_of_nil in Ht.
Qed.

Lemma roster_stats_hold (t : Pokemon) : t ∈ pokemon_roster -> roster_stats t.
Proof.
  revert t. apply roster_cases; unfold roster_stats;
    (split; [reflexivity|]); (split; [reflexivity|]);
    (split; [discriminate|]); (split; [reflexivity|]);
    (split; [reflexivity|]);
    (split; [repeat constructor|]);
    intros []; vm_compute; discriminate.
Qed.

Lemma roster_copy (t : Pokemon) : t ∈ pokemon_roster -> roster_object (copy_of t).
Proof.
  intros Ht. exists t. split; [exact Ht|].
  destruct (roster_stats_hold t Ht) as (Hc & Hm & _).
  unfold copy_of, Pokemon_init, set_current_hp. cbn [current_hp].
  split; [|lia]. destruct t; cbn in *. now subst.
Qed.

Lemma roster_object_facts (p : Pokemon) :
  roster_object p ->
  hp_invariant p /\ max_hp p <> 0 /\ defense p <> 0 /\
  Z.abs (attack p) < 2 ^ 400 /\ length (moves p) = 4%nat /\
  (forall m, m ∈ moves p -> Z.abs (power m) < 2 ^ 400) /\
  (forall ty, ai_best_moves (moves p) ty <> []).
Proof.
  intros (t & Ht & Hp & Hr).
  destruct (roster_stats_hold t Ht) as (Hc & Hm & Hd & Ha & Hl & Hf & Hb).
  rewrite Hp. unfold hp_invariant, set_current_hp.
  cbn [current_hp max_hp defense attack moves].
  repeat split; try lia; try assumption.
  intros m Hm'. rewrite Forall_forall in Hf. auto.
Qed.

Lemma roster_take_damage (p : Pokemon) (damage : Z) :
  0 <= damage -> roster_object p -> roster_object (take_damage p damage).
Proof.
  intros Hd (t & Ht & Hp & Hr). exists t. split; [exact Ht|].
  unfold take_damage. cbn [set_current_hp current_hp].
  split; [|lia]. rewrite Hp at 1. reflexivity.
Qed.

Lemma sane_ext (w w' : PokemonGUI) :
  heap w' = heap w -> player_pokemon w' = player_pokemon w ->
  enemy_pokemon w' = enemy_pokemon w ->
  (battle_active w' = true -> battle_active w = true) ->
  sane w -> sane w'.
Proof.
  intros Hh Hp He Ha [W R]. split.
  - apply (well_formed_same_objects w); [|exact W].
    unfold same_objects. rewrite Hh. auto.
  - rewrite Hh. exact R.
Qed.

Lemma sane_same_objects (w w' : PokemonGUI) :
  same_objects w w' ->
  map_Forall (fun _ p => roster_object p) (heap w') ->
  sane w -> sane w'.
Proof.
  intros Hs Hr [W _]. split; [|exact Hr].
  exact (well_formed_same_objects w w' Hs W).
Qed.

Lemma execute_move_roster (attacker defender : option loc) (m : Move)
    (isp : bool) (roll v : spec_float) (w : PokemonGUI) :
  map_Forall (fun _ p => roster_object p) (heap w) ->
  map_Forall (fun _ p => roster_object p)
    (heap (snd (execute_move attacker defender m isp roll v w))).
Proof.
  intros Hr.
  destruct (execute_move_effect attacker defender m isp roll v w) as [_ Hh].
  destruct Hh as [->|(att & def & a & d & dmg & _ & _ & _ & Hd & _ & Hpos & ->)];
    [exact Hr|].
  apply map_Forall_insert_2; [|exact Hr].
  apply roster_take_damage; [lia|]. exact (Hr _ _ Hd).
Qed.

Lemma execute_move_sane (attacker defender : option loc) (m : Move)
    (isp : bool) (roll v : spec_float) (w : PokemonGUI) :
  sane w -> sane (snd (execute_move attacker defender m isp roll v w)).
Proof.
  intros S. apply (sane_same_objects w); [|apply execute_move_roster, S|exact S].
  apply execute_move_same_objects.
Qed.

Lemma sane_refs (w : PokemonGUI) :
  sane w -> battle_active w = true ->
  exists lp le p e,
    player_pokemon w = Some lp /\ enemy_pokemon w = Some le /\ lp <> le /\
    heap w !! lp = Some p /\ heap w !! le = Some e /\
    roster_object p /\ roster_object e.
Proof.
  intros [(W1 & W2 & W3 & W4) R] Ha.
  destruct (W4 Ha) as [[lp Hlp] [le Hle]].
  destruct (W1 lp Hlp) as [p Hp]. destruct (W2 le Hle) as [e He].
  exists lp, le, p, e. repeat split; eauto.
Qed.

Lemma use_move_sane (m : Move) (roll v : spec_float) (w : PokemonGUI) :
  sane w -> sane (snd (use_move m roll v w)).
Proof.
  intros S.
  destruct (battle_active w) eqn:Ha;
    [|rewrite use_move_ignored by auto; exact S].
  destruct (player_turn w) eqn:Ht;
    [|rewrite use_move_ignored by auto; exact S].
  destruct (sane_refs w S Ha) as (lp & le & p & e & Hlp & Hle & _ & Hp & He & _).
  rewrite (use_move_unfold m roll v w lp le p e Ha Ht Hlp Hle Hp He).
  pose proof (execute_move_sane (Some lp) (Some le) m true roll v w S) as S1.
  pose proof (execute_move_same_objects (Some lp) (Some le) m true roll v w) as O1.
  destruct (execute_move (Some lp) (Some le) m true roll v w) as [[[]|x] w1];
    cbn [snd] in *; [|exact S1].
  destruct (heap w1 !! le) as [e1|]; [|exact S1].
  destruct (negb (is_alive e1)).
  - destruct (end_battle_same_objects true w1) as [O2 _].
    apply (sane_same_objects w1); [exact O2| |exact S1].
    destruct O1 as (Hp1 & _). 
    destruct S1 as [(W1 & _) R1].
    rewrite Hlp in Hp1. destruct (W1 lp Hp1) as [p1 Hp1'].
    rewrite (end_battle_result true w1 lp p1 Hp1 Hp1'). exact R1.
  - apply (sane_ext w1); auto.
Qed.

Lemma ai_turn_sane (pick : nat) (roll v : spec_float) (w : PokemonGUI) :
  sane w -> sane (snd (ai_turn pick roll v w)).
Proof.
  intros S.
  destruct (battle_active w) eqn:Ha;
    [|rewrite ai_turn_ignored by auto; exact S].
  destruct (player_turn w) eqn:Ht;
    [rewrite ai_turn_ignored by auto; exact S|].
  destruct (sane_refs w S Ha) as (lp & le & p & e & Hlp & Hle & _ & Hp & He & _).
  rewrite (ai_turn_unfold pick roll v w lp le p e Ha Ht Hlp Hle Hp He).
  destruct (ai_select_move (moves e) (pokemon_type p) pick) as [sel|x];
    [|exact S].
  pose proof (execute_move_sane (Some le) (Some lp) sel false roll v w S) as S1.
  pose proof (execute_move_same_objects (Some le) (Some lp) sel false roll v w) as O1.
  destruct (execute_move (Some le) (Some lp) sel false roll v w) as [[[]|x] w1];
    cbn [snd] in *; [|exact S1].
  destruct (heap w1 !! lp) as [p1|] eqn:Hp1'; [|exact S1].
  destruct (negb (is_alive p1)).
  - destruct (end_battle_same_objects false w1) as [O2 _].
    apply (sane_same_objects w1); [exact O2| |exact S1].
    destruct O1 as (Hp1 & _). rewrite Hlp in Hp1.
    rewrite (end_battle_result false w1 lp p1 Hp1 Hp1'). apply S1.
  - apply (sane_ext w1); auto.
Qed.

Lemma select_pokemon_sane (pokemon : Pokemon) (w : PokemonGUI) :
  pokemon ∈ pokemon_roster -> sane w -> sane (snd (select_pokemon pokemon w)).
Proof.
  intros Hin [W R]. split; [apply select_pokemon_well_formed, W|].
  destruct (select_pokemon_state pokemon w) as (l & _ & _ & -> & _).
  apply map_Forall_insert_2; [apply roster_copy, Hin|exact R].
Qed.

Lemma start_battle_sane (enemy_pick : nat) (w : PokemonGUI) :
  sane w -> sane (snd (start_battle enemy_pick w)).
Proof.
  intros [W R]. split; [apply start_battle_well_formed, W|].
  destruct (player_pokemon w) as [lp|] eqn:Hlp.
  2:{ rewrite start_battle_without_player by exact Hlp. exact R. }
  destruct W as (W1 & _). destruct (W1 lp Hlp) as [p Hp].
  destruct (pokemon_roster !! enemy_pick) as [e|] eqn:He.
  2:{ unfold start_battle, bind, get. rewrite Hlp.
      unfold lift, random_choice. rewrite He. exact R. }
  destruct (start_battle_state enemy_pick w lp p e Hlp Hp He)
    as (le & _ & _ & _ & _ & -> & _).
  apply map_Forall_insert_2; [|exact R].
  apply roster_copy. eapply list_elem_of_lookup_2, He.
Qed.

Lemma new_battle_sane (w : PokemonGUI) : sane w -> sane (snd (new_battle w)).
Proof. intros [W R]. split; [apply new_battle_well_formed, W|exact R]. Qed.

Lemma init_sane : sane PokemonGUI_init.
Proof. split; [apply init_well_formed|apply map_Forall_empty]. Qed.

Lemma reachable_is_sane (w : PokemonGUI) : reachable w -> sane w.
Proof.
  induction 1;
    auto using init_sane, select_pokemon_sane, start_battle_sane,
      use_move_sane, ai_turn_sane, new_battle_sane.
Qed.

(** X17. In every state the window can reach, by any sequence of callbacks
    with any draws, returning or raising: every combatant object has
    0 <= current_hp <= max_hp and is a roster entry but for its current_hp;
    the player and the enemy, when both are set, are two different objects,
    both in the store; and an active battle has both a player and an
    enemy. *)
Theorem reachable_invariant (w : PokemonGUI) :
  reachable w ->
  (forall l p, heap w !! l = Some p ->
     0 <= current_hp p <= max_hp p /\
     exists t, t ∈ pokemon_roster /\ p = set_current_hp t (current_hp p)) /\
  (forall lp le, player_pokemon w = Some lp -> enemy_pokemon w = Some le ->
     lp <> le /\ is_Some (heap w !! lp) /\ is_Some (heap w !! le)) /\
  (battle_active w = true ->
     is_Some (player_pokemon w) /\ is_Some (enemy_pokemon w)).
Proof.
  intros Hr. destruct (reachable_is_sane w Hr) as [(W1 & W2 & W3 & W4) R].
  split; [|split].
  - intros l p Hp. destruct (R l p Hp) as (t & Ht & Hpt & Hh).
    split; [|eauto]. rewrite Hpt. cbn [set_current_hp current_hp max_hp]. lia.
  - intros lp le Hlp Hle. auto.
  - exact W4.
Qed.

Lemma started_battle_reachable : reachable started_battle.
Proof.
  unfold started_battle. apply reach_start, reach_select; [apply reach_init|].
  apply (list_elem_of_lookup_2 pokemon_roster 0%nat). reflexivity.
Defined.

Lemma reachable_invariant_witness :
  (forall l p, heap started_battle !! l = Some p ->
     0 <= current_hp p <= max_hp p /\
     exists t, t ∈ pokemon_roster /\ p = set_current_hp t (current_hp p)) /\
  (forall lp le, player_pokemon started_battle = Some lp -> enemy_pokemon started_battle = Some le ->
     lp <> le /\ is_Some (heap started_battle !! lp) /\ is_Some (heap started_battle !! le)) /\
  (battle_active started_battle = true ->
     is_Some (player_pokemon started_battle) /\ is_Some (enemy_pokemon started_battle)).
Proof. apply (reachable_invariant started_battle started_battle_reachable). Defined.

(** ** No callback raises *)

Lemma update_hp_display_ok (w : PokemonGUI) :
  displayable w -> update_hp_display w = (Ok tt, w).
Proof.
  intros D. unfold update_hp_display, bind, get.
  assert (forall r, r = player_pokemon w \/ r = enemy_pokemon w ->
            (match r with
             | Some l => p <- deref l; _ <- lift (get_hp_percentage p); ret tt
             | None => ret tt
             end) w = (Ok tt, w)) as Hside.
  { intros [l|] Hr; [|reflexivity].
    destruct (D l) as (p & Hp & Hi & Hm); [destruct Hr; auto|].
    unfold bind, deref, lift, ret. rewrite Hp.
    destruct (get_hp_percentage_small p Hi Hm) as (x & -> & _).
    reflexivity. }
  unfold bind in Hside. rewrite (Hside _ (or_introl eq_refl)).
  apply (Hside _ (or_intror eq_refl)).
Qed.

Lemma sane_displayable (w : PokemonGUI) : sane w -> displayable w.
Proof.
  intros [(W1 & W2 & _) R] l Hl.
  assert (is_Some (heap w !! l)) as [p Hp] by (destruct Hl; auto).
  exists p. split; [exact Hp|].
  destruct (roster_object_facts p (R l p Hp)) as (Hi & Hm & _). auto.
Qed.

Lemma displayable_ext (w w' : PokemonGUI) :
  heap w' = heap w -> player_pokemon w' = player_pokemon w ->
  enemy_pokemon w' = enemy_pokemon w -> displayable w -> displayable w'.
Proof. unfold displayable. intros -> -> ->. auto. Qed.

Lemma displayable_store (w : PokemonGUI) (def : loc) (d : Pokemon)
    (damage : Z) :
  heap w !! def = Some d -> 0 <= damage -> displayable w ->
  displayable (set_heap w (<[def := take_damage d damage]> (heap w))).
Proof.
  intros Hd Hpos D l Hl. cbn [heap set_heap player_pokemon enemy_pokemon] in *.
  destruct (D l Hl) as (p & Hp & Hi & Hm).
  destruct (decide (l = def)) as [->|Hne].
  - rewrite lookup_insert_eq. eexists. split; [reflexivity|].
    assert (p = d) as -> by congruence.
    split; [apply take_damage_invariant; auto|exact Hm].
  - rewrite lookup_insert_ne by congruence. eauto.
Qed.

Lemma calculate_damage_ok (a d : Pokemon) (m : Move) (roll v : spec_float) :
  roster_object a -> roster_object d ->
  Z.abs (power m) < 2 ^ 400 -> uniform_range v ->
  exists damage, calculate_damage a d m roll v = Ok damage.
Proof.
  intros Ra Rd Hp Hv.
  destruct (roster_object_facts a Ra) as (_ & _ & _ & Ha & _).
  destruct (roster_object_facts d Rd) as (_ & _ & Hd & _).
  destruct (damage_product_small a d m v Hd Ha Hp Hv) as (Fq & Fp & Sd).
  apply calculate_damage_finite; try assumption.
  exact (small_finite _ _ Sd).
Qed.

Lemma execute_move_ok (att def : loc) (m : Move) (isp : bool)
    (roll v : spec_float) (w : PokemonGUI) (a d : Pokemon) :
  displayable w -> heap w !! att = Some a -> heap w !! def = Some d ->
  roster_object a -> roster_object d ->
  Z.abs (power m) < 2 ^ 400 -> uniform_range v ->
  fst (execute_move (Some att) (Some def) m isp roll v w) = Ok tt.
Proof.
  intros D Ha Hd Ra Rd Hp Hv.
  destruct (calculate_damage_ok a d m roll v Ra Rd Hp Hv) as [damage Hc].
  pose proof (calculate_damage_range a d m roll v damage Hc) as Hrange.
  rewrite (execute_move_bound att def m isp roll v w a d Ha Hd).
  unfold bind, deref, lift. rewrite Hc.
  destruct ((damage =? 0) && (0 <? power m)); [reflexivity|].
  destruct (Z.eqb_spec damage 0) as [|Hnz]; [reflexivity|].
  unfold store, modify. cbn [heap set_heap].
  rewrite lookup_insert_eq.
  unfold log_message, modify, ret.
  pose proof (displayable_store w def d damage Hd ltac:(lia) D) as D1.
  destruct (Float.gtb _ _); [|destruct (Float.ltb _ _)]; cbn beta iota;
    match goal with
    | |- context [update_hp_display ?w0] =>
        rewrite (update_hp_display_ok w0)
          by (eapply displayable_ext; [| | |exact D1]; reflexivity)
    end; reflexivity.
Qed.

Lemma use_move_ok (m : Move) (roll v : spec_float) (w : PokemonGUI) :
  sane w -> Z.abs (power m) < 2 ^ 400 -> uniform_range v ->
  fst (use_move m roll v w) = Ok tt.
Proof.
  intros S Hp Hv.
  destruct (battle_active w) eqn:Ha;
    [|rewrite use_move_ignored by auto; reflexivity].
  destruct (player_turn w) eqn:Ht;
    [|rewrite use_move_ignored by auto; reflexivity].
  destruct (sane_refs w S Ha)
    as (lp & le & p & e & Hlp & Hle & _ & Hpp & Hee & Rp & Re).
  rewrite (use_move_unfold m roll v w lp le p e Ha Ht Hlp Hle Hpp Hee).
  pose proof (execute_move_ok lp le m true roll v w p e
                (sane_displayable w S) Hpp Hee Rp Re Hp Hv) as Hok.
  pose proof (execute_move_same_objects (Some lp) (Some le) m true roll v w) as (Hp1 & _).
  destruct (execute_move_keeps (Some lp) (Some le) m true roll v w le e Hee) as (e1 & He1 & _ & _).
  destruct (execute_move_keeps (Some lp) (Some le) m true roll v w lp p Hpp) as (p1 & Hp1' & _ & _).
  destruct (execute_move (Some lp) (Some le) m true roll v w) as [r w1]. cbn [fst snd] in *.
  subst r. rewrite He1. rewrite Hlp in Hp1.
  destruct (negb (is_alive e1)); [|reflexivity].
  now rewrite (end_battle_result true w1 lp p1 Hp1 Hp1').
Qed.

Lemma update_move_buttons_ok (w : PokemonGUI) :
  sane w -> update_move_buttons w = (Ok tt, w).
Proof.
  intros [(W1 & _) R]. unfold update_move_buttons, bind, get.
  destruct (negb (battle_active w) || negb (player_turn w)); [reflexivity|].
  destruct (player_pokemon w) as [l|] eqn:Hl; [|reflexivity].
  destruct (W1 l eq_refl) as [p Hp]. unfold bind, deref. rewrite Hp.
  destruct (roster_object_facts p (R l p Hp)) as (_ & _ & _ & _ & Hlen & _).
  rewrite Hlen. reflexivity.
Qed.

Lemma ai_turn_ok (pick : nat) (roll v : spec_float) (w : PokemonGUI) :
  sane w -> uniform_range v ->
  (forall lp le p e,
     player_pokemon w = Some lp -> enemy_pokemon w = Some le ->
     heap w !! lp = Some p -> heap w !! le = Some e ->
     (pick < length (ai_best_moves (moves e) (pokemon_type p)))%nat) ->
  fst (ai_turn pick roll v w) = Ok tt.
Proof.
  intros S Hv Hpick.
  destruct (battle_active w) eqn:Ha;
    [|rewrite ai_turn_ignored by auto; reflexivity].
  destruct (player_turn w) eqn:Ht;
    [rewrite ai_turn_ignored by auto; reflexivity|].
  destruct (sane_refs w S Ha)
    as (lp & le & p & e & Hlp & Hle & _ & Hpp & Hee & Rp & Re).
  rewrite (ai_turn_unfold pick roll v w lp le p e Ha Ht Hlp Hle Hpp Hee).
  destruct (ai_select_move_valid (moves e) (pokemon_type p) pick
              (Hpick lp le p e Hlp Hle Hpp Hee)) as [sel Hsel].
  rewrite Hsel.
  destruct (ai_select_move_elem _ _ _ _ Hsel) as [Hin _].
  destruct (roster_object_facts e Re) as (_ & _ & _ & _ & _ & Hpow & _).
  pose proof (execute_move_ok le lp sel false roll v w e p
                (sane_displayable w S) Hee Hpp Re Rp (Hpow sel Hin) Hv) as Hok.
  pose proof (execute_move_sane (Some le) (Some lp) sel false roll v w S) as S1.
  pose proof (execute_move_same_objects (Some le) (Some lp) sel false roll v w) as (Hp1 & _).
  destruct (execute_move_keeps (Some le) (Some lp) sel false roll v w lp p Hpp)
    as (p1 & Hp1' & _ & _).
  destruct (execute_move (Some le) (Some lp) sel false roll v w) as [r w1]. cbn [fst snd] in *.
  subst r. rewrite Hp1'. rewrite Hlp in Hp1.
  destruct (negb (is_alive p1)).
  - now rewrite (end_battle_result false w1 lp p1 Hp1 Hp1').
  - cbn [fst]. rewrite update_move_buttons_ok; [reflexivity|].
    apply (sane_ext w1); auto.
Qed.

Lemma select_pokemon_ok (pokemon : Pokemon) (w : PokemonGUI) :
  pokemon ∈ pokemon_roster -> sane w ->
  fst (select_pokemon pokemon w) = Ok tt.
Proof.
  intros Hin S.
  pose proof (select_pokemon_sane pokemon w Hin S) as S'.
  destruct (select_pokemon_state pokemon w)
    as (l & Hfresh & Hp & Hh & _ & He & Ha & _).
  revert S' Hp Hh He Ha.
  unfold select_pokemon, bind, alloc, modify.
  unfold set_player_pokemon, set_heap.
  cbn [heap player_pokemon enemy_pokemon battle_active player_turn
       battle_log scheduled].
  match goal with
  | |- context [update_hp_display ?w0] =>
      pose proof (update_hp_display_state w0) as Hu;
      destruct (update_hp_display w0) as [r w3] eqn:Hupd; cbn in Hu; subst w3;
      set (w1 := w0) in *
  end.
  intros S' Hp Hh He Ha.
  assert (displayable w1) as D.
  { destruct r.
    - unfold deref in S', Hp, Hh, He. cbn [heap w1] in S', Hp, Hh, He.
      rewrite lookup_insert_eq in S', Hp, Hh, He.
      cbn in S', Hp, Hh, He.
      eapply displayable_ext; [| | |exact (sane_displayable _ S')]; reflexivity.
    - cbn in S'. exact (sane_displayable _ S'). }
  rewrite (update_hp_display_ok w1 D) in Hupd. injection Hupd as <-.
  unfold deref. cbn [heap w1]. rewrite lookup_insert_eq. reflexivity.
Qed.

Lemma start_battle_ok (enemy_pick : nat) (w : PokemonGUI) :
  sane w -> (enemy_pick < length pokemon_roster)%nat ->
  fst (start_battle enemy_pick w) = Ok tt.
Proof.
  intros S Hpick.
  pose proof (start_battle_sane enemy_pick w S) as S'.
  destruct (player_pokemon w) as [lp|] eqn:Hlp.
  2:{ now rewrite start_battle_without_player. }
  destruct S as [W R]. destruct W as (W1 & W').
  destruct (W1 lp Hlp) as [p Hp].
  destruct (lookup_lt_is_Some_2 pokemon_roster enemy_pick Hpick) as [e He].
  revert S'.
  unfold start_battle, bind, get. rewrite Hlp.
  unfold lift, random_choice. rewrite He.
  assert (fresh (dom (heap w)) <> lp) as Hne by (eapply alloc_fresh; eauto).
  unfold alloc, modify, deref.
  unfold set_battle_active, set_enemy_pokemon, set_player_turn, set_heap.
  cbn [heap player_pokemon enemy_pokemon battle_active player_turn
       battle_log scheduled].
  rewrite lookup_insert_ne by exact Hne.
  rewrite Hp. cbn beta iota.
  unfold set_battle_active, set_enemy_pokemon, set_player_turn, set_heap.
  cbn [heap player_pokemon enemy_pokemon battle_active player_turn
       battle_log scheduled].
  rewrite lookup_insert_eq.
  match goal with
  | |- context [update_hp_display ?w0] =>
      pose proof (update_hp_display_state w0) as Hu;
      pose proof (fun S1 => update_hp_display_ok w0 (sane_displayable w0 S1))
        as Hr;
      destruct (update_hp_display w0) as [r w3]; cbn in Hu; subst w3
  end.
  destruct r as [[]|x].
  2:{ intros S1. cbn in S1. specialize (Hr S1). discriminate. }
  clear Hr.
  match goal with
  | |- context [update_move_buttons ?w0] =>
      pose proof (update_move_buttons_state w0) as Hu;
      pose proof (update_move_buttons_ok w0) as Hr;
      destruct (update_move_buttons w0) as [r w3]; cbn in Hu; subst w3
  end.
  destruct r as [[]|x].
  2:{ intros S1. cbn in S1. specialize (Hr S1). discriminate. }
  intros _. unfold log_message, root_after, modify, bind. cbn.
  destruct (speed _ <=? speed p); reflexivity.
Qed.

(** X18. [use_move] never raises in a reachable state: for a move with a
    power below 2^400 in magnitude, any roll and a variance in [0.85, 1.0]
    it returns normally (no division by zero, no overflow, no missing
    combatant). *)
Theorem use_move_returns (m : Move) (roll v : spec_float) (w : PokemonGUI) :
  reachable w -> Z.abs (power m) < 2 ^ 400 -> uniform_range v ->
  fst (use_move m roll v w) = Ok tt.
Proof. intros Hr. apply use_move_ok, reachable_is_sane, Hr. Qed.

Lemma use_move_returns_witness :
  fst (use_move (mkMove "Flamethrower" 90 FIRE f0_9) (Float.exact 0) f0_85
         started_battle) = Ok tt.
Proof.
  apply (use_move_returns (mkMove "Flamethrower" 90 FIRE f0_9) (Float.exact 0)
           f0_85 started_battle started_battle_reachable).
  - reflexivity.
  - vm_compute. repeat split; reflexivity.
Defined.

(** X19. [ai_turn] never raises in a reachable state, for any roll, a
    variance in [0.85, 1.0] and a drawn index within the list it is drawn
    for: the enemy always has a move to select, the damage is computed
    without error, and the move buttons suffice for the player's moves. *)
Theorem ai_turn_returns (pick : nat) (roll v : spec_float) (w : PokemonGUI) :
  reachable w -> uniform_range v ->
  (forall lp le p e,
     player_pokemon w = Some lp -> enemy_pokemon w = Some le ->
     heap w !! lp = Some p -> heap w !! le = Some e ->
     (pick < length (ai_best_moves (moves e) (pokemon_type p)))%nat) ->
  fst (ai_turn pick roll v w) = Ok tt /\
  forall lp le p e,
    player_pokemon w = Some lp -> enemy_pokemon w = Some le ->
    heap w !! lp = Some p -> heap w !! le = Some e ->
    ai_best_moves (moves e) (pokemon_type p) <> [].
Proof.
  intros Hr Hv Hpick. pose proof (reachable_is_sane w Hr) as S.
  split; [apply ai_turn_ok; assumption|].
  intros lp le p e _ _ _ He. destruct S as [_ R].
  destruct (roster_object_facts e (R le e He)) as (_ & _ & _ & _ & _ & _ & Hb).
  apply Hb.
Qed.

Lemma enemy_first_battle_reachable : reachable enemy_first_battle.
Proof.
  unfold enemy_first_battle. apply reach_start, reach_select;
    [apply reach_init|].
  apply (list_elem_of_lookup_2 pokemon_roster 2%nat). reflexivity.
Defined.

Lemma ai_turn_returns_witness :
  fst (ai_turn 0%nat (Float.exact 0) f1_0 enemy_first_battle) = Ok tt.
Proof.
  refine (proj1 (ai_turn_returns 0%nat (Float.exact 0) f1_0 enemy_first_battle
                   enemy_first_battle_reachable _ _)).
  - vm_compute. repeat split; reflexivity.
  - intros lp le p e H1 H2 H3 H4.
    vm_compute in H1, H2. injection H1 as <-. injection H2 as <-.
    vm_compute in H3, H4. injection H3 as <-. injection H4 as <-.
    vm_compute. lia.
Defined.

(** X20. Setting up never raises in a reachable state: [select_pokemon] on
    a roster entry and [start_battle] with a drawn index within the roster
    return normally (the health display divides by a max_hp that is never
    0, and no combatant has more moves than there are move buttons). *)
Theorem setup_returns (w : PokemonGUI) :
  reachable w ->
  (forall t, t ∈ pokemon_roster -> fst (select_pokemon t w) = Ok tt) /\
  (forall enemy_pick, (enemy_pick < length pokemon_roster)%nat ->
     fst (start_battle enemy_pick w) = Ok tt).
Proof.
  intros Hr. pose proof (reachable_is_sane w Hr) as S. split.
  - intros t Ht. apply select_pokemon_ok; assumption.
  - intros enemy_pick Hlt. apply start_battle_ok; assumption.
Qed.

Lemma setup_returns_witness :
  (forall t, t ∈ pokemon_roster ->
     fst (select_pokemon t started_battle) = Ok tt) /\
  (forall enemy_pick, (enemy_pick < length pokemon_roster)%nat ->
     fst (start_battle enemy_pick started_battle) = Ok tt).
Proof. apply (setup_returns started_battle started_battle_reachable). Defined.


(** ** calculate_damage against the exact formula *)

Lemma Qpow2_pos (e : Z) : (0 < 2 ^ e)%Q.
Proof. apply Qpower_0_lt. reflexivity. Qed.

Lemma Qpow2_add (a b : Z) : (2 ^ (a + b) == 2 ^ a * 2 ^ b)%Q.
Proof. apply Qpower_plus. discriminate. Qed.

Lemma Qpow2_Z (n : Z) : 0 <= n -> (inject_Z (2 ^ n) == 2 ^ n)%Q.
Proof. intros H. rewrite Zpower_Qpower by assumption. reflexivity. Qed.

Lemma Qpow2_le (a b : Z) : a <= b -> (2 ^ a <= 2 ^ b)%Q.
Proof. intros H. apply Qpower_le_compat_l; [assumption|discriminate]. Qed.

(** The error of one rounding, from what is known of it in units of
    [2^e]: nothing lost, or at most [2^-52] of the value, or at most the
    subnormal spacing. *)
Lemma err_bound (dq xq : Q) (k e : Z) :
  (0 <= dq)%Q -> (0 <= xq)%Q ->
  (dq == 0)%Q \/ (dq * 2 ^ 52 <= xq)%Q \/ ((dq <= 2 ^ k)%Q /\ k + e = -1074) ->
  (dq * 2 ^ e <= ulp_rel * (xq * 2 ^ e) + eta)%Q.
Proof.
  intros Hd Hx H. pose proof (Qpow2_pos e) as He.
  assert (0 <= eta)%Q as Heta by (apply Qlt_le_weak, Qpow2_pos).
  assert (0 <= ulp_rel * (xq * 2 ^ e))%Q as Hrel.
  { apply Qmult_le_0_compat; [discriminate|].
    apply Qmult_le_0_compat; [assumption|]. now apply Qlt_le_weak. }
  destruct H as [H|[H|[H Hk]]].
  - rewrite H. lra.
  - assert (dq <= ulp_rel * xq)%Q as Hle.
    { unfold ulp_rel. change (2 ^ (-52))%Q with (1 # 4503599627370496)%Q.
      change (2 ^ 52)%Q with (4503599627370496 # 1)%Q in H. lra. }
    assert (dq * 2 ^ e <= ulp_rel * xq * 2 ^ e)%Q
      by (apply Qmult_le_compat_r; [assumption|now apply Qlt_le_weak]).
    lra.
  - assert (dq * 2 ^ e <= 2 ^ k * 2 ^ e)%Q
      by (apply Qmult_le_compat_r; [assumption|now apply Qlt_le_weak]).
    rewrite <- Qpow2_add, Hk in H0. unfold eta. lra.
Qed.

Lemma Qabs_scaled (s : bool) (a b : Z) (c : Q) :
  (0 < c)%Q ->
  (Qabs (inject_Z (cond_Zopp s a) * c - inject_Z (cond_Zopp s b) * c)
   == inject_Z (Z.abs (a - b)) * c)%Q.
Proof.
  intros Hc.
  assert (inject_Z (cond_Zopp s a) * c - inject_Z (cond_Zopp s b) * c
          == inject_Z (cond_Zopp s (a - b)) * c)%Q as ->.
  { destruct s; cbn [cond_Zopp]; rewrite ?inject_Z_opp;
      unfold Zminus; rewrite inject_Z_plus, inject_Z_opp; ring. }
  rewrite Qabs_Qmult. rewrite (Qabs_pos c) by now apply Qlt_le_weak.
  assert (Qabs (inject_Z (cond_Zopp s (a - b))) = inject_Z (Z.abs (a - b)))
    as -> by (destruct s; cbn [cond_Zopp]; unfold Qabs, inject_Z;
              rewrite ?Z.abs_opp; reflexivity).
  reflexivity.
Qed.

Lemma shift_of_cases (x : positive) (e : Z) :
  let k := shift_of x e in
  k = 0 \/ 2 ^ k * 2 ^ 52 <= Zpos x \/ (1 <= k /\ k + e = -1074).
Proof.
  cbv zeta. unfold shift_of, fexp, emin, Float.prec, Float.emax.
  pose proof (digits2_bounds x) as [Hl _].
  set (d := Zpos (digits2_pos x)) in *.
  destruct (Z.le_gt_cases (Z.max (d + e - 53) (3 - 1024 - 53) - e) 0) as [H|H].
  - left. lia.
  - destruct (Z.le_gt_cases (3 - 1024 - 53) (d + e - 53)) as [H1|H1].
    + right. left.
      replace (Z.max 0 (Z.max (d + e - 53) (3 - 1024 - 53) - e)) with (d - 53)
        by lia.
      rewrite <- Z.pow_add_r by lia.
      replace (d - 53 + 52) with (d - 1) by lia. exact Hl.
    + right. right. lia.
Qed.

(** The rounding of an exact mantissa: the result is the exact value up to
    one rounding. *)
Lemma round_exact_approx (s : bool) (x : positive) (e : Z) :
  let R := binary_round_aux Float.prec Float.emax s (Zpos x) e loc_Exact in
  Float.is_finite R = true ->
  approx (float_value R) (inject_Z (cond_Zopp s (Zpos x)) * 2 ^ e).
Proof.
  intros R HR.
  destruct (binary_round_aux_value s x e) as (q & Hq & HV). fold R in HV.
  pose proof (shift_of_nonneg x e) as Hk0.
  pose proof (shift_of_cases x e) as Hcases. cbv zeta in Hcases.
  set (k := shift_of x e) in *.
  assert (0 < 2 ^ k) as Hpk by (apply Z.pow_pos_nonneg; lia).
  assert (float_value R == inject_Z (cond_Zopp s (q * 2 ^ k)) * 2 ^ e)%Q as EV.
  { destruct R as [s'|s'| |s' m' e']; try discriminate.
    - destruct HV as [_ ->]. cbn [float_value]. rewrite Z.mul_0_l.
      assert (cond_Zopp s 0 = 0) as -> by (destruct s; reflexivity).
      change (inject_Z 0) with 0%Q. now rewrite Qmult_0_l.
    - destruct HV as (-> & Hee & Hm). cbn [float_value].
      replace e' with ((e' - e) + e) at 1 by lia.
      rewrite Qpow2_add, <- Qpow2_Z by lia.
      rewrite <- Hm. destruct s; cbn [cond_Zopp];
        rewrite ?inject_Z_opp, inject_Z_mult;
        generalize (inject_Z (2 ^ (e' - e))) (2 ^ e)%Q; intros; ring. }
  unfold approx. rewrite EV.
  pose proof (Qpow2_pos e) as Hpe.
  rewrite (Qabs_scaled s (q * 2 ^ k) (Zpos x) (2 ^ e)%Q Hpe).
  assert (Qabs (inject_Z (cond_Zopp s (Zpos x)) * 2 ^ e)
          == inject_Z (Zpos x) * 2 ^ e)%Q as ->.
  { rewrite Qabs_Qmult, (Qabs_pos (2 ^ e)%Q) by now apply Qlt_le_weak.
    destruct s; reflexivity. }
  destruct Hq as ((L & U) & _).
  apply (err_bound _ _ k e).
  - rewrite <- (Zle_Qle 0). lia.
  - rewrite <- (Zle_Qle 0). lia.
  - destruct Hcases as [Hz|[Hn|[Hk1 Hs]]].
    + left. rewrite Hz in *. change (2 ^ 0) with 1 in *.
      assert (q * 1 - Zpos x = 0) as -> by lia. reflexivity.
    + right. left. rewrite <- (Qpow2_Z 52) by lia.
      rewrite <- inject_Z_mult, <- Zle_Qle. nia.
    + right. right. split; [|exact Hs].
      rewrite <- (Qpow2_Z k) by lia. rewrite <- Zle_Qle. nia.
Qed.

Lemma approx_refl (x y : Q) : (y == x)%Q -> approx y x.
Proof.
  intros H. unfold approx.
  assert (Qabs (y - x) == 0)%Q as ->.
  { rewrite H. assert (x - x == 0)%Q as -> by ring. reflexivity. }
  apply (Qle_trans _ (0 + 0)); [discriminate|].
  apply Qplus_le_compat; [|apply Qlt_le_weak, Qpow2_pos].
  apply Qmult_le_0_compat; [discriminate|apply Qabs_nonneg].
Qed.

Lemma cond_Zopp_mul (sx sy : bool) (a b : Z) :
  cond_Zopp (xorb sx sy) (a * b) = cond_Zopp sx a * cond_Zopp sy b.
Proof. destruct sx, sy; cbn [xorb cond_Zopp]; lia. Qed.

(** Float multiplication is the exact product up to one rounding. *)
Lemma mul_approx (x y : spec_float) :
  Float.is_finite (Float.mul x y) = true ->
  approx (float_value (Float.mul x y)) (float_value x * float_value y).
Proof.
  destruct x as [sx|sx| |sx mx ex], y as [sy|sy| |sy my ey];
    try discriminate; cbn [Float.mul SFmul Float.is_finite float_value];
    intros HF; try (apply approx_refl; ring).
  unfold Float.mul, SFmul in *.
  pose proof (round_exact_approx (xorb sx sy) (mx * my) (ex + ey) HF) as H.
  cbv zeta in H. revert H. unfold approx.
  assert (inject_Z (cond_Zopp (xorb sx sy) (Zpos (mx * my))) * 2 ^ (ex + ey)
          == inject_Z (cond_Zopp sx (Zpos mx)) * 2 ^ ex *
             (inject_Z (cond_Zopp sy (Zpos my)) * 2 ^ ey))%Q as ->; [|auto].
  rewrite Pos2Z.inj_mul, cond_Zopp_mul, inject_Z_mult, Qpow2_add.
  generalize (2 ^ ex)%Q (2 ^ ey)%Q. intros. ring.
Qed.

Lemma binary_round_approx (s : bool) (m : positive) (e : Z) :
  Float.is_finite (binary_round Float.prec Float.emax s m e) = true ->
  approx (float_value (binary_round Float.prec Float.emax s m e))
    (inject_Z (cond_Zopp s (Zpos m)) * 2 ^ e).
Proof.
  unfold binary_round.
  pose proof (shl_align_spec m e
                (fexp Float.prec Float.emax (Zpos (digits2_pos m) + e)))
    as (H1 & _ & H3). cbv zeta in *.
  destruct (shl_align m e _) as [mz ez]. cbn [fst snd] in *.
  intros HF. pose proof (round_exact_approx s mz ez HF) as H.
  cbv zeta in H. revert H. unfold approx.
  assert (inject_Z (cond_Zopp s (Zpos mz)) * 2 ^ ez
          == inject_Z (cond_Zopp s (Zpos m)) * 2 ^ e)%Q as ->; [|auto].
  rewrite H3. replace (2 ^ e)%Q with (2 ^ ((e - ez) + ez))%Q by (f_equal; lia).
  rewrite Qpow2_add, <- (Qpow2_Z (e - ez)) by lia.
  destruct s; cbn [cond_Zopp]; rewrite ?inject_Z_opp, inject_Z_mult;
    generalize (inject_Z (2 ^ (e - ez))) (2 ^ ez)%Q; intros; ring.
Qed.

Lemma binary_normalize_approx (z e : Z) :
  Float.is_finite (binary_normalize Float.prec Float.emax z e false) = true ->
  approx (float_value (binary_normalize Float.prec Float.emax z e false))
    (inject_Z z * 2 ^ e).
Proof.
  destruct z as [|m|m]; cbn [binary_normalize].
  - intros _. apply approx_refl. cbn [float_value].
    change (inject_Z 0) with 0%Q. now rewrite Qmult_0_l.
  - apply (binary_round_approx false m e).
  - apply (binary_round_approx true m e).
Qed.

(** The conversion of an int, and float addition. *)
Lemma of_Z_approx (n : Z) :
  Float.is_finite (Float.of_Z n) = true ->
  approx (float_value (Float.of_Z n)) (inject_Z n).
Proof.
  intros HF. pose proof (binary_normalize_approx n 0 HF) as H.
  unfold approx in *. change (2 ^ 0)%Q with 1%Q in H.
  rewrite Qmult_1_r in H. exact H.
Qed.

Lemma shl_align_value (s : bool) (m : positive) (e e' : Z) :
  e' <= e ->
  (inject_Z (cond_Zopp s (Zpos (fst (shl_align m e e')))) * 2 ^ e'
   == inject_Z (cond_Zopp s (Zpos m)) * 2 ^ e)%Q /\
  snd (shl_align m e e') = e'.
Proof.
  intros Hle. pose proof (shl_align_spec m e e') as (_ & _ & H3).
  cbv zeta in H3.
  assert (snd (shl_align m e e') = e') as Hs.
  { unfold shl_align. destruct (e' - e) eqn:E; cbn; lia. }
  split; [|exact Hs]. rewrite Hs in H3. rewrite H3.
  replace (2 ^ e)%Q with (2 ^ ((e - e') + e'))%Q by (f_equal; lia).
  rewrite Qpow2_add, <- (Qpow2_Z (e - e')) by lia.
  destruct s; cbn [cond_Zopp]; rewrite ?inject_Z_opp, inject_Z_mult;
    generalize (inject_Z (2 ^ (e - e'))) (2 ^ e')%Q; intros; ring.
Qed.

Lemma add_approx (x y : spec_float) :
  Float.is_finite (Float.add x y) = true ->
  approx (float_value (Float.add x y)) (float_value x + float_value y).
Proof.
  destruct x as [sx|sx| |sx mx ex], y as [sy|sy| |sy my ey];
    try discriminate; try (destruct sx, sy; discriminate);
    cbn [Float.add SFadd Float.is_finite float_value]; intros HF;
    try (apply approx_refl; cbn [float_value]; ring).
  unfold Float.add, SFadd in *.
  destruct (shl_align_value sx mx ex (Z.min ex ey) ltac:(lia)) as [Vx _].
  destruct (shl_align_value sy my ey (Z.min ex ey) ltac:(lia)) as [Vy _].
  pose proof (binary_normalize_approx _ _ HF) as H.
  revert H. unfold approx.
  match goal with
  | |- context [binary_normalize _ _ ?z ?e _] =>
      assert (inject_Z z * 2 ^ e
              == inject_Z (cond_Zopp sx (Zpos mx)) * 2 ^ ex +
                 inject_Z (cond_Zopp sy (Zpos my)) * 2 ^ ey)%Q as ->; [|auto]
  end.
  rewrite <- Vx, <- Vy, inject_Z_plus.
  generalize (2 ^ Z.min ex ey)%Q. intros. ring.
Qed.

Lemma first_stage_value (mx ex : Z) (lx : location) :
  0 <= mx ->
  let r := shr_fexp Float.prec Float.emax mx ex lx in
  shr_m (fst r) = mx / 2 ^ (snd r - ex) /\ ex <= snd r.
Proof.
  intros H0. unfold shr_fexp, shr.
  destruct (fexp Float.prec Float.emax (Zdigits2 mx + ex) - ex) as [|p|p] eqn:E;
    cbn [fst snd]; rewrite ?shr_m_record_of_loc.
  - rewrite Z.sub_diag, Z.div_1_r. split; [reflexivity|lia].
  - rewrite iter_pos_nat, shr_m_iter by (rewrite shr_m_record_of_loc; lia).
    rewrite shr_m_record_of_loc, positive_nat_Z.
    split; [f_equal; f_equal; lia|lia].
  - rewrite Z.sub_diag, Z.div_1_r. split; [reflexivity|lia].
Qed.

(** The rounding of any mantissa and location: in units of the exponent
    [E] the first shift reaches, the result is the integer part of the
    mantissa or the next integer. *)
Lemma round_enclosure (s : bool) (mx ex : Z) (lx : location) :
  0 <= mx ->
  let E := Z.max ex (fexp Float.prec Float.emax (Zdigits2 mx + ex)) in
  let R := binary_round_aux Float.prec Float.emax s mx ex lx in
  Float.is_finite R = true ->
  exists Qm,
    mx / 2 ^ (E - ex) <= Qm <= mx / 2 ^ (E - ex) + 1 /\
    (float_value R == inject_Z (cond_Zopp s Qm) * 2 ^ E)%Q.
Proof.
  intros H0 E R. subst R.
  pose proof (first_stage_bounds mx ex lx H0) as [He' Hq0].
  pose proof (first_stage_value mx ex lx H0) as [Hv _]. cbv zeta in *.
  unfold binary_round_aux.
  destruct (shr_fexp Float.prec Float.emax mx ex lx) as [mrs' e'].
  cbn [fst snd] in *. fold E in He'. subst e'.
  pose proof (round_nearest_even_bounds (shr_m mrs') (loc_of_shr_record mrs'))
    as Hq1.
  set (q := round_nearest_even (shr_m mrs') (loc_of_shr_record mrs')) in *.
  assert (-1074 <= E) as HE
    by (unfold E, fexp, emin, Float.prec, Float.emax; lia).
  pose proof (second_stage q E ltac:(lia) HE) as (Hm & Hee & Hval).
  cbv zeta in *.
  destruct (shr_fexp Float.prec Float.emax q E loc_Exact) as [mrs'' e''].
  cbn [fst snd] in *.
  intros HF. exists q. split; [lia|].
  destruct (shr_m mrs'') as [|m|m] eqn:Em; [| |lia].
  - cbn [float_value]. rewrite <- Hval.
    assert (cond_Zopp s (0 * 2 ^ (e'' - E)) = 0) as ->
      by (destruct s; reflexivity).
    change (inject_Z 0) with 0%Q. now rewrite Qmult_0_l.
  - destruct (e'' <=? Float.emax - Float.prec); [|discriminate].
    cbn [float_value]. rewrite <- Hval.
    replace (2 ^ e'')%Q with (2 ^ ((e'' - E) + E))%Q by (f_equal; lia).
    rewrite Qpow2_add, <- (Qpow2_Z (e'' - E)) by lia.
    destruct s; cbn [cond_Zopp]; rewrite ?inject_Z_opp, inject_Z_mult;
      generalize (inject_Z (2 ^ (e'' - E))) (2 ^ E)%Q; intros; ring.
Qed.

(** The quotient mantissa of an int/int division: the integer part of the
    scaled quotient, with at least 53 bits unless the exponent is the
    least one. *)
Lemma div_core_value (m1 m2 : positive) :
  let '(q, e', _) :=
    SFdiv_core_binary Float.prec Float.emax (Zpos m1) 0 (Zpos m2) 0 in
  0 <= q /\ e' <= 0 /\
  q * Zpos m2 <= Zpos m1 * 2 ^ (- e') < (q + 1) * Zpos m2 /\
  (e' = -1074 \/ 2 ^ 52 <= q).
Proof.
  unfold SFdiv_core_binary.
  set (d1 := Zdigits2 (Zpos m1)). set (d2 := Zdigits2 (Zpos m2)).
  set (e' := Z.min (fexp Float.prec Float.emax (d1 + 0 - (d2 + 0))) (0 - 0)).
  assert (e' <= 0) as He by (unfold e'; lia).
  set (s := 0 - 0 - e').
  set (m' := match s with Zpos _ => Z.shiftl (Zpos m1) s | Z0 => Zpos m1
             | Zneg _ => 0 end).
  assert (m' = Zpos m1 * 2 ^ s) as Hm'.
  { unfold m'. destruct s eqn:Es; [lia| |lia].
    rewrite Z.shiftl_mul_pow2 by lia. reflexivity. }
  pose proof (Z.div_eucl_eq m' (Zpos m2) ltac:(lia)) as Heq.
  pose proof (Z.mod_pos_bound m' (Zpos m2) ltac:(lia)) as Hr.
  unfold Z.modulo in Hr.
  destruct (Z.div_eucl m' (Zpos m2)) as [q r].
  assert (0 <= s) as Hs by (unfold s; lia).
  assert (0 < 2 ^ s) as Hp by (apply Z.pow_pos_nonneg; lia).
  assert (0 <= q) as Hq by nia.
  replace (- e') with s by (unfold s; lia). rewrite <- Hm'.
  split; [exact Hq|]. split; [exact He|]. split; [nia|].
  pose proof (digits2_bounds m1) as [Hl1 _].
  pose proof (digits2_bounds m2) as [_ Hu2].
  change (Zpos (digits2_pos m1)) with d1 in Hl1.
  change (Zpos (digits2_pos m2)) with d2 in Hu2.
  destruct (Z.le_gt_cases (-1074) (d1 - d2 - 53)) as [Hn|Hsub].
  - right.
    assert (e' <= d1 - d2 - 53)
      by (unfold e', fexp, emin, Float.prec, Float.emax; lia).
    assert (2 ^ (52 + d2) <= m') as Hbig.
    { rewrite Hm'.
      assert (2 ^ (52 + d2) <= 2 ^ (d1 - 1 + s)) as Hpw
        by (apply Z.pow_le_mono_r; unfold s; lia).
      rewrite (Z.pow_add_r 2 (d1 - 1) s) in Hpw by (unfold d1; cbn; lia).
      nia. }
    rewrite (Z.pow_add_r 2 52 d2) in Hbig by (unfold d2; cbn; lia).
    assert (0 < 2 ^ 52) by reflexivity.
    nia.
  - left. unfold e', fexp, emin, Float.prec, Float.emax. lia.
Qed.

(** The rounded quotient of two positive ints. *)
Lemma div_pos_approx (s : bool) (m1 m2 : positive) :
  let '(q, e', l) :=
    SFdiv_core_binary Float.prec Float.emax (Zpos m1) 0 (Zpos m2) 0 in
  let R := binary_round_aux Float.prec Float.emax s q e' l in
  Float.is_finite R = true ->
  exists Qm E,
    (float_value R == inject_Z (cond_Zopp s Qm) * 2 ^ E)%Q /\
    (Qabs (inject_Z Qm * 2 ^ E - inject_Z (Zpos m1) / inject_Z (Zpos m2))
     <= ulp_rel * (inject_Z (Zpos m1) / inject_Z (Zpos m2)) + eta)%Q.
Proof.
  pose proof (div_core_value m1 m2) as H.
  destruct (SFdiv_core_binary Float.prec Float.emax (Zpos m1) 0 (Zpos m2) 0)
    as [[q e'] l].
  destruct H as (Hq & He & [Hlo Hhi] & Hbig).
  intros R HR.
  destruct (round_enclosure s q e' l Hq HR) as (Qm & [Hm1 Hm2] & HV).
  set (E := Z.max e' (fexp Float.prec Float.emax (Zdigits2 q + e'))) in *.
  exists Qm, E. split; [exact HV|].
  set (k := E - e') in *.
  assert (0 <= k) as Hk by (unfold k, E; lia).
  set (n := - e') in *.
  assert (0 <= n) as Hn by (unfold n; lia).
  assert (0 < 2 ^ k) as Hpk by (apply Z.pow_pos_nonneg; lia).
  assert (0 < 2 ^ n) as Hpn by (apply Z.pow_pos_nonneg; lia).
  set (Ql := q / 2 ^ k) in *.
  assert (Ql * 2 ^ k <= q < (Ql + 1) * 2 ^ k) as [Hq1 Hq2].
  { pose proof (Z.mul_div_le q (2 ^ k) Hpk).
    pose proof (Z.mul_succ_div_gt q (2 ^ k) Hpk). fold Ql in H, H0. lia. }
  assert (Ql * 2 ^ k * Zpos m2 <= Zpos m1 * 2 ^ n) as HA by nia.
  assert (Zpos m1 * 2 ^ n <= (Ql + 1) * 2 ^ k * Zpos m2) as HB by nia.
  assert (0 <= Ql) as HQl by (apply Z.div_pos; lia).
  assert (E = -1074 \/ 2 ^ 52 <= Ql) as Hcase.
  { destruct (Z.eq_dec E (-1074)) as [|HE]; [now left|right].
    destruct (Z.eq_dec E e') as [Ee|Ee].
    - assert (k = 0) as Hk0 by (unfold k; lia).
      unfold Ql. rewrite Hk0. change (2 ^ 0) with 1. rewrite Z.div_1_r.
      destruct Hbig; lia.
    - assert (E = Zdigits2 q + e' - 53) as EE
        by (unfold E, fexp, emin, Float.prec, Float.emax in *; lia).
      assert (0 < q) as Hqp.
      { destruct q as [|p|p]; [|lia|lia]. cbn in EE. lia. }
      destruct q as [|p|p]; try lia.
      pose proof (digits2_bounds p) as [Hl _].
      cbn [Zdigits2] in EE.
      assert (Zpos (digits2_pos p) - 1 = 52 + k) as Hd by (unfold k; lia).
      rewrite Hd in Hl. rewrite Z.pow_add_r in Hl by lia.
      apply Z.div_le_lower_bound; lia. }
  set (xq := (inject_Z (Zpos m1) / inject_Z (Zpos m2))%Q).
  assert (2 ^ E == inject_Z (2 ^ k) / inject_Z (2 ^ n))%Q as EP.
  { replace E with (k + - n) by (unfold k, n; lia).
    rewrite Qpow2_add, Qpower_opp, !Qpow2_Z by lia. reflexivity. }
  assert (0 < inject_Z (Zpos m2))%Q as HM2 by (change 0%Q with (inject_Z 0); rewrite <- Zlt_Qlt; lia).
  assert (0 < inject_Z (2 ^ n))%Q as HN by (change 0%Q with (inject_Z 0); rewrite <- Zlt_Qlt; lia).
  assert (0 < inject_Z (2 ^ k))%Q as HK by (change 0%Q with (inject_Z 0); rewrite <- Zlt_Qlt; lia).
  assert (inject_Z Ql * 2 ^ E <= xq)%Q as HL.
  { unfold xq. apply Qle_shift_div_l; [exact HM2|]. rewrite EP.
    assert (inject_Z Ql * (inject_Z (2 ^ k) / inject_Z (2 ^ n)) *
              inject_Z (Zpos m2)
            == inject_Z (Ql * 2 ^ k * Zpos m2) / inject_Z (2 ^ n))%Q as ->
      by (rewrite !inject_Z_mult; field; lra).
    apply Qle_shift_div_r; [exact HN|].
    rewrite <- inject_Z_mult, <- Zle_Qle. exact HA. }
  assert (xq <= (inject_Z Ql + 1) * 2 ^ E)%Q as HU.
  { unfold xq. apply Qle_shift_div_r; [exact HM2|]. rewrite EP.
    assert ((inject_Z Ql + 1) * (inject_Z (2 ^ k) / inject_Z (2 ^ n)) *
              inject_Z (Zpos m2)
            == inject_Z ((Ql + 1) * 2 ^ k * Zpos m2) / inject_Z (2 ^ n))%Q as ->
      by (rewrite !inject_Z_mult, inject_Z_plus; field; lra).
    apply Qle_shift_div_l; [exact HN|].
    rewrite <- inject_Z_mult, <- Zle_Qle. exact HB. }
  pose proof (Qpow2_pos E) as HpE.
  assert (inject_Z Ql <= inject_Z Qm <= inject_Z Ql + 1)%Q as [HmL HmU].
  { change 1%Q with (inject_Z 1).
    rewrite <- (inject_Z_plus Ql 1), <- !Zle_Qle. lia. }
  assert (Qabs (inject_Z Qm * 2 ^ E - xq) <= 2 ^ E)%Q as Hdiff.
  { apply Qabs_Qle_condition.
    generalize dependent (2 ^ E)%Q. intros p. intros.
    assert (inject_Z Ql * p <= inject_Z Qm * p)%Q
      by (apply Qmult_le_compat_r; lra).
    assert (inject_Z Qm * p <= (inject_Z Ql + 1) * p)%Q
      by (apply Qmult_le_compat_r; lra).
    split; lra. }
  eapply Qle_trans; [exact Hdiff|].
  assert (0 <= xq)%Q as Hx0.
  { eapply Qle_trans; [|exact HL].
    apply Qmult_le_0_compat; [change 0%Q with (inject_Z 0); rewrite <- Zle_Qle; exact HQl|lra]. }
  assert (0 <= eta)%Q as Heta by (apply Qlt_le_weak, Qpow2_pos).
  destruct Hcase as [HE|H52].
  - rewrite HE. unfold eta.
    assert (0 <= ulp_rel * xq)%Q
      by (apply Qmult_le_0_compat; [discriminate|exact Hx0]).
    lra.
  - assert (2 ^ 52 * 2 ^ E <= xq)%Q as Hbigx.
    { eapply Qle_trans; [|exact HL].
      apply Qmult_le_compat_r; [|lra].
      rewrite <- Qpow2_Z by lia. rewrite <- Zle_Qle. exact H52. }
    unfold ulp_rel. change (2 ^ (-52))%Q with (1 # 4503599627370496)%Q.
    change (2 ^ 52)%Q with (4503599627370496 # 1)%Q in Hbigx. lra.
Qed.

Lemma signed_approx (s : bool) (y x v w : Q) :
  (0 <= x)%Q ->
  (v == if s then - y else y)%Q -> (w == if s then - x else x)%Q ->
  (Qabs (y - x) <= ulp_rel * x + eta)%Q ->
  approx v w.
Proof.
  intros Hx Hv Hw H. unfold approx. rewrite Hv, Hw.
  destruct s.
  - assert (- y - - x == - (y - x))%Q as -> by ring.
    rewrite !Qabs_opp, (Qabs_pos x) by exact Hx. exact H.
  - rewrite (Qabs_pos x) by exact Hx. exact H.
Qed.

(** [a / b] on two ints is the exact quotient up to one rounding. *)
Lemma div_approx (a d : Z) :
  d <> 0 ->
  Float.is_finite (Float.div (Float.exact a) (Float.exact d)) = true ->
  approx (float_value (Float.div (Float.exact a) (Float.exact d)))
    (inject_Z a / inject_Z d).
Proof.
  intros Hd.
  assert (forall sa sd ma md,
    Float.is_finite
      (Float.div (S754_finite sa ma 0) (S754_finite sd md 0)) = true ->
    approx
      (float_value (Float.div (S754_finite sa ma 0) (S754_finite sd md 0)))
      (inject_Z (cond_Zopp sa (Zpos ma)) / inject_Z (cond_Zopp sd (Zpos md))))
    as Hmain.
  { intros sa sd ma md. unfold Float.div, SFdiv.
    pose proof (div_pos_approx (xorb sa sd) ma md) as H.
    destruct (SFdiv_core_binary Float.prec Float.emax (Zpos ma) 0 (Zpos md) 0)
      as [[q e'] l].
    intros HR. destruct (H HR) as (Qm & E & HV & HA).
    assert (0 < inject_Z (Zpos md))%Q as HM2
      by (change 0%Q with (inject_Z 0); rewrite <- Zlt_Qlt; lia).
    assert (0 <= inject_Z (Zpos ma))%Q as HM1
      by (change 0%Q with (inject_Z 0); rewrite <- Zle_Qle; lia).
    apply (signed_approx (xorb sa sd) (inject_Z Qm * 2 ^ E)
             (inject_Z (Zpos ma) / inject_Z (Zpos md))).
    - apply Qle_shift_div_l; [exact HM2|]. rewrite Qmult_0_l. exact HM1.
    - rewrite HV.
      destruct (xorb sa sd); cbn [cond_Zopp]; rewrite ?inject_Z_opp; ring.
    - destruct sa, sd; cbn [cond_Zopp xorb]; rewrite ?inject_Z_opp;
        field; lra.
    - exact HA. }
  destruct a as [|ma|ma], d as [|md|md]; try contradiction; intros HR.
  - apply approx_refl. cbn. unfold Qdiv. now rewrite Qmult_0_l.
  - apply approx_refl. cbn. unfold Qdiv. now rewrite Qmult_0_l.
  - exact (Hmain false false ma md HR).
  - exact (Hmain false true ma md HR).
  - exact (Hmain true false ma md HR).
  - exact (Hmain true true ma md HR).
Qed.

Lemma near_exact (B y x : Q) : (y == x)%Q -> (Qabs x <= B)%Q -> near 0 B y x.
Proof.
  intros E H. split; [|exact H].
  assert (y - x == 0)%Q as -> by (rewrite E; ring). discriminate.
Qed.

Lemma near_compat (d B y x y' x' : Q) :
  (y == y')%Q -> (x == x')%Q -> near d B y x -> near d B y' x'.
Proof. intros Ey Ex [H1 H2]. split; rewrite <- ?Ey, <- Ex; assumption. Qed.

Lemma near_round (d B d' B' y' y x : Q) :
  near d B y x -> approx y' y ->
  (d + ulp_rel * (B + d) + eta <= d')%Q -> (B <= B')%Q ->
  near d' B' y' x.
Proof.
  intros [H1 H2] Ha Hd HB. unfold approx in Ha.
  split; [|eapply Qle_trans; eassumption].
  assert (y' - x == (y' - y) + (y - x))%Q as -> by ring.
  eapply Qle_trans; [apply Qabs_triangle|].
  assert (Qabs y <= B + d)%Q as Hy.
  { assert (y == x + (y - x))%Q as -> by ring.
    eapply Qle_trans; [apply Qabs_triangle|]. lra. }
  unfold ulp_rel in *. change (2 ^ (-52))%Q with (1 # 4503599627370496)%Q in *.
  generalize dependent (Qabs (y' - y)). generalize dependent (Qabs (y - x)).
  generalize dependent (Qabs y). intros. lra.
Qed.

Lemma near_mul (d1 B1 d2 B2 y1 x1 y2 x2 : Q) :
  near d1 B1 y1 x1 -> near d2 B2 y2 x2 ->
  near (B1 * d2 + B2 * d1 + d1 * d2) (B1 * B2) (y1 * y2) (x1 * x2).
Proof.
  intros [H1 H2] [H3 H4].
  pose proof (Qabs_nonneg (y1 - x1)). pose proof (Qabs_nonneg (y2 - x2)).
  pose proof (Qabs_nonneg x1). pose proof (Qabs_nonneg x2).
  split.
  - assert (y1 * y2 - x1 * x2
            == x1 * (y2 - x2) + x2 * (y1 - x1) + (y1 - x1) * (y2 - x2))%Q
      as -> by ring.
    eapply Qle_trans; [apply Qabs_triangle|].
    apply Qplus_le_compat; [eapply Qle_trans; [apply Qabs_triangle|];
                            apply Qplus_le_compat|];
      rewrite Qabs_Qmult; apply Qmult_le_compat_nonneg; split; assumption.
  - rewrite Qabs_Qmult. apply Qmult_le_compat_nonneg; split; assumption.
Qed.

Lemma near_add (d1 B1 d2 B2 y1 x1 y2 x2 : Q) :
  near d1 B1 y1 x1 -> near d2 B2 y2 x2 ->
  near (d1 + d2) (B1 + B2) (y1 + y2) (x1 + x2).
Proof.
  intros [H1 H2] [H3 H4]. split.
  - assert (y1 + y2 - (x1 + x2) == (y1 - x1) + (y2 - x2))%Q as -> by ring.
    eapply Qle_trans; [apply Qabs_triangle|]. now apply Qplus_le_compat.
  - eapply Qle_trans; [apply Qabs_triangle|]. now apply Qplus_le_compat.
Qed.

(** [Float.floor] is the integer part of the value. *)
Lemma floor_value (x : spec_float) : Float.floor x = Qfloor (float_value x).
Proof.
  destruct x as [s|s| |s m e]; try reflexivity.
  rewrite floor_spec. cbn [float_value].
  set (z := cond_Zopp s (Zpos m)).
  destruct (Z.leb_spec 0 e) as [He|He].
  - rewrite <- Qpow2_Z, <- inject_Z_mult by exact He. now rewrite Qfloor_Z.
  - assert (0 < 2 ^ (- e)) as Hp by (apply Z.pow_pos_nonneg; lia).
    replace e with (- (- e)) at 2 by lia.
    rewrite Qpower_opp, <- Qpow2_Z by lia.
    destruct (2 ^ (- e)) as [|p|p]; try lia.
    fold (Qdiv (inject_Z z) (inject_Z (Zpos p))).
    rewrite <- Qmake_Qdiv. reflexivity.
Qed.

Lemma Qfloor_near (x y : Q) :
  (Qabs (x - y) <= 1 # 4)%Q -> Z.abs (Qfloor x - Qfloor y) <= 1.
Proof.
  intros H. apply Qabs_Qle_condition in H as [H1 H2].
  pose proof (Qfloor_le x) as Lx. pose proof (Qlt_floor x) as Ux.
  pose proof (Qfloor_le y) as Ly. pose proof (Qlt_floor y) as Uy.
  rewrite inject_Z_plus in Ux, Uy. change (inject_Z 1) with 1%Q in Ux, Uy.
  assert (Qfloor x < Qfloor y + 2) as A.
  { rewrite Zlt_Qlt, inject_Z_plus. change (inject_Z 2) with 2%Q. lra. }
  assert (Qfloor y < Qfloor x + 2) as B.
  { rewrite Zlt_Qlt, inject_Z_plus. change (inject_Z 2) with 2%Q. lra. }
  lia.
Qed.

Lemma Qabs_inject_Z (z : Z) : Qabs (inject_Z z) = inject_Z (Z.abs z).
Proof. reflexivity. Qed.

Lemma Qabs_bounded_Z (z N : Z) :
  Z.abs z <= N -> (Qabs (inject_Z z) <= inject_Z N)%Q.
Proof. intros H. rewrite Qabs_inject_Z, <- Zle_Qle. exact H. Qed.

Lemma Qabs_quotient (a d N : Z) :
  d <> 0 -> Z.abs a <= N ->
  (Qabs (inject_Z a / inject_Z d) <= inject_Z N)%Q.
Proof.
  intros Hd Ha. unfold Qdiv. rewrite Qabs_Qmult, Qabs_Qinv, !Qabs_inject_Z.
  assert (0 < inject_Z (Z.abs d))%Q as Hp
    by (change 0%Q with (inject_Z 0); rewrite <- Zlt_Qlt; lia).
  apply Qle_shift_div_r; [exact Hp|].
  rewrite <- inject_Z_mult, <- Zle_Qle. nia.
Qed.

Lemma small_value (x : spec_float) :
  small (-52) x -> (Qabs (float_value x) <= 2)%Q.
Proof.
  destruct x as [s|s| |s m e]; cbn [small float_value]; try discriminate;
    try tauto.
  intros [Hm He]. rewrite Qabs_Qmult.
  assert (Qabs (inject_Z (cond_Zopp s (Zpos m))) = inject_Z (Zpos m)) as ->
    by (destruct s; reflexivity).
  rewrite (Qabs_pos (2 ^ e)) by (apply Qlt_le_weak, Qpow2_pos).
  apply Qle_trans with (inject_Z (2 ^ 53) * 2 ^ (-52))%Q; [|qle].
  apply Qmult_le_compat_nonneg; split.
  - change 0%Q with (inject_Z 0). rewrite <- Zle_Qle. lia.
  - rewrite <- Zle_Qle. lia.
  - apply Qlt_le_weak, Qpow2_pos.
  - apply Qpow2_le. exact He.
Qed.

Lemma multiplier_value (t1 t2 : PokemonType) :
  (Qabs (float_value (get_multiplier t1 t2)) <= 2)%Q.
Proof. destruct t1, t2; qle. Qed.

Lemma stab_value (a : Pokemon) (m : Move) :
  (float_value (stab_of a m) == claimed_stab a m)%Q /\
  (Qabs (claimed_stab a m) <= 2)%Q.
Proof.
  unfold stab_of, claimed_stab.
  destruct (decide (move_type m = pokemon_type a)); split;
    solve [reflexivity | qle].
Qed.

(** The double the code hands to [int()] is within a quarter of the exact
    value of the formula. *)
Lemma damage_product_near (a d : Pokemon) (m : Move) (v : spec_float) :
  defense d <> 0 ->
  Z.abs (attack a) <= 2 ^ 20 -> Z.abs (power m) <= 2 ^ 20 ->
  small (-52) v ->
  Float.is_finite (damage_product a d m v) = true ->
  (Qabs (float_value (damage_product a d m v) - claimed_product a d m v)
   <= 1 # 4)%Q.
Proof.
  intros Hd Ha Hp Sv F. unfold damage_product in *.
  pose proof F as F4.
  apply mul_finite_inv in F as [F3 _]. pose proof F3 as F3'.
  apply mul_finite_inv in F3 as [F2 _]. pose proof F2 as F2'.
  apply mul_finite_inv in F2 as [F1 _]. pose proof F1 as F1'.
  unfold base_damage_of in *.
  apply add_finite_inv in F1 as [Fm Ftwo]. pose proof Fm as Fm'.
  apply mul_finite_inv in Fm as [Fcr Fp]. pose proof Fcr as Fcr'.
  apply mul_finite_inv in Fcr as [Fc Fr].
  set (c := Float.div (Float.exact (2 * 50 + 10)) (Float.exact 250)) in *.
  set (r := Float.div (Float.exact (attack a)) (Float.exact (defense d))) in *.
  set (p := Float.of_Z (power m)) in *.
  set (two := Float.of_Z 2) in *.
  set (eff := get_multiplier (move_type m) (pokemon_type d)) in *.
  set (stab := stab_of a m) in *.
  assert (near (2 ^ (-52)) (1 # 2) (float_value c)
            (inject_Z (2 * 50 + 10) / inject_Z 250)) as Nc.
  { eapply near_round;
      [apply (near_exact (1 # 2)); [reflexivity|qle]
      |apply div_approx; [discriminate|exact Fc]|qle|qle]. }
  assert (near (2 ^ (-31)) (2 ^ 20) (float_value r)
            (inject_Z (attack a) / inject_Z (defense d))) as Nr.
  { eapply near_round;
      [apply (near_exact (2 ^ 20)); [reflexivity|]
      |apply div_approx; [exact Hd|exact Fr]|qle|qle].
    apply (Qabs_quotient _ _ (2 ^ 20) Hd Ha). }
  assert (near (2 ^ (-31)) (2 ^ 20) (float_value p) (inject_Z (power m)))
    as Np.
  { eapply near_round;
      [apply (near_exact (2 ^ 20)); [reflexivity|]
      |apply of_Z_approx; exact Fp|qle|qle].
    apply (Qabs_bounded_Z _ (2 ^ 20) Hp). }
  assert (near (2 ^ (-50)) 2 (float_value two) 2) as Ntwo.
  { eapply near_round;
      [apply (near_exact 2); [reflexivity|qle]
      |apply (of_Z_approx 2); exact Ftwo|qle|qle]. }
  assert (near 0 2 (float_value eff) (float_value eff)) as Neff
    by (apply near_exact; [reflexivity|apply multiplier_value]).
  assert (near 0 2 (float_value v) (float_value v)) as Nv
    by (apply near_exact; [reflexivity|apply small_value, Sv]).
  destruct (stab_value a m) as [Es Bs]. fold stab in Es.
  assert (near 0 2 (float_value stab) (claimed_stab a m)) as Nstab
    by (apply near_exact; assumption).
  pose proof (near_round _ _ (2 ^ (-30)) (2 ^ 19) _ _ _
                (near_mul _ _ _ _ _ _ _ _ Nc Nr) (mul_approx _ _ Fcr')
                ltac:(qle) ltac:(qle)) as N1.
  pose proof (near_round _ _ (2 ^ (-9)) (2 ^ 39) _ _ _
                (near_mul _ _ _ _ _ _ _ _ N1 Np) (mul_approx _ _ Fm')
                ltac:(qle) ltac:(qle)) as N2.
  pose proof (near_round _ _ (2 ^ (-8)) (2 ^ 40) _ _ _
                (near_add _ _ _ _ _ _ _ _ N2 Ntwo) (add_approx _ _ F1')
                ltac:(qle) ltac:(qle)) as N3.
  pose proof (near_round _ _ (2 ^ (-6)) (2 ^ 41) _ _ _
                (near_mul _ _ _ _ _ _ _ _ N3 Neff) (mul_approx _ _ F2')
                ltac:(qle) ltac:(qle)) as N4.
  pose proof (near_round _ _ (2 ^ (-4)) (2 ^ 42) _ _ _
                (near_mul _ _ _ _ _ _ _ _ N4 Nv) (mul_approx _ _ F3')
                ltac:(qle) ltac:(qle)) as N5.
  pose proof (near_round _ _ (1 # 4) (2 ^ 43) _ _ _
                (near_mul _ _ _ _ _ _ _ _ N5 Nstab) (mul_approx _ _ F4)
                ltac:(qle) ltac:(qle)) as [N6 _].
  unfold claimed_product, claimed_base. fold eff.
  match goal with
  | |- (Qabs (_ - ?T) <= _)%Q =>
      match type of N6 with
      | (Qabs (_ - ?T') <= _)%Q =>
          assert (T == T')%Q as -> by ring
      end
  end.
  exact N6.
Qed.

(** C1 (as stated, refuted): the damage dealt is not always the floor of
    base * stab * effectiveness * variance clamped at 1.  With attack 5,
    defense 11, power 30, stab, effectiveness and variance all 1.0 the
    formula gives exactly 8 and the code returns 7 (its base is the double
    just below 8).  Read with the code's float operations in the stated
    order the formula differs too: with attack 1, defense 3, power 100,
    stab 1.5, effectiveness 1.0 and variance 0.92 it gives 22 and the code,
    which multiplies by the stab last, returns 23. *)
Lemma damage_formula_differs :
  let a1 := Pokemon_init "Attacker" FIRE 100 5 50 50 [] in
  let d1 := Pokemon_init "Defender" FIRE 100 50 11 50 [] in
  let m1 := mkMove "Strike" 30 NORMAL f1_0 in
  let a2 := Pokemon_init "Attacker" FIRE 100 1 50 50 [] in
  let d2 := Pokemon_init "Defender" ELECTRIC 100 50 3 50 [] in
  let m2 := mkMove "Blaze" 100 FIRE f1_0 in
  let v2 := Float.literal 92 100 in
  uniform_range f1_0 /\ uniform_range v2 /\
  calculate_damage a1 d1 m1 (Float.exact 0) f1_0 = Ok 7 /\
  claimed_damage a1 d1 m1 f1_0 = 8 /\
  calculate_damage a2 d2 m2 (Float.exact 0) v2 = Ok 23 /\
  claimed_damage_binary64 a2 d2 m2 v2 = 22 /\
  ~ (forall a d m roll v,
       0 < power m -> Float.gtb roll (accuracy m) = false ->
       uniform_range v ->
       calculate_damage a d m roll v = Ok (claimed_damage a d m v)) /\
  ~ (forall a d m roll v,
       0 < power m -> Float.gtb roll (accuracy m) = false ->
       uniform_range v ->
       calculate_damage a d m roll v = Ok (claimed_damage_binary64 a d m v)).
Proof.
  cbv zeta.
  assert (uniform_range f1_0) as U1 by (vm_compute; auto).
  assert (uniform_range (Float.literal 92 100)) as U2 by (vm_compute; auto).
  split; [exact U1|]. split; [exact U2|].
  split; [vm_compute; reflexivity|]. split; [vm_compute; reflexivity|].
  split; [vm_compute; reflexivity|]. split; [vm_compute; reflexivity|].
  split.
  - intros H.
    specialize (H (Pokemon_init "Attacker" FIRE 100 5 50 50 [])
                  (Pokemon_init "Defender" FIRE 100 50 11 50 [])
                  (mkMove "Strike" 30 NORMAL f1_0) (Float.exact 0) f1_0
                  ltac:(simpl; lia) ltac:(vm_compute; reflexivity) U1).
    vm_compute in H. discriminate.
  - intros H.
    specialize (H (Pokemon_init "Attacker" FIRE 100 1 50 50 [])
                  (Pokemon_init "Defender" ELECTRIC 100 50 3 50 [])
                  (mkMove "Blaze" 100 FIRE f1_0) (Float.exact 0)
                  (Float.literal 92 100)
                  ltac:(simpl; lia) ltac:(vm_compute; reflexivity) U2).
    vm_compute in H. discriminate.
Qed.

(** C1 (amended). When the move has power > 0 and the accuracy roll succeeds
    (the roll is not greater than the accuracy), the defense is not 0, the
    attack is at most 2^20 in absolute value, the power at most 2^20 and the
    variance a double in [0.85, 1.0], the damage is returned and it is the
    double ((base * effectiveness) * variance) * stab, every operation of it
    and of base = ((2*50+10)/250) * (attack/defense) * power + 2 rounded to
    the nearest double, rounded down and clamped below at 1; it is within 1
    of the floor of the exact base * stab * effectiveness * variance clamped
    below at 1, stab being 1.5 for a move of the attacker's type and 1.0
    otherwise and the effectiveness read from the chart. *)
Theorem calculate_damage_formula (a d : Pokemon) (m : Move)
    (roll v : spec_float) :
  0 < power m ->
  Float.gtb roll (accuracy m) = false ->
  defense d <> 0 ->
  Z.abs (attack a) <= 2 ^ 20 -> power m <= 2 ^ 20 ->
  uniform_range v ->
  calculate_damage a d m roll v =
    Ok (Z.max 1 (Float.floor (damage_product a d m v))) /\
  Z.abs (Z.max 1 (Float.floor (damage_product a d m v))
         - claimed_damage a d m v) <= 1.
Proof.
  intros Hp Hroll Hd Ha Hp' Hv.
  destruct (damage_product_small a d m v Hd) as (_ & _ & S);
    [lia|lia|exact Hv|].
  apply small_finite in S.
  split; [now apply calculate_damage_as_product|].
  pose proof (damage_product_near a d m v Hd Ha ltac:(lia)
                (uniform_range_small v Hv) S) as N.
  apply Qfloor_near in N. rewrite <- floor_value in N.
  unfold claimed_damage. lia.
Qed.

Lemma calculate_damage_formula_witness :
  calculate_damage Charmander Bulbasaur (mkMove "Flamethrower" 90 FIRE f0_9)
    (Float.exact 0) f0_85 =
    Ok (Z.max 1
          (Float.floor
             (damage_product Charmander Bulbasaur
                (mkMove "Flamethrower" 90 FIRE f0_9) f0_85))) /\
  Z.abs (Z.max 1
           (Float.floor
              (damage_product Charmander Bulbasaur
                 (mkMove "Flamethrower" 90 FIRE f0_9) f0_85))
         - claimed_damage Charmander Bulbasaur
             (mkMove "Flamethrower" 90 FIRE f0_9) f0_85) <= 1.
Proof.
  apply calculate_damage_formula.
  - simpl. lia.
  - vm_compute. reflexivity.
  - simpl. lia.
  - simpl. lia.
  - simpl. lia.
  - vm_compute. auto.
Defined.
